(** * Bitcask: a log-structured key/value store (zhoujie0101/bitcask)

    A shallow embedding of the Go sources
      - [internal/entry.go], [internal/utils.go], [internal/config/config.go],
      - [internal/data/codec/{encoder,decoder}.go],
      - the [data] package (datafile) and the [index] package (indexer),
      - the [bitcask] package (the engine),
    followed by theorems about the engine's contracts.

    Conventions.
      - Go's [int] and [int64] are 64-bit two's complement, [uint32] and
        [uint64] are unsigned; all are carried as [Z] and every conversion or
        addition that can leave the range is written with [wrap64], [u32] or
        [u64].
      - [[]byte] is [list byte]; a slice made by [make] has capacity equal to
        its length, so slicing past the length panics.
      - A Go function returning [(v, error)] returns a [result]; [Panic] is a
        run-time panic (slice bounds, nil interface, negative [make]).
      - The operating system is a [World]: the files of the database
        directory, a schedule of injected system-call failures and the trace
        of system calls made so far.  All engine code is written in
        state-passing style over the [World].
      - The engine mutex is not modelled: operations are atomic steps. *)

From Stdlib Require Import ZArith List Lia Bool Ascii String.
From Stdlib Require Import Strings.Byte DecimalString DecimalN DecimalPos.
From Stdlib Require Import Sorting.Sorted Sorting.Permutation.
From stdpp Require Import base option list sorting gmap strings fin_maps.

Import ListNotations.
Local Open Scope Z_scope.

#[local] Set Warnings "-clear-no-such-hyp".

(* ===================================================================== *)
(** ** Machine integers *)
(* ===================================================================== *)

Module Int.

Definition two32 : Z := 2 ^ 32.
Definition two63 : Z := 2 ^ 63.
Definition two64 : Z := 2 ^ 64.

(** Largest value of Go's [int] / [int64]. *)
Definition MaxInt : Z := two63 - 1.

(** Conversion to [uint32] / [uint64]: reduction modulo the width. *)
Definition u32 (z : Z) : Z := z mod two32.
Definition u64 (z : Z) : Z := z mod two64.

(** Conversion to (and arithmetic in) [int] / [int64]. *)
Definition wrap64 (z : Z) : Z := (z + two63) mod two64 - two63.

Definition in_int64 (z : Z) : Prop := - two63 <= z < two63.

End Int.
Import Int.

Lemma wrap64_id z : in_int64 z → wrap64 z = z.
Proof.
  unfold in_int64, wrap64, two63, two64. intros H.
  rewrite Z.mod_small; lia.
Qed.

Lemma wrap64_range z : in_int64 (wrap64 z).
Proof.
  unfold in_int64, wrap64, two63, two64.
  pose proof (Z.mod_pos_bound (z + 2 ^ 63) (2 ^ 64)). lia.
Qed.

Lemma wrap64_add_l a b : wrap64 (wrap64 a + b) = wrap64 (a + b).
Proof.
  unfold wrap64, two63, two64.
  f_equal.
  replace ((a + 2 ^ 63) mod 2 ^ 64 - 2 ^ 63 + b + 2 ^ 63)
    with ((a + 2 ^ 63) mod 2 ^ 64 + b) by lia.
  replace (a + b + 2 ^ 63) with ((a + 2 ^ 63) + b) by lia.
  rewrite Zplus_mod_idemp_l. reflexivity.
Qed.

Lemma u32_id z : 0 <= z < two32 → u32 z = z.
Proof. intros H. unfold u32. apply Z.mod_small; exact H. Qed.

Lemma u64_id z : 0 <= z < two64 → u64 z = z.
Proof. intros H. unfold u64. apply Z.mod_small; exact H. Qed.

(* ===================================================================== *)
(** ** Bytes and [encoding/binary.BigEndian] *)
(* ===================================================================== *)

#[global] Instance byte_eq_dec : EqDecision byte := Byte.byte_eq_dec.

#[global] Program Instance byte_countable : Countable byte :=
  inj_countable Byte.to_N Byte.of_N _.
Next Obligation. intros b. apply Byte.of_to_N. Qed.

Abbreviation bytes := (list byte).

(** The bytes of an ASCII literal, to write keys and values in examples. *)
Definition B (s : string) : bytes := list_byte_of_string s.

Definition byte_to_Z (b : byte) : Z := Z.of_N (Byte.to_N b).

Definition byte_of_Z (z : Z) : byte :=
  default Byte.x00 (Byte.of_N (Z.to_N (z mod 256))).

(** Length of a slice as a Go [int]. *)
Definition len {A} (l : list A) : Z := Z.of_nat (length l).

Module BigEndian.

(** Little-endian digits, least significant first; the big-endian
    encoders reverse them. *)
Fixpoint digits (n : nat) (z : Z) : bytes :=
  match n with
  | O => []
  | S n' => byte_of_Z z :: digits n' (z / 256)
  end.

Definition undigits (bs : bytes) : Z :=
  foldr (λ b acc, byte_to_Z b + 256 * acc) 0 bs.

(** [PutUint32] / [PutUint64] fill a 4 / 8 byte buffer. *)
Definition PutUint32 (v : Z) : bytes := rev (digits 4 v).
Definition PutUint64 (v : Z) : bytes := rev (digits 8 v).

(** [Uint32 b] reads [b[0..3]], [Uint64 b] reads [b[0..7]]; both panic on a
    shorter slice, which callers model before calling. *)
Definition Uint32 (b : bytes) : Z := undigits (rev (take 4 b)).
Definition Uint64 (b : bytes) : Z := undigits (rev (take 8 b)).

End BigEndian.

Lemma byte_to_Z_range b : 0 <= byte_to_Z b < 256.
Proof.
  unfold byte_to_Z. pose proof (Byte.to_N_bounded b). lia.
Qed.

Lemma byte_to_of_Z z : byte_to_Z (byte_of_Z z) = z mod 256.
Proof.
  unfold byte_of_Z, byte_to_Z.
  pose proof (Z.mod_pos_bound z 256 ltac:(lia)) as Hr.
  destruct (Byte.of_N (Z.to_N (z mod 256))) as [b|] eqn:E.
  - apply Byte.to_of_N in E. simpl. rewrite E. lia.
  - apply Byte.of_N_None_iff in E. lia.
Qed.

Lemma undigits_digits n z :
  BigEndian.undigits (BigEndian.digits n z) = z mod 256 ^ Z.of_nat n.
Proof.
  revert z. induction n as [|n IH]; intros z.
  - simpl. rewrite Z.mod_1_r. reflexivity.
  - cbn [BigEndian.digits BigEndian.undigits foldr].
    fold (BigEndian.undigits (BigEndian.digits n (z / 256))).
    rewrite IH, byte_to_of_Z.
    rewrite Nat2Z.inj_succ, Z.pow_succ_r by lia.
    rewrite Z.rem_mul_r by lia. reflexivity.
Qed.

Lemma length_digits n z : length (BigEndian.digits n z) = n.
Proof. revert z. induction n; intros; simpl; auto. Qed.

Lemma length_PutUint32 v : length (BigEndian.PutUint32 v) = 4%nat.
Proof. unfold BigEndian.PutUint32. rewrite length_rev. apply length_digits. Qed.

Lemma length_PutUint64 v : length (BigEndian.PutUint64 v) = 8%nat.
Proof. unfold BigEndian.PutUint64. rewrite length_rev. apply length_digits. Qed.

Lemma Uint32_PutUint32 v rest :
  BigEndian.Uint32 (BigEndian.PutUint32 v ++ rest) = u32 v.
Proof.
  unfold BigEndian.Uint32.
  rewrite take_app_length' by (by rewrite length_PutUint32).
  unfold BigEndian.PutUint32. rewrite rev_involutive.
  rewrite undigits_digits. reflexivity.
Qed.

Lemma Uint64_PutUint64 v rest :
  BigEndian.Uint64 (BigEndian.PutUint64 v ++ rest) = u64 v.
Proof.
  unfold BigEndian.Uint64.
  rewrite take_app_length' by (by rewrite length_PutUint64).
  unfold BigEndian.PutUint64. rewrite rev_involutive.
  rewrite undigits_digits. reflexivity.
Qed.

(* ===================================================================== *)
(** ** [hash/crc32]: CRC-32 with the IEEE polynomial *)
(* ===================================================================== *)

Module crc32.

(** The reflected IEEE polynomial. *)
Definition IEEE : Z := 0xEDB88320.

(** One bit of the shift register. *)
Definition shift (crc : Z) : Z :=
  if Z.odd crc then Z.lxor (Z.shiftr crc 1) IEEE else Z.shiftr crc 1.

Definition update (crc : Z) (b : byte) : Z :=
  Nat.iter 8 shift (Z.lxor crc (byte_to_Z b)).

Definition ChecksumIEEE (data : bytes) : Z :=
  Z.lxor (fold_left update data 0xFFFFFFFF) 0xFFFFFFFF.

End crc32.

(** The check value of the CRC catalogue. *)
Example crc32_check : crc32.ChecksumIEEE (B "123456789") = 0xCBF43926.
Proof. vm_compute. reflexivity. Qed.

Lemma lxor_u32 a b :
  0 <= a < two32 → 0 <= b < two32 → 0 <= Z.lxor a b < two32.
Proof.
  unfold two32. intros Ha Hb. split.
  - apply Z.lxor_nonneg. lia.
  - destruct (Z.eq_dec (Z.lxor a b) 0) as [->|Hne]; [lia|].
    assert (0 <= Z.lxor a b) by (apply Z.lxor_nonneg; lia).
    apply Z.log2_lt_pow2; [lia|].
    eapply Z.le_lt_trans; [apply Z.log2_lxor; lia|].
    assert (Hl : ∀ x, 0 <= x < 2 ^ 32 → Z.log2 x < 32).
    { intros x Hx. destruct (Z.eq_dec x 0) as [->|]; [simpl; lia|].
      apply Z.log2_lt_pow2; lia. }
    apply Z.max_lub_lt; apply Hl; lia.
Qed.

Lemma crc32_shift_u32 c : 0 <= c < two32 → 0 <= crc32.shift c < two32.
Proof.
  intros Hc. unfold crc32.shift.
  assert (0 <= Z.shiftr c 1 < two32).
  { rewrite Z.shiftr_div_pow2 by lia. change (2 ^ 1) with 2.
    unfold two32 in *. split; [apply Z.div_pos; lia|].
    apply Z.div_lt_upper_bound; lia. }
  destruct (Z.odd c); [|done].
  apply lxor_u32; [done|]. unfold crc32.IEEE, two32. lia.
Qed.

Lemma crc32_update_u32 c b : 0 <= c < two32 → 0 <= crc32.update c b < two32.
Proof.
  intros Hc. unfold crc32.update.
  assert (H0 : 0 <= Z.lxor c (byte_to_Z b) < two32).
  { apply lxor_u32; [done|]. pose proof (byte_to_Z_range b). unfold two32. lia. }
  generalize dependent (Z.lxor c (byte_to_Z b)). intros x Hx.
  do 8 (rewrite ?Nat.iter_succ; try apply crc32_shift_u32). exact Hx.
Qed.

Lemma ChecksumIEEE_u32 data : 0 <= crc32.ChecksumIEEE data < two32.
Proof.
  unfold crc32.ChecksumIEEE.
  apply lxor_u32; [|unfold two32; lia].
  assert (H0 : 0 <= 0xFFFFFFFF < two32) by (unfold two32; lia).
  generalize dependent 0xFFFFFFFF. induction data as [|b bs IH]; intros c Hc.
  - exact Hc.
  - simpl. apply IH. apply crc32_update_u32. exact Hc.
Qed.

(* ===================================================================== *)
(** ** Errors and results *)
(* ===================================================================== *)

(** The error values of the program and of the library calls it makes.
    [Wrapped e] is [errors.Wrap(e, msg)]: it is not [==] to [e]. *)
Inductive error : Type :=
  (* package bitcask *)
  | ErrKeyNotFound | ErrKeyTooLarge | ErrValueTooLarge | ErrChecksumFailed
  (* package data *)
  | errReadOnly | errReadError
  (* package codec *)
  | errInvalidKeyOrValueSize | errCantDecodeOnNilEntry | errTruncatedData
  (* package index *)
  | errTruncatedKeySize | errTruncatedKeyData | errTruncatedItem
  | errKeySizeTooLarge
  (* io, strconv, os, mmap *)
  | EOF | ErrUnexpectedEOF
  | ErrSyntax | ErrRange
  | ErrNotExist | ErrClosed | ErrBadOffset | EIO
  | Wrapped (e : error).

#[global] Instance error_eq_dec : EqDecision error.
Proof. solve_decision. Defined.

Inductive result (A : Type) : Type :=
  | Ok (a : A)
  | Err (e : error)
  | Panic.
Arguments Ok {A} a.
Arguments Err {A} e.
Arguments Panic {A}.

(* ===================================================================== *)
(** ** The operating system *)
(* ===================================================================== *)

(** System calls the program makes, as they appear in the trace. *)
Inductive Event : Type :=
  | EvOpenW (name : string)               (* os.OpenFile(.., O_CREATE|O_WRONLY|O_APPEND) *)
  | EvOpenR (name : string)               (* os.Open *)
  | EvWrite (name : string) (data : bytes) (* bytes that reached the file *)
  | EvSync (name : string)                (* File.Sync *)
  | EvClose (name : string).              (* File.Close of a write handle *)

#[global] Instance Event_eq_dec : EqDecision Event.
Proof. solve_decision. Defined.

(** [files]: the regular files of the database directory, by base name.
    [faults]: what happens at the next fallible system calls, in order:
    [None] lets the call through, [Some k] makes it fail (a write fails
    after [k] of its bytes reached the file); past the end of the schedule
    every call goes through.
    [trace]: the calls made so far, most recent first. *)
Record World : Type := mkWorld {
  files : gmap string bytes;
  faults : list (option nat);
  trace : list Event
}.

Definition set_files (fs : gmap string bytes) (w : World) : World :=
  mkWorld fs (faults w) (trace w).

Definition log (e : Event) (w : World) : World :=
  mkWorld (files w) (faults w) (e :: trace w).

(** An open [*os.File] used for reading: its name, the cursor of
    sequential reads and whether it has been closed. *)
Record File : Type := mkFile {
  f_name : string;
  f_pos : nat;
  f_closed : bool
}.

Module os.

(** Consume the next entry of the fault schedule. *)
Definition fault (w : World) : option nat * World :=
  match faults w with
  | [] => (None, w)
  | f :: fs => (f, mkWorld (files w) fs (trace w))
  end.

(** [os.Stat(path)] succeeding, as used by [internal.Exists]. *)
Definition Exists (name : string) (w : World) : bool * World :=
  let '(f, w) := fault w in
  match f with
  | Some _ => (false, w)
  | None => (bool_decide (is_Some (files w !! name)), w)
  end.

(** [os.OpenFile(name, O_CREATE|O_WRONLY|O_APPEND, 0640)]. *)
Definition OpenFile_append (name : string) (w : World) : result unit * World :=
  let '(f, w) := fault (log (EvOpenW name) w) in
  match f with
  | Some _ => (Err EIO, w)
  | None =>
      match files w !! name with
      | Some _ => (Ok (), w)
      | None => (Ok (), set_files (<[name := []]> (files w)) w)
      end
  end.

(** [os.OpenFile(name, O_CREATE|O_WRONLY|O_TRUNC, 0600)]. *)
Definition OpenFile_trunc (name : string) (w : World) : result unit * World :=
  let '(f, w) := fault (log (EvOpenW name) w) in
  match f with
  | Some _ => (Err EIO, w)
  | None => (Ok (), set_files (<[name := []]> (files w)) w)
  end.

(** [os.Open(name)]. *)
Definition Open (name : string) (w : World) : result unit * World :=
  let '(f, w) := fault (log (EvOpenR name) w) in
  match f with
  | Some _ => (Err EIO, w)
  | None =>
      match files w !! name with
      | Some _ => (Ok (), w)
      | None => (Err ErrNotExist, w)
      end
  end.

(** [os.Stat(name)] followed by [.Size()]. *)
Definition Stat_Size (name : string) (w : World) : result Z * World :=
  let '(f, w) := fault w in
  match f with
  | Some _ => (Err EIO, w)
  | None =>
      match files w !! name with
      | Some c => (Ok (wrap64 (len c)), w)
      | None => (Err ErrNotExist, w)
      end
  end.

(** [mmap.Open(name)]: the view holds the file as it is now. *)
Definition mmap_Open (name : string) (w : World) : result bytes * World :=
  let '(f, w) := fault w in
  match f with
  | Some _ => (Err EIO, w)
  | None =>
      match files w !! name with
      | Some c => (Ok c, w)
      | None => (Err ErrNotExist, w)
      end
  end.

(** [write(2)] through a handle opened with [O_APPEND] (or freshly
    truncated): the data goes to the end of the file. *)
Definition Write (name : string) (data : bytes) (w : World) : result unit * World :=
  let '(f, w) := fault w in
  let c := default [] (files w !! name) in
  match f with
  | Some k =>
      (Err EIO, log (EvWrite name (take k data))
                    (set_files (<[name := c ++ take k data]> (files w)) w))
  | None =>
      (Ok (), log (EvWrite name data)
                  (set_files (<[name := c ++ data]> (files w)) w))
  end.

(** [File.Sync] on an open handle. *)
Definition Sync (name : string) (w : World) : result unit * World :=
  let '(f, w) := fault (log (EvSync name) w) in
  match f with
  | Some _ => (Err EIO, w)
  | None => (Ok (), w)
  end.

(** [File.Close] on an open write handle; the handle is released whatever
    the result. *)
Definition Close (name : string) (w : World) : result unit * World :=
  let '(f, w) := fault (log (EvClose name) w) in
  match f with
  | Some _ => (Err EIO, w)
  | None => (Ok (), w)
  end.

(** [File.ReadAt(b, off)] with [len(b) = n]: the bytes read, and [io.EOF]
    when fewer than [n] are available.  A negative offset is refused, an
    empty buffer is filled without a system call, and only then does a
    closed handle show. *)
Definition ReadAt (r : File) (n off : Z) (w : World) : result bytes * World :=
  if off <? 0 then (Err ErrBadOffset, w)
  else if n =? 0 then (Ok [], w)
  else if f_closed r then (Err ErrClosed, w)
  else
    let '(f, w) := fault w in
    match f with
    | Some _ => (Err EIO, w)
    | None =>
        let c := default [] (files w !! f_name r) in
        let b := take (Z.to_nat n) (drop (Z.to_nat off) c) in
        if len b <? n then (Err EOF, w) else (Ok b, w)
    end.

End os.

(* ===================================================================== *)
(** ** package internal: entries and directory items *)
(* ===================================================================== *)

(** [internal.Entry]. *)
Record Entry : Type := mkEntry {
  Checksum : Z;       (* uint32 *)
  Key : bytes;
  Offset : Z;         (* int64 *)
  Value : bytes
}.

(** The zero value of [Entry] (nil slices are empty slices here). *)
Definition zeroEntry : Entry := mkEntry 0 [] 0 [].

Definition NewEntry (key value : bytes) : Entry :=
  mkEntry (crc32.ChecksumIEEE value) key 0 value.

(** [internal.Item]: where the live record of a key is.  The declaration
    is not among the sources; the fields and their types are those of the
    composite literals in [Put], [loadIndex] and [readItem]. *)
Record Item : Type := mkItem {
  FileID : Z;         (* int *)
  ItemOffset : Z;     (* int64, field Offset *)
  Size : Z            (* int64 *)
}.

#[global] Instance Item_eq_dec : EqDecision Item.
Proof. solve_decision. Defined.

Module config.

(** [config.Config]. *)
Record Config : Type := mkConfig {
  MaxDatafileSize : Z;   (* int *)
  MaxKeySize : Z;        (* uint32 *)
  MaxValueSize : Z;      (* uint64 *)
  Sync : bool
}.

(** The ranges of the field types. *)
Definition Config_wf (c : Config) : Prop :=
  in_int64 (MaxDatafileSize c) ∧
  0 <= MaxKeySize c < two32 ∧
  0 <= MaxValueSize c < two64.

End config.
Import config.

(* ===================================================================== *)
(** ** package codec *)
(* ===================================================================== *)

Module io.

(** [io.ReadFull(r, buf)] with [len(buf) = n]: exactly [n] bytes, [EOF] if
    none could be read, [ErrUnexpectedEOF] after a partial read. *)
Definition ReadFull (r : File) (n : Z) (w : World) : result bytes * File * World :=
  if n =? 0 then (Ok [], r, w)
  else if f_closed r then (Err ErrClosed, r, w)
  else
    let '(f, w) := os.fault w in
    match f with
    | Some _ => (Err EIO, r, w)
    | None =>
        let avail := drop (f_pos r) (default [] (files w !! f_name r)) in
        match avail with
        | [] => (Err EOF, r, w)
        | _ =>
            if len avail <? n
            then (Err ErrUnexpectedEOF,
                  mkFile (f_name r) (f_pos r + length avail) false, w)
            else (Ok (take (Z.to_nat n) avail),
                  mkFile (f_name r) (f_pos r + Z.to_nat n) false, w)
        end
    end.

End io.

Module codec.

Definition keySize : Z := 4.
Definition valueSize : Z := 8.
Definition checksumSize : Z := 4.

(** [Encoder]: the [bufio.Writer] around a write handle.  [wr_err] is the
    sticky error of the [bufio.Writer]: once a write has failed every
    later write and flush returns that error.  [wr_closed] is the state of
    the handle underneath. *)
Record Encoder : Type := mkEncoder {
  wr_name : string;
  wr_closed : bool;
  wr_err : option error
}.

(** The byte stream of one record:
    keyLen | valueLen | key | value | checksum(value). *)
Definition encoded (entry : Entry) : bytes :=
  BigEndian.PutUint32 (u32 (len (Key entry))) ++
  BigEndian.PutUint64 (u64 (len (Value entry))) ++
  Key entry ++ Value entry ++
  BigEndian.PutUint32 (Checksum entry).

(** [Encoder.Encode]: the four buffered writes and the flush reach the
    file as one append, which an injected fault cuts short. *)
Definition Encode (e : Encoder) (entry : Entry) (w : World)
  : result Z * Encoder * World :=
  match wr_err e with
  | Some err => (Err (Wrapped err), e, w)
  | None =>
      if wr_closed e
      then (Err (Wrapped ErrClosed), mkEncoder (wr_name e) true (Some ErrClosed), w)
      else
        match os.Write (wr_name e) (encoded entry) w with
        | (Ok _, w) =>
            (Ok (wrap64 (keySize + valueSize + len (Key entry)
                         + len (Value entry) + checksumSize)), e, w)
        | (Err err, w) =>
            (Err (Wrapped err), mkEncoder (wr_name e) false (Some err), w)
        | (Panic, w) => (Panic, e, w)
        end
  end.

(** [getKeyValueSizes]: slicing [b[:keySize]] and reading eight bytes of
    [b[keySize:]] panic on a buffer shorter than the prefix. *)
Definition getKeyValueSizes (b : bytes) (maxKeySize maxValueSize : Z)
  : result (Z * Z) :=
  if len b <? keySize + valueSize then Panic
  else
    let actualKeySize := BigEndian.Uint32 (take 4 b) in
    let actualValueSize := BigEndian.Uint64 (drop 4 b) in
    if (actualKeySize >? maxKeySize) || (actualValueSize >? maxValueSize)
       || (actualKeySize =? 0)
    then Err errInvalidKeyOrValueSize
    else Ok (actualKeySize, actualValueSize).

(** [decodeWithoutPrefix]: the three slice expressions panic unless
    [actualKeySize <= len(b) - checksumSize]. *)
Definition decodeWithoutPrefix (b : bytes) (actualKeySize : Z) (e : Entry)
  : result Entry :=
  if len b <? actualKeySize then Panic
  else if len b - checksumSize <? actualKeySize then Panic
  else
    let k := Z.to_nat actualKeySize in
    let hi := Z.to_nat (len b - checksumSize) in
    Ok (mkEntry (BigEndian.Uint32 (drop hi b))
                (take k b)
                (Offset e)
                (drop k (take hi b))).

(** [DecodeEntry(b, e, ..)]: the entry behind the pointer [e] afterwards,
    with the returned error. *)
Definition DecodeEntry (b : bytes) (e : Entry) (maxKeySize maxValueSize : Z)
  : result unit * Entry :=
  match getKeyValueSizes b maxKeySize maxValueSize with
  | Panic => (Panic, e)
  | Err err => (Err (Wrapped err), e)
  | Ok (actualKeySize, _) =>
      match decodeWithoutPrefix (drop 12 b) actualKeySize e with
      | Ok e' => (Ok (), e')
      | Err err => (Err err, e)
      | Panic => (Panic, e)
      end
  end.

(** [Decoder.Decode(&e)] reading from [r]; every caller passes a non-nil
    pointer.  Returns the entry and the number of bytes consumed. *)
Definition Decode (r : File) (maxKeySize maxValueSize : Z) (w : World)
  : result (Entry * Z) * File * World :=
  match io.ReadFull r (keySize + valueSize) w with
  | (Panic, r, w) => (Panic, r, w)
  | (Err err, r, w) => (Err err, r, w)
  | (Ok keyValueSizeBuf, r, w) =>
      match getKeyValueSizes keyValueSizeBuf maxKeySize maxValueSize with
      | Panic => (Panic, r, w)
      | Err err => (Err err, r, w)
      | Ok (actualKeySize, actualValueSize) =>
          let n := u64 (actualKeySize + actualValueSize + checksumSize) in
          if n >? MaxInt then (Panic, r, w)  (* make: len out of range *)
          else
            match io.ReadFull r n w with
            | (Ok buf, r, w) =>
                match decodeWithoutPrefix buf actualKeySize zeroEntry with
                | Ok e =>
                    (Ok (e, wrap64 (u64 (keySize + valueSize + actualKeySize
                                         + actualValueSize + checksumSize))),
                     r, w)
                | _ => (Panic, r, w)
                end
            | (_, r, w) => (Err errTruncatedData, r, w)
            end
      end
  end.

End codec.

(* ===================================================================== *)
(** ** package data: data files *)
(* ===================================================================== *)

Module fmt.

(** The decimal digits of a natural number, as [%d] prints them. *)
Definition decimal (n : N) : string :=
  DecimalString.NilZero.string_of_uint (N.to_uint n).

Definition zeros (n : nat) : string := string_of_list_ascii (repeat "0"%char n).

(** [Sprintf("%0<width>d", z)]: the sign first, then zeros up to the width. *)
Definition Sprintf_0d (width : nat) (z : Z) : string :=
  let s := decimal (Z.to_N (Z.abs z)) in
  if z <? 0
  then "-" +:+ zeros (width - 1 - String.length s) +:+ s
  else zeros (width - String.length s) +:+ s.

End fmt.

Module data.

(** [fmt.Sprintf(defaultDatafileFilename, id)], the base name of the file
    of segment [id]; [filepath.Join(path, ..)] puts it in the database
    directory, whose files the [World] holds by base name. *)
Definition defaultDatafileFilename (id : Z) : string :=
  fmt.Sprintf_0d 9 id +:+ ".data".

(** [datafile].  [d_r] is the read handle, shared with the decoder;
    [d_ra] the memory-mapped view ([None] once closed); [d_w] the write
    handle with the encoder around it ([None] is the nil handle of a
    read-only data file). *)
Record datafile : Type := mkDatafile {
  d_r : File;
  d_ra : option bytes;
  d_w : option codec.Encoder;
  d_id : Z;
  d_offset : Z;
  d_maxKeySize : Z;
  d_maxValueSize : Z
}.

Definition set_r (r : File) (d : datafile) : datafile :=
  mkDatafile r (d_ra d) (d_w d) (d_id d) (d_offset d)
             (d_maxKeySize d) (d_maxValueSize d).

Definition set_w (e : codec.Encoder) (d : datafile) : datafile :=
  mkDatafile (d_r d) (d_ra d) (Some e) (d_id d) (d_offset d)
             (d_maxKeySize d) (d_maxValueSize d).

Definition set_offset (o : Z) (d : datafile) : datafile :=
  mkDatafile (d_r d) (d_ra d) (d_w d) (d_id d) o
             (d_maxKeySize d) (d_maxValueSize d).

Definition NewDatafile (id : Z) (readonly : bool) (maxKeySize maxValueSize : Z)
    (w : World) : result datafile * World :=
  let fn := defaultDatafileFilename id in
  let '(rw, w) :=
    if readonly then (Ok (), w) else os.OpenFile_append fn w in
  match rw with
  | Err e => (Err e, w)
  | Panic => (Panic, w)
  | Ok _ =>
      match os.Open fn w with
      | (Err e, w) => (Err e, w)
      | (Panic, w) => (Panic, w)
      | (Ok _, w) =>
          match os.mmap_Open fn w with
          | (Err e, w) => (Err e, w)
          | (Panic, w) => (Panic, w)
          | (Ok view, w) =>
              match os.Stat_Size fn w with
              | (Err e, w) => (Err e, w)
              | (Panic, w) => (Panic, w)
              | (Ok offset, w) =>
                  (Ok (mkDatafile
                         (mkFile fn 0 false)
                         (Some view)
                         (if readonly then None
                          else Some (codec.mkEncoder fn false None))
                         id offset maxKeySize maxValueSize),
                   w)
              end
          end
      end
  end.

Definition FileID (d : datafile) : Z := d_id d.

Definition Name (d : datafile) : string := f_name (d_r d).

Definition Size (d : datafile) : Z := d_offset d.

Definition Sync (d : datafile) (w : World) : result unit * World :=
  match d_w d with
  | None => (Err errReadOnly, w)
  | Some e =>
      if codec.wr_closed e then (Err ErrClosed, w)
      else os.Sync (codec.wr_name e) w
  end.

Definition Read (d : datafile) (w : World)
  : result (Entry * Z) * datafile * World :=
  let '(res, r, w) :=
    codec.Decode (d_r d) (d_maxKeySize d) (d_maxValueSize d) w in
  (res, set_r r d, w).

(** The positioned read of [ReadAt]: through the memory-mapped view when
    the data file is read-only, through the read handle otherwise. *)
Definition readBytes (d : datafile) (offset size : Z) (w : World)
  : result bytes * World :=
  match d_w d with
  | None =>
      match d_ra d with
      | None => (Err ErrClosed, w)
      | Some view =>
          if (offset <? 0) || (len view <? offset) then (Err ErrBadOffset, w)
          else
            let b := take (Z.to_nat size) (drop (Z.to_nat offset) view) in
            if len b <? size then (Err EOF, w) else (Ok b, w)
      end
  | Some _ => os.ReadAt (d_r d) size offset w
  end.

(** [ReadAt]: the value of [DecodeEntry] is dropped; only a panic inside
    it comes out. *)
Definition ReadAt (d : datafile) (offset size : Z) (w : World)
  : result Entry * World :=
  if size <? 0 then (Panic, w)  (* make([]byte, size) *)
  else
    match readBytes d offset size w with
    | (Err e, w) => (Err e, w)
    | (Panic, w) => (Panic, w)
    | (Ok b, w) =>
        if negb (len b =? size) then (Err errReadError, w)
        else
          match codec.DecodeEntry b zeroEntry (d_maxKeySize d) (d_maxValueSize d) with
          | (Panic, _) => (Panic, w)
          | (_, e) => (Ok e, w)
          end
    end.

(** [Write]: offset and length of the record written. *)
Definition Write (d : datafile) (e : Entry) (w : World)
  : result (Z * Z) * datafile * World :=
  match d_w d with
  | None => (Err errReadOnly, d, w)
  | Some enc =>
      let e := mkEntry (Checksum e) (Key e) (d_offset d) (Value e) in
      match codec.Encode enc e w with
      | (Ok n, enc, w) =>
          (Ok (Offset e, n),
           set_offset (wrap64 (d_offset d + n)) (set_w enc d), w)
      | (Err err, enc, w) => (Err err, set_w enc d, w)
      | (Panic, enc, w) => (Panic, set_w enc d, w)
      end
  end.

(** [Close]: the deferred function releases the view and the read handle
    whatever happens; the write handle is closed only after a successful
    sync. *)
Definition Close (d : datafile) (w : World) : result unit * datafile * World :=
  let released (d : datafile) : datafile :=
    mkDatafile (mkFile (f_name (d_r d)) (f_pos (d_r d)) true) None (d_w d)
               (d_id d) (d_offset d) (d_maxKeySize d) (d_maxValueSize d) in
  match d_w d with
  | None => (Ok (), released d, w)
  | Some enc =>
      match Sync d w with
      | (Ok _, w) =>
          let '(res, w) := os.Close (codec.wr_name enc) w in
          (res,
           released (set_w (codec.mkEncoder (codec.wr_name enc) true
                                            (codec.wr_err enc)) d),
           w)
      | (res, w) => (res, released d, w)
      end
  end.

End data.

(* ===================================================================== *)
(** ** Library functions used by package internal *)
(* ===================================================================== *)

(** Orders used by the [sort] package and by the directory's traversal. *)
Definition string_le (a b : string) : Prop := Is_true (String.leb a b).

Fixpoint bytes_leb (a b : bytes) : bool :=
  match a, b with
  | [], _ => true
  | _ :: _, [] => false
  | x :: a', y :: b' =>
      if byte_to_Z x <? byte_to_Z y then true
      else if byte_to_Z y <? byte_to_Z x then false
      else bytes_leb a' b'
  end.

Definition bytes_le (a b : bytes) : Prop := Is_true (bytes_leb a b).

Module sort.

Definition Ints (l : list Z) : list Z := merge_sort Z.le l.

Definition Strings (l : list string) : list string := merge_sort string_le l.

End sort.

Module strings.

Definition HasSuffix (s suffix : string) : bool :=
  let n := String.length s in
  let m := String.length suffix in
  (m <=? n)%nat && bool_decide (substring (n - m) m s = suffix).

Definition TrimSuffix (s suffix : string) : string :=
  if HasSuffix s suffix
  then substring 0 (String.length s - String.length suffix) s
  else s.

End strings.

Module filepath.

Definition sep : ascii := "/"%char.

Fixpoint dropSeps (l : list ascii) : list ascii :=
  match l with
  | c :: l' => if bool_decide (c = sep) then dropSeps l' else l
  | [] => []
  end.

Fixpoint untilSep (l : list ascii) : list ascii :=
  match l with
  | c :: l' => if bool_decide (c = sep) then [] else c :: untilSep l'
  | [] => []
  end.

(** [filepath.Base]: the last element of the path, trailing separators
    removed; computed on the reversed path. *)
Definition Base (path : string) : string :=
  match path with
  | EmptyString => "."
  | _ =>
      match dropSeps (rev (list_ascii_of_string path)) with
      | [] => "/"
      | l => string_of_list_ascii (rev (untilSep l))
      end
  end.

(** Scan of [Ext] from the end of the path: the characters seen so far
    are in [seen], most recent first in the original order. *)
Fixpoint extScan (l : list ascii) (seen : list ascii) : list ascii :=
  match l with
  | [] => []
  | c :: l' =>
      if bool_decide (c = sep) then []
      else if bool_decide (c = "."%char) then c :: seen
      else extScan l' (c :: seen)
  end.

(** [filepath.Ext]: the suffix from the last dot of the last element. *)
Definition Ext (path : string) : string :=
  string_of_list_ascii (extScan (rev (list_ascii_of_string path)) []).

End filepath.

Module strconv.

Definition digit (c : ascii) : option Z :=
  let n := Z.of_N (N_of_ascii c) in
  if (48 <=? n) && (n <=? 57) then Some (n - 48) else None.

(** The loop of [ParseUint(s, 10, 64)]. *)
Fixpoint parseUintLoop (s : string) (n : Z) : result Z :=
  match s with
  | EmptyString => Ok n
  | String c s' =>
      match digit c with
      | None => Err ErrSyntax
      | Some d =>
          if n >=? (two64 - 1) / 10 + 1 then Err ErrRange
          else
            let n1 := n * 10 + d in
            if n1 >? two64 - 1 then Err ErrRange
            else parseUintLoop s' n1
      end
  end.

Definition ParseUint (s : string) : result Z :=
  match s with
  | EmptyString => Err ErrSyntax
  | _ => parseUintLoop s 0
  end.

(** [strconv.ParseInt(s, 10, 64)]. *)
Definition ParseInt (s : string) : result Z :=
  match s with
  | EmptyString => Err ErrSyntax
  | String c s' =>
      let '(neg, digits) :=
        if bool_decide (c = "+"%char) then (false, s')
        else if bool_decide (c = "-"%char) then (true, s')
        else (false, s) in
      match ParseUint digits with
      | Ok un =>
          if negb neg && (un >=? two63) then Err ErrRange
          else if neg && (un >? two63) then Err ErrRange
          else Ok (if neg then - un else un)
      | Err e => Err e
      | Panic => Panic
      end
  end.

End strconv.

(* ===================================================================== *)
(** ** package internal: utils.go *)
(* ===================================================================== *)

Module internal.

(** [Exists]. *)
Definition Exists (name : string) (w : World) : bool * World := os.Exists name w.

(** The names [filepath.Glob] matches against [*.data]. *)
Definition isDataName (name : string) : bool :=
  strings.HasSuffix name ".data"
  && forallb (λ c, negb (bool_decide (c = filepath.sep))) (list_ascii_of_string name).

(** [GetDatafiles(path)]: the [*.data] files of the directory, as paths
    under [path], sorted.  The pattern built from [path] is taken to be
    well formed, so that [Glob] returns no error, and the listing of the
    directory to be reliable. *)
Definition GetDatafiles (path : string) (w : World) : result (list string) :=
  let names := filter (λ n, Is_true (isDataName n)) (elements (dom (files w))) in
  Ok (sort.Strings (map (λ n, path +:+ "/" +:+ n) names)).

(** The [for] loop of [ParseIds]. *)
Fixpoint parseLoop (fns : list string) (ids : list Z) : result (list Z) :=
  match fns with
  | [] => Ok ids
  | fn :: fns' =>
      let base := filepath.Base fn in
      let ext := filepath.Ext fn in
      match strconv.ParseInt (strings.TrimSuffix base ext) with
      | Ok id => parseLoop fns' (ids ++ [id])
      | Err e => Err e
      | Panic => Panic
      end
  end.

(** [ParseIds]: [make([]int, len(fns))] is a slice of [len(fns)] zeros, to
    which the ids are appended. *)
Definition ParseIds (fns : list string) : result (list Z) :=
  let ids := replicate (length fns) 0 in
  match parseLoop fns ids with
  | Ok ids => Ok (sort.Ints ids)
  | Err e => Err e
  | Panic => Panic
  end.

End internal.

Example ParseIds_two :
  internal.ParseIds ["/tmp/db/000000000.data"; "/tmp/db/000000001.data"]%string
  = Ok [0; 0; 0; 1].
Proof. vm_compute. reflexivity. Qed.

Example defaultDatafileFilename_7 :
  data.defaultDatafileFilename 7 = "000000007.data"%string.
Proof. vm_compute. reflexivity. Qed.

Example Base_Ext :
  filepath.Base "/tmp/db/000000001.data" = "000000001.data"%string
  ∧ filepath.Ext "/tmp/db/000000001.data" = ".data"%string
  ∧ strconv.ParseInt "-12" = Ok (-12)
  ∧ strconv.ParseInt "9223372036854775808" = Err ErrRange
  ∧ strconv.ParseInt "1x" = Err ErrSyntax.
Proof. vm_compute. repeat split. Qed.

(* ===================================================================== *)
(** ** package index: the directory snapshot *)
(* ===================================================================== *)

(** The key directory: the adaptive radix tree [art.Tree] of the source,
    used as a finite map from keys to items whose [ForEach] visits the keys
    in ascending byte order. *)
Abbreviation Tree := (gmap bytes Item).

Definition ForEach_keys (t : Tree) : list bytes :=
  merge_sort bytes_le (map fst (map_to_list t)).

Module index.

Definition int32Size : Z := 4.
Definition int64Size : Z := 8.
Definition fileIDSize : Z := int32Size.
Definition offsetSize : Z := int64Size.
Definition sizeSize : Z := int64Size.

(** [io.ReadFull] on what is left of the snapshot file: the bytes read and
    the rest.  The snapshot is read through a handle of its own, so the
    rest of the file is all the state there is. *)
Definition readFull (bs : bytes) (n : Z) : result (bytes * bytes) :=
  if n =? 0 then Ok ([], bs)
  else
    match bs with
    | [] => Err EOF
    | _ =>
        if len bs <? n then Err ErrUnexpectedEOF
        else Ok (take (Z.to_nat n) bs, drop (Z.to_nat n) bs)
    end.

Definition readKey (bs : bytes) (maxKeySize : Z) : result (bytes * bytes) :=
  match readFull bs int32Size with
  | Err EOF => Err EOF
  | Err _ => Err (Wrapped errTruncatedKeySize)
  | Panic => Panic
  | Ok (keySizeBuf, bs) =>
      let size := BigEndian.Uint32 keySizeBuf in
      if size >? maxKeySize then Err errKeySizeTooLarge
      else
        match readFull bs size with
        | Ok (keyBuf, bs) => Ok (keyBuf, bs)
        | Err _ => Err (Wrapped errTruncatedKeyData)
        | Panic => Panic
        end
  end.

Definition readItem (bs : bytes) : result (Item * bytes) :=
  match readFull bs (fileIDSize + offsetSize + sizeSize) with
  | Ok (buf, bs) =>
      Ok (mkItem (BigEndian.Uint32 (take 4 buf))
                 (wrap64 (BigEndian.Uint64 (take 8 (drop 4 buf))))
                 (wrap64 (BigEndian.Uint64 (drop 12 buf))),
          bs)
  | Err _ => Err (Wrapped errTruncatedItem)
  | Panic => Panic
  end.

(** The loop of [readIndex].  Every turn consumes at least the 24 bytes
    of an empty key and its item, so [fuel] above the length of the file
    is never used up. *)
Fixpoint readIndex (fuel : nat) (t : Tree) (bs : bytes) (maxKeySize : Z)
  : result Tree :=
  match fuel with
  | O => Ok t
  | S fuel =>
      match readKey bs maxKeySize with
      | Err EOF => Ok t
      | Err e => Err e
      | Panic => Panic
      | Ok (key, bs) =>
          match readItem bs with
          | Err e => Err e
          | Panic => Panic
          | Ok (item, bs) => readIndex fuel (<[key := item]> t) bs maxKeySize
          end
      end
  end.

(** [Load]: the tree and whether a snapshot was found. *)
Definition Load (name : string) (maxKeySize : Z) (w : World)
  : result (Tree * bool) * World :=
  let t : Tree := ∅ in
  let '(found, w) := internal.Exists name w in
  if negb found then (Ok (t, false), w)
  else
    match os.Open name w with
    | (Err e, w) => (Err e, w)
    | (Panic, w) => (Panic, w)
    | (Ok _, w) =>
        let bs := default [] (files w !! name) in
        match readIndex (S (length bs)) t bs maxKeySize with
        | Ok t => (Ok (t, true), w)
        | Err e => (Err e, w)
        | Panic => (Panic, w)
        end
    end.

Definition writeKey (name : string) (b : bytes) (w : World) : result unit * World :=
  match os.Write name (BigEndian.PutUint32 (u32 (len b))) w with
  | (Ok _, w) => os.Write name b w
  | (res, w) => (res, w)
  end.

Definition writeItem (name : string) (i : Item) (w : World) : result unit * World :=
  os.Write name
    (BigEndian.PutUint32 (u32 (FileID i)) ++
     BigEndian.PutUint64 (u64 (ItemOffset i)) ++
     BigEndian.PutUint64 (u64 (Size i)))
    w.

(** [writeIndex]: [ForEach] stops at the first failed write. *)
Fixpoint writeNodes (name : string) (t : Tree) (keys : list bytes) (w : World)
  : result unit * World :=
  match keys with
  | [] => (Ok (), w)
  | key :: keys =>
      match writeKey name key w with
      | (Ok _, w) =>
          match writeItem name (default (mkItem 0 0 0) (t !! key)) w with
          | (Ok _, w) => writeNodes name t keys w
          | (res, w) => (res, w)
          end
      | (res, w) => (res, w)
      end
  end.

Definition writeIndex (name : string) (t : Tree) (w : World) : result unit * World :=
  writeNodes name t (ForEach_keys t) w.

(** [Save]; the deferred [f.Close()] runs on every path after the open. *)
Definition Save (t : Tree) (name : string) (w : World) : result unit * World :=
  match os.OpenFile_trunc name w with
  | (Ok _, w) =>
      let '(res, w) :=
        match writeIndex name t w with
        | (Ok _, w) => os.Sync name w
        | (res, w) => (res, w)
        end in
      let '(_, w) := os.Close name w in
      (res, w)
  | (res, w) => (res, w)
  end.

End index.

(* ===================================================================== *)
(** ** package bitcask: the engine *)
(* ===================================================================== *)

Module bitcask.

(** [Bitcask], once [Open] has returned it: the configuration, the
    active data file [curr], the read-only data files by id and the key
    directory.  [path] names the directory whose files the [World] holds;
    the mutex, the options and the (stateless) indexer carry no state. *)
Record Bitcask : Type := mkBitcask {
  b_cfg : Config;
  b_path : string;
  b_curr : data.datafile;
  b_datafiles : gmap Z data.datafile;
  b_t : Tree
}.

Definition set_curr (c : data.datafile) (b : Bitcask) : Bitcask :=
  mkBitcask (b_cfg b) (b_path b) c (b_datafiles b) (b_t b).

Definition set_datafiles (m : gmap Z data.datafile) (b : Bitcask) : Bitcask :=
  mkBitcask (b_cfg b) (b_path b) (b_curr b) m (b_t b).

Definition set_t (t : Tree) (b : Bitcask) : Bitcask :=
  mkBitcask (b_cfg b) (b_path b) (b_curr b) (b_datafiles b) t.

(** The body of the [if size > int64(b.cfg.MaxDatafileSize)] of [put];
    [id] is the id of the data file being retired. *)
Definition rollover (b : Bitcask) (w : World) : result unit * Bitcask * World :=
  let '(_, c, w) := data.Close (b_curr b) w in
  let b := set_curr c b in
  let id := data.FileID (b_curr b) in
  match data.NewDatafile id true (MaxKeySize (b_cfg b)) (MaxValueSize (b_cfg b)) w with
  | (Err e, w) => (Err e, b, w)
  | (Panic, w) => (Panic, b, w)
  | (Ok datafile, w) =>
      let b := set_datafiles (<[id := datafile]> (b_datafiles b)) b in
      match data.NewDatafile (wrap64 (id + 1)) false
                        (MaxKeySize (b_cfg b)) (MaxValueSize (b_cfg b)) w with
      | (Err e, w) => (Err e, b, w)
      | (Panic, w) => (Panic, b, w)
      | (Ok datafile, w) => (Ok (), set_curr datafile b, w)
      end
  end.

(** [put]: offset and length of the record appended to [b.curr]. *)
Definition put (b : Bitcask) (key value : bytes) (w : World)
  : result (Z * Z) * Bitcask * World :=
  let size := data.Size (b_curr b) in
  let '(rolled, b, w) :=
    if size >? MaxDatafileSize (b_cfg b) then rollover b w else (Ok (), b, w) in
  match rolled with
  | Err e => (Err e, b, w)
  | Panic => (Panic, b, w)
  | Ok _ =>
      let e := NewEntry key value in
      let '(res, c, w) := data.Write (b_curr b) e w in
      (res, set_curr c b, w)
  end.

Definition Put (b : Bitcask) (key value : bytes) (w : World)
  : result unit * Bitcask * World :=
  if u32 (len key) >? MaxKeySize (b_cfg b) then (Err ErrKeyTooLarge, b, w)
  else if u64 (len value) >? MaxValueSize (b_cfg b) then (Err ErrValueTooLarge, b, w)
  else
    match put b key value w with
    | (Ok (offset, n), b, w) =>
        let item := mkItem (data.FileID (b_curr b)) offset n in
        (Ok (), set_t (<[key := item]> (b_t b)) b, w)
    | (Err e, b, w) => (Err e, b, w)
    | (Panic, b, w) => (Panic, b, w)
    end.

(** [Get]; a directory entry naming a data file that is neither [curr] nor
    in [datafiles] makes [df] the nil interface, and the call on it panics. *)
Definition Get (b : Bitcask) (key : bytes) (w : World) : result bytes * World :=
  match b_t b !! key with
  | None => (Err ErrKeyNotFound, w)
  | Some item =>
      let df :=
        if FileID item =? data.FileID (b_curr b) then Some (b_curr b)
        else b_datafiles b !! FileID item in
      match df with
      | None => (Panic, w)
      | Some df =>
          match data.ReadAt df (ItemOffset item) (Size item) w with
          | (Err e, w) => (Err e, w)
          | (Panic, w) => (Panic, w)
          | (Ok e, w) =>
              let checksum := crc32.ChecksumIEEE (Value e) in
              if negb (checksum =? Checksum e) then (Err ErrChecksumFailed, w)
              else (Ok (Value e), w)
          end
      end
  end.

Definition Has (b : Bitcask) (key : bytes) : bool :=
  bool_decide (is_Some (b_t b !! key)).

Definition Delete (b : Bitcask) (key : bytes) (w : World)
  : result unit * Bitcask * World :=
  match put b key [] w with
  | (Ok _, b, w) => (Ok (), set_t (delete key (b_t b)) b, w)
  | (Err e, b, w) => (Err e, b, w)
  | (Panic, b, w) => (Panic, b, w)
  end.

(** The traversal of [DeleteAll]: the callback returns [false], which
    ends [ForEach], at the first failed [put]. *)
Fixpoint deleteKeys (b : Bitcask) (keys : list bytes) (w : World)
  : result unit * Bitcask * World :=
  match keys with
  | [] => (Ok (), b, w)
  | key :: keys =>
      match put b key [] w with
      | (Ok _, b, w) => deleteKeys b keys w
      | (Err e, b, w) => (Err e, b, w)
      | (Panic, b, w) => (Panic, b, w)
      end
  end.

Definition DeleteAll (b : Bitcask) (w : World) : result unit * Bitcask * World :=
  let '(err, b, w) := deleteKeys b (ForEach_keys (b_t b)) w in
  match err with
  | Panic => (Panic, b, w)
  | _ => (err, set_t ∅ b, w)
  end.

Definition Len (b : Bitcask) : Z := Z.of_nat (size (b_t b)).

Definition Sync (b : Bitcask) (w : World) : result unit * World :=
  data.Sync (b_curr b) w.

(** The loop of [Close] over [b.datafiles] (Go leaves the order of a map
    range open; the ids are taken in ascending order). *)
Fixpoint closeAll (m : gmap Z data.datafile) (ids : list Z) (w : World)
  : result unit * gmap Z data.datafile * World :=
  match ids with
  | [] => (Ok (), m, w)
  | id :: ids =>
      match m !! id with
      | None => closeAll m ids w
      | Some f =>
          match data.Close f w with
          | (Ok _, f, w) => closeAll (<[id := f]> m) ids w
          | (res, f, w) => (res, <[id := f]> m, w)
          end
      end
  end.

Definition Close (b : Bitcask) (w : World) : result unit * Bitcask * World :=
  match index.Save (b_t b) "index" w with
  | (Ok _, w) =>
      match closeAll (b_datafiles b)
                     (merge_sort Z.le (elements (dom (b_datafiles b)))) w with
      | (Ok _, m, w) =>
          let '(res, c, w) := data.Close (b_curr b) w in
          (res, set_curr c (set_datafiles m b), w)
      | (res, m, w) => (res, set_datafiles m b, w)
      end
  | (res, w) => (res, b, w)
  end.

(** The loop of [loadDatafiles] over the ids. *)
Fixpoint openAll (ids : list Z) (maxKeySize maxValueSize : Z)
    (datafiles : gmap Z data.datafile) (w : World)
  : result (gmap Z data.datafile) * World :=
  match ids with
  | [] => (Ok datafiles, w)
  | id :: ids =>
      match data.NewDatafile id true maxKeySize maxValueSize w with
      | (Ok file, w) =>
          openAll ids maxKeySize maxValueSize (<[id := file]> datafiles) w
      | (Err e, w) => (Err e, w)
      | (Panic, w) => (Panic, w)
      end
  end.

Definition loadDatafiles (path : string) (maxKeySize maxValueSize : Z) (w : World)
  : result (gmap Z data.datafile * Z) * World :=
  match internal.GetDatafiles path w with
  | Err e => (Err e, w)
  | Panic => (Panic, w)
  | Ok fns =>
      match internal.ParseIds fns with
      | Err e => (Err e, w)
      | Panic => (Panic, w)
      | Ok ids =>
          match openAll ids maxKeySize maxValueSize ∅ w with
          | (Ok datafiles, w) =>
              let lastID :=
                if 0 <? len ids then List.last ids 0 else 0 in
              (Ok (datafiles, lastID), w)
          | (Err e, w) => (Err e, w)
          | (Panic, w) => (Panic, w)
          end
      end
  end.

(** [getSortedDatafiles]: the data files in ascending id order, each with
    the key under which the map holds it. *)
Definition byFileID (x y : Z * data.datafile) : Prop :=
  data.FileID x.2 <= data.FileID y.2.

#[global] Instance byFileID_dec : RelDecision byFileID.
Proof. intros x y. unfold byFileID. apply _. Defined.

Definition getSortedDatafiles (datafles : gmap Z data.datafile) : list (Z * data.datafile) :=
  merge_sort byFileID (map_to_list datafles).

(** The replay loop of [loadIndex].  [Read] moves the cursor of the data
    file it is called on, which the map shares; [offset] is declared
    outside the loop and runs across the files. *)
Fixpoint replay (fs : list (Z * data.datafile)) (t : Tree) (offset : Z)
    (datafles : gmap Z data.datafile) (w : World)
  : result (Tree * gmap Z data.datafile) * World :=
  match fs with
  | [] => (Ok (t, datafles), w)
  | (k, f) :: fs =>
      let '(res, f', w) := data.Read f w in
      let datafles := <[k := f']> datafles in
      match res with
      | Err err =>
          if bool_decide (err = EOF) then (Ok (t, datafles), w)
          else (Err err, w)
      | Panic => (Panic, w)
      | Ok (e, n) =>
          if len (Value e) =? 0
          then replay fs (delete (Key e) t) (wrap64 (offset + n)) datafles w
          else
            let item := mkItem (data.FileID f) offset n in
            replay fs (<[Key e := item]> t) (wrap64 (offset + n)) datafles w
      end
  end.

Definition loadIndex (path : string) (maxKeySize : Z)
    (datafles : gmap Z data.datafile) (w : World)
  : result (Tree * gmap Z data.datafile) * World :=
  match index.Load "index" maxKeySize w with
  | (Err e, w) => (Err e, w)
  | (Panic, w) => (Panic, w)
  | (Ok (t, found), w) =>
      if negb found
      then replay (getSortedDatafiles datafles) t 0 datafles w
      else (Ok (t, datafles), w)
  end.

Definition reopen (path : string) (cfg : Config) (w : World)
  : result Bitcask * World :=
  match loadDatafiles path (MaxKeySize cfg) (MaxValueSize cfg) w with
  | (Err e, w) => (Err e, w)
  | (Panic, w) => (Panic, w)
  | (Ok (datafiles, lastID), w) =>
      match loadIndex path (MaxKeySize cfg) datafiles w with
      | (Err e, w) => (Err e, w)
      | (Panic, w) => (Panic, w)
      | (Ok (t, datafiles), w) =>
          match data.NewDatafile lastID false (MaxKeySize cfg) (MaxValueSize cfg) w with
          | (Err e, w) => (Err e, w)
          | (Panic, w) => (Panic, w)
          | (Ok curr, w) => (Ok (mkBitcask cfg path curr datafiles t), w)
          end
      end
  end.

(** [Open], from the point where the configuration has been loaded and
    the options applied to it: [cfg] is that configuration (the
    configuration file is an external collaborator and is not in the
    [World]). *)
Definition Open (path : string) (cfg : Config) (w : World)
  : result Bitcask * World :=
  reopen path cfg w.

End bitcask.

(* ===================================================================== *)
(** * Properties *)
(* ===================================================================== *)

Import bitcask.

(** ** Concrete engines used in the examples *)

Module Examples.

Definition cfg : Config := mkConfig 1048576 64 65536 false.

(** An empty database directory on a system without failures. *)
Definition empty : World := mkWorld ∅ [] [].

Definition noFile : data.datafile :=
  data.mkDatafile (mkFile "" 0 true) None None 0 0 0 0.

Definition noEngine : Bitcask := mkBitcask cfg "" noFile ∅ ∅.

(** State and world after a step, whatever its result. *)
Definition opened (r : result Bitcask * World) : Bitcask * World :=
  match r with
  | (Ok b, w) => (b, w)
  | (_, w) => (noEngine, w)
  end.

Definition after {A} (r : result A * Bitcask * World) : Bitcask * World :=
  (r.1.2, r.2).

Definition removeIndex (w : World) : World :=
  set_files (delete "index"%string (files w)) w.

Definition isOk {A} (r : result A) : bool :=
  match r with
  | Ok _ => true
  | _ => false
  end.

End Examples.

(* --------------------------------------------------------------------- *)
(** ** Positioned reads drop the decoding error *)
(* --------------------------------------------------------------------- *)

(** The length prefix of a buffer, as [getKeyValueSizes] reads it. *)
Definition key_len (b : bytes) : Z := BigEndian.Uint32 (take 4 b).
Definition value_len (b : bytes) : Z := BigEndian.Uint64 (drop 4 b).

Lemma getKeyValueSizes_invalid b mk mv :
  codec.keySize + codec.valueSize <= len b →
  key_len b = 0 ∨ key_len b > mk ∨ value_len b > mv →
  codec.getKeyValueSizes b mk mv = Err errInvalidKeyOrValueSize.
Proof.
  intros Hlen Hbad. unfold codec.getKeyValueSizes.
  destruct (Z.ltb_spec (len b) (codec.keySize + codec.valueSize)); [lia|].
  fold (key_len b) (value_len b).
  destruct (Z.gtb_spec (key_len b) mk); [done|].
  destruct (Z.gtb_spec (value_len b) mv); [done|].
  destruct (Z.eqb_spec (key_len b) 0); [done|]. lia.
Qed.

(** C10, as amended.  When [ReadAt] gets exactly [size] bytes, [size] is at
    least the twelve bytes of the length prefix, and the prefix is not
    that of a valid record (zero key length, key length above
    [maxKeySize] or value length above [maxValueSize]), [DecodeEntry]
    reports the invalid sizes, [ReadAt] drops that error and returns the
    zero entry with a nil error. *)
Theorem ReadAt_drops_invalid_record (d : data.datafile) (offset size : Z)
    (w w' : World) (b : bytes) :
  data.readBytes d offset size w = (Ok b, w') →
  len b = size →
  codec.keySize + codec.valueSize <= size →
  key_len b = 0 ∨ key_len b > data.d_maxKeySize d
    ∨ value_len b > data.d_maxValueSize d →
  (codec.DecodeEntry b zeroEntry (data.d_maxKeySize d) (data.d_maxValueSize d)).1
    = Err (Wrapped errInvalidKeyOrValueSize)
  ∧ data.ReadAt d offset size w = (Ok zeroEntry, w').
Proof.
  intros Hread Hlen Hsize Hbad.
  assert (Hsz : codec.getKeyValueSizes b (data.d_maxKeySize d) (data.d_maxValueSize d)
                = Err errInvalidKeyOrValueSize)
    by (apply getKeyValueSizes_invalid; [lia | exact Hbad]).
  split.
  - unfold codec.DecodeEntry. rewrite Hsz. reflexivity.
  - unfold data.ReadAt.
    destruct (Z.ltb_spec size 0); [unfold codec.keySize, codec.valueSize in *; lia|].
    rewrite Hread.
    destruct (Z.eqb_spec (len b) size); [|lia]. simpl.
    unfold codec.DecodeEntry. rewrite Hsz. reflexivity.
Qed.

Module C10_example.

(** Sixteen zero bytes where a record should be: the key length is 0. *)
Definition junk : bytes := replicate 16 Byte.x00.

Definition w : World :=
  mkWorld {[ "000000000.data"%string := junk ]} [] [].

Definition d : data.datafile :=
  data.mkDatafile (mkFile "000000000.data" 0 false) (Some junk)
    (Some (codec.mkEncoder "000000000.data" false None)) 0 16 64 65536.

End C10_example.

Lemma ReadAt_drops_invalid_record_witness :
  (codec.DecodeEntry C10_example.junk zeroEntry 64 65536).1
    = Err (Wrapped errInvalidKeyOrValueSize)
  ∧ data.ReadAt C10_example.d 0 16 C10_example.w = (Ok zeroEntry, C10_example.w).
Proof.
  apply (ReadAt_drops_invalid_record C10_example.d 0 16 C10_example.w
           C10_example.w C10_example.junk).
  - vm_compute. reflexivity.
  - vm_compute. reflexivity.
  - vm_compute. discriminate.
  - left. vm_compute. reflexivity.
Defined.

(** C10 as stated fails below the length of the prefix: four zero bytes
    can be read at offset 0 and carry the key length 0, and [ReadAt] asked
    for these four bytes does not return the zero entry with a nil error;
    it panics, because [getKeyValueSizes] reads eight bytes of [b[4:]]. *)
Lemma ReadAt_invalid_record_below_prefix :
  data.readBytes C10_example.d 0 4 C10_example.w
  = (Ok (take 4 C10_example.junk), C10_example.w)
  ∧ len (take 4 C10_example.junk) = 4
  ∧ key_len (take 4 C10_example.junk) = 0
  ∧ data.ReadAt C10_example.d 0 4 C10_example.w = (Panic, C10_example.w)
  ∧ ¬ (∀ (d : data.datafile) (offset size : Z) (w w' : World) (b : bytes),
         data.readBytes d offset size w = (Ok b, w') →
         len b = size →
         key_len b = 0 ∨ key_len b > data.d_maxKeySize d
           ∨ value_len b > data.d_maxValueSize d →
         data.ReadAt d offset size w = (Ok zeroEntry, w')).
Proof.
  assert (Hread : data.readBytes C10_example.d 0 4 C10_example.w
                  = (Ok (take 4 C10_example.junk), C10_example.w))
    by (vm_compute; reflexivity).
  assert (Hlen : len (take 4 C10_example.junk) = 4) by (vm_compute; reflexivity).
  assert (Hkey : key_len (take 4 C10_example.junk) = 0) by (vm_compute; reflexivity).
  assert (Hpanic : data.ReadAt C10_example.d 0 4 C10_example.w
                   = (Panic, C10_example.w)) by (vm_compute; reflexivity).
  split_and!; [exact Hread|exact Hlen|exact Hkey|exact Hpanic|].
  intros Hclaim.
  specialize (Hclaim _ _ _ _ _ _ Hread Hlen (or_introl Hkey)).
  rewrite Hpanic in Hclaim. discriminate Hclaim.
Qed.

(* --------------------------------------------------------------------- *)
(** ** What the system calls do to the world *)
(* --------------------------------------------------------------------- *)

(** The trace only grows. *)
Definition extends (w w' : World) : Prop := ∃ evs, trace w' = evs ++ trace w.

#[global] Instance extends_refl : Reflexive extends.
Proof. intros w. by exists []. Qed.

#[global] Instance extends_trans : Transitive extends.
Proof.
  intros w1 w2 w3 [e1 H1] [e2 H2]. exists (e2 ++ e1).
  by rewrite H2, H1, app_assoc.
Qed.

Lemma extends_cons e w w' : trace w' = e :: trace w → extends w w'.
Proof. intros H. by exists [e]. Qed.

Lemma extends_same w w' : trace w' = trace w → extends w w'.
Proof. intros H. by exists []. Qed.

Lemma os_fault_inv w f w' :
  os.fault w = (f, w') → files w' = files w ∧ trace w' = trace w.
Proof.
  unfold os.fault. destruct (faults w); intros [= <- <-]; done.
Qed.

Lemma os_Exists_inv name w r w' :
  os.Exists name w = (r, w') → files w' = files w ∧ trace w' = trace w.
Proof.
  unfold os.Exists. destruct (os.fault w) as [f w1] eqn:E.
  apply os_fault_inv in E as [? ?].
  destruct f; intros [= <- <-]; done.
Qed.

Lemma os_OpenFile_append_inv name w r w' :
  os.OpenFile_append name w = (r, w') →
  trace w' = EvOpenW name :: trace w
  ∧ (files w' = files w
     ∨ (files w !! name = None ∧ files w' = <[name := []]> (files w)))
  ∧ (r = Ok () → is_Some (files w' !! name))
  ∧ r ≠ Panic.
Proof.
  unfold os.OpenFile_append.
  destruct (os.fault (log (EvOpenW name) w)) as [f w1] eqn:E.
  apply os_fault_inv in E as [Hf Ht]. simpl in Hf, Ht.
  destruct f.
  - intros [= <- <-]. split_and!; [done|by left|done|done].
  - destruct (files w1 !! name) eqn:Hn; intros [= <- <-].
    + split_and!; [done|by left| |done].
      intros _. rewrite Hn. by eexists.
    + rewrite Hf in Hn. simpl. rewrite Hf, Ht.
      split_and!; [done|by right| |done].
      intros _. rewrite lookup_insert_eq. by eexists.
Qed.

Lemma os_OpenFile_trunc_inv name w r w' :
  os.OpenFile_trunc name w = (r, w') →
  trace w' = EvOpenW name :: trace w
  ∧ (files w' = files w ∨ files w' = <[name := []]> (files w)).
Proof.
  unfold os.OpenFile_trunc.
  destruct (os.fault (log (EvOpenW name) w)) as [f w1] eqn:E.
  apply os_fault_inv in E as [Hf Ht]. simpl in Hf, Ht.
  destruct f; intros [= <- <-]; simpl; rewrite ?Hf, ?Ht; auto.
Qed.

Lemma os_Open_inv name w r w' :
  os.Open name w = (r, w') →
  trace w' = EvOpenR name :: trace w
  ∧ files w' = files w
  ∧ (r = Ok () → is_Some (files w !! name))
  ∧ r ≠ Panic.
Proof.
  unfold os.Open.
  destruct (os.fault (log (EvOpenR name) w)) as [f w1] eqn:E.
  apply os_fault_inv in E as [Hf Ht]. simpl in Hf, Ht.
  destruct f; [|destruct (files w1 !! name) eqn:Hn];
    intros [= <- <-]; rewrite ?Hf, ?Ht; split_and!; try done.
  intros _. rewrite <- Hf, Hn. by eexists.
Qed.

Lemma os_mmap_Open_inv name w r w' :
  os.mmap_Open name w = (r, w') →
  trace w' = trace w ∧ files w' = files w
  ∧ (∀ v, r = Ok v → files w !! name = Some v)
  ∧ r ≠ Panic.
Proof.
  unfold os.mmap_Open. destruct (os.fault w) as [f w1] eqn:E.
  apply os_fault_inv in E as [Hf Ht].
  destruct f; [|destruct (files w1 !! name) eqn:Hn];
    intros [= <- <-]; rewrite ?Hf, ?Ht; split_and!; try done.
  intros v [= <-]. by rewrite <- Hf.
Qed.

Lemma os_Stat_Size_inv name w r w' :
  os.Stat_Size name w = (r, w') →
  trace w' = trace w ∧ files w' = files w
  ∧ (∀ z, r = Ok z → ∃ c, files w !! name = Some c ∧ z = wrap64 (len c))
  ∧ r ≠ Panic.
Proof.
  unfold os.Stat_Size. destruct (os.fault w) as [f w1] eqn:E.
  apply os_fault_inv in E as [Hf Ht].
  destruct f; [|destruct (files w1 !! name) eqn:Hn];
    intros [= <- <-]; rewrite ?Hf, ?Ht; split_and!; try done.
  intros z [= <-]. rewrite <- Hf. by eexists.
Qed.

Lemma os_Write_inv name data w r w' :
  os.Write name data w = (r, w') →
  ∃ written,
    trace w' = EvWrite name written :: trace w
    ∧ files w' = <[name := default [] (files w !! name) ++ written]> (files w)
    ∧ (r = Ok () → written = data)
    ∧ r ≠ Panic.
Proof.
  unfold os.Write. destruct (os.fault w) as [f w1] eqn:E.
  apply os_fault_inv in E as [Hf Ht].
  destruct f as [k|]; intros [= <- <-]; simpl; rewrite ?Hf, ?Ht.
  - exists (take k data). done.
  - exists data. done.
Qed.

Lemma os_Sync_inv name w r w' :
  os.Sync name w = (r, w') →
  trace w' = EvSync name :: trace w ∧ files w' = files w ∧ r ≠ Panic.
Proof.
  unfold os.Sync. destruct (os.fault (log (EvSync name) w)) as [f w1] eqn:E.
  apply os_fault_inv in E as [Hf Ht]. simpl in Hf, Ht.
  destruct f; intros [= <- <-]; rewrite ?Hf, ?Ht; done.
Qed.

Lemma os_Close_inv name w r w' :
  os.Close name w = (r, w') →
  trace w' = EvClose name :: trace w ∧ files w' = files w ∧ r ≠ Panic.
Proof.
  unfold os.Close. destruct (os.fault (log (EvClose name) w)) as [f w1] eqn:E.
  apply os_fault_inv in E as [Hf Ht]. simpl in Hf, Ht.
  destruct f; intros [= <- <-]; rewrite ?Hf, ?Ht; done.
Qed.

Lemma os_ReadAt_inv f n off w r w' :
  os.ReadAt f n off w = (r, w') →
  trace w' = trace w ∧ files w' = files w ∧ r ≠ Panic.
Proof.
  unfold os.ReadAt.
  destruct (off <? 0); [by intros [= <- <-]|].
  destruct (n =? 0); [by intros [= <- <-]|].
  destruct (f_closed f); [by intros [= <- <-]|].
  destruct (os.fault w) as [ft w1] eqn:E.
  apply os_fault_inv in E as [Hf Ht].
  destruct ft; [by intros [= <- <-]|].
  destruct (len _ <? n); by intros [= <- <-].
Qed.

(** [NewDatafile]: the data file it returns and what it leaves behind. *)
Lemma NewDatafile_inv id ro mk mv w r w' :
  data.NewDatafile id ro mk mv w = (r, w') →
  let fn := data.defaultDatafileFilename id in
  (files w' = files w
   ∨ (ro = false ∧ files w !! fn = None ∧ files w' = <[fn := []]> (files w)))
  ∧ extends w w'
  ∧ (ro = true → trace w' = EvOpenR fn :: trace w)
  ∧ r ≠ Panic
  ∧ (∀ d, r = Ok d →
       ∃ c, files w' !! fn = Some c
            ∧ trace w' = (EvOpenR fn :: if ro then [] else [EvOpenW fn]) ++ trace w
            ∧ d = data.mkDatafile (mkFile fn 0 false) (Some c)
                    (if ro then None else Some (codec.mkEncoder fn false None))
                    id (wrap64 (len c)) mk mv).
Proof.
  intros H fn. unfold data.NewDatafile in H. fold fn in H.
  set (first := if ro then (Ok (), w) else os.OpenFile_append fn w) in H.
  assert (Hfirst : ∃ r1 w1, first = (r1, w1)
            ∧ trace w1 = (if ro then [] else [EvOpenW fn]) ++ trace w
            ∧ (files w1 = files w
               ∨ (ro = false ∧ files w !! fn = None
                  ∧ files w1 = <[fn := []]> (files w)))
            ∧ (ro = true → r1 = Ok ())
            ∧ r1 ≠ Panic).
  { subst first. destruct ro.
    - exists (Ok ()), w. split_and!; auto.
    - destruct (os.OpenFile_append fn w) as [r1 w1] eqn:E. exists r1, w1.
      apply os_OpenFile_append_inv in E as (Ht & Hf & _ & Hp).
      split_and!; [done|done| |done|done]. destruct Hf as [?|[? ?]]; auto. }
  destruct Hfirst as (r1 & w1 & -> & Ht1 & Hf1 & Hro1 & Hp1).
  assert (Hext1 : extends w w1) by (eexists; exact Ht1).
  destruct r1 as [[]|e1|]; [| |done].
  - destruct (os.Open fn w1) as [r2 w2] eqn:E2.
    apply os_Open_inv in E2 as (Ht2 & Hf2 & Hok2 & Hp2).
    assert (Hro : ro = true → trace w2 = EvOpenR fn :: trace w)
      by (intros ->; by rewrite Ht2, Ht1).
    assert (Hext2 : extends w w2)
      by (etrans; [exact Hext1|by eapply extends_cons]).
    rewrite <- Hf2 in Hf1.
    destruct r2 as [[]|e2|]; [|by simplify_eq|done].
    destruct (os.mmap_Open fn w2) as [r3 w3] eqn:E3.
    apply os_mmap_Open_inv in E3 as (Ht3 & Hf3 & Hok3 & Hp3).
    rewrite <- Ht3 in Hro. rewrite <- Hf3 in Hf1.
    assert (Hext3 : extends w w3)
      by (etrans; [exact Hext2|by apply extends_same]).
    destruct r3 as [view|e3|]; [|by simplify_eq|done].
    destruct (os.Stat_Size fn w3) as [r4 w4] eqn:E4.
    apply os_Stat_Size_inv in E4 as (Ht4 & Hf4 & Hok4 & Hp4).
    rewrite <- Ht4 in Hro. rewrite <- Hf4 in Hf1.
    assert (Hext4 : extends w w4)
      by (etrans; [exact Hext3|by apply extends_same]).
    destruct r4 as [offset|e4|]; [|by simplify_eq|done].
    simplify_eq. split_and!; try done.
    intros d [= <-].
    destruct (Hok4 offset eq_refl) as (c & Hc & ->).
    specialize (Hok3 view eq_refl). rewrite Hf3, Hok3 in Hc.
    injection Hc as <-.
    exists view. split_and!.
    + by rewrite Hf4, Hf3.
    + rewrite Ht4, Ht3, Ht2, Ht1. reflexivity.
    + reflexivity.
  - simplify_eq. split_and!; try done.
    intros Hr. by specialize (Hro1 Hr).
Qed.

(* --------------------------------------------------------------------- *)
(** ** [ParseIds] and the ids recovery opens *)
(* --------------------------------------------------------------------- *)

(** The id [ParseIds] reads off a file name. *)
Definition parseId (fn : string) : result Z :=
  strconv.ParseInt (strings.TrimSuffix (filepath.Base fn) (filepath.Ext fn)).

(** A segment file name: one that carries the id of a segment, a
    non-negative decimal integer (nine digits, zero-padded, when the engine
    itself made the file). *)
Definition segmentFileName (fn : string) : Prop :=
  ∃ id, 0 <= id ∧ parseId fn = Ok id.

Lemma parseLoop_segments fns acc :
  Forall segmentFileName fns →
  ∃ ids, internal.parseLoop fns acc = Ok (acc ++ ids)
         ∧ length ids = length fns ∧ Forall (λ id, 0 <= id) ids.
Proof.
  intros H. revert acc. induction H as [|fn fns (id & Hid & Hp) _ IH]; intros acc.
  - exists []. simpl. by rewrite app_nil_r.
  - simpl. unfold parseId in Hp. rewrite Hp.
    destruct (IH (acc ++ [id])) as (ids & -> & Hl & Hall).
    exists (id :: ids). rewrite <- app_assoc. simpl.
    split_and!; [done|by rewrite Hl|by constructor].
Qed.

Lemma sorted_zero_prefix (l rest : list Z) (n : nat) :
  StronglySorted Z.le l →
  Forall (λ x, 0 <= x) l →
  l ≡ₚ replicate n 0 ++ rest →
  take n l = replicate n 0.
Proof.
  revert l. induction n as [|n IH]; intros l Hs Hpos Hperm; [done|].
  destruct l as [|x l].
  { apply Permutation_nil_l in Hperm. discriminate. }
  apply StronglySorted_inv in Hs as [Hs Hx].
  apply Forall_cons in Hpos as [Hx0 Hpos].
  assert (x = 0) as ->.
  { assert (0 ∈ x :: l) as Hin by (rewrite Hperm; simpl; left).
    apply elem_of_cons in Hin as [->|Hin]; [done|].
    rewrite Forall_forall in Hx. specialize (Hx 0 Hin). lia. }
  simpl. f_equal. apply IH; [done|done|].
  simpl in Hperm. by apply Permutation_cons_inv in Hperm.
Qed.

Lemma ParseIds_segments fns :
  Forall segmentFileName fns →
  ∃ ids, internal.ParseIds fns = Ok ids
         ∧ length ids = (2 * length fns)%nat
         ∧ StronglySorted Z.le ids
         ∧ take (length fns) ids = replicate (length fns) 0.
Proof.
  intros H. unfold internal.ParseIds.
  destruct (parseLoop_segments fns (replicate (length fns) 0) H)
    as (ids & -> & Hl & Hpos).
  eexists. split; [reflexivity|].
  assert (Hperm : sort.Ints (replicate (length fns) 0 ++ ids)
                  ≡ₚ replicate (length fns) 0 ++ ids)
    by apply merge_sort_Permutation.
  assert (Hs : StronglySorted Z.le (sort.Ints (replicate (length fns) 0 ++ ids)))
    by (apply StronglySorted_merge_sort; apply _).
  split_and!.
  - rewrite Hperm, length_app, length_replicate. lia.
  - exact Hs.
  - eapply sorted_zero_prefix; [exact Hs| |exact Hperm].
    rewrite Hperm. apply Forall_app. split; [|done].
    apply Forall_replicate. lia.
Qed.

Lemma openAll_extends ids mk mv m w :
  extends w (openAll ids mk mv m w).2.
Proof.
  revert m w. induction ids as [|id ids IH]; intros m w; simpl; [done|].
  destruct (data.NewDatafile id true mk mv w) as [r w1] eqn:E.
  apply NewDatafile_inv in E as (_ & Hext & _).
  destruct r; simpl; [|done|done].
  etrans; [exact Hext|apply IH].
Qed.

(** C8. For [n] segment file names [ParseIds] returns a sorted slice of
    length [2n] that starts with [n] zeros; so, as soon as the directory
    holds one segment file, the first system call of [loadDatafiles] is
    the read-only open of the data file of segment 0. *)
Theorem ParseIds_zero_padded (fns : list string) :
  Forall segmentFileName fns →
  (∃ ids, internal.ParseIds fns = Ok ids
          ∧ length ids = (2 * length fns)%nat
          ∧ Sorted Z.le ids
          ∧ take (length fns) ids = replicate (length fns) 0)
  ∧ (∀ path mk mv w,
       internal.GetDatafiles path w = Ok fns → fns ≠ [] →
       ∃ evs, trace (loadDatafiles path mk mv w).2
              = evs ++ EvOpenR (data.defaultDatafileFilename 0) :: trace w).
Proof.
  intros H. destruct (ParseIds_segments fns H) as (ids & Hids & Hl & Hs & Hz).
  split.
  - exists ids. split_and!; [done|done|by apply StronglySorted_Sorted|done].
  - intros path mk mv w Hfns Hne. unfold loadDatafiles. rewrite Hfns, Hids.
    destruct fns as [|fn fns]; [done|]. simpl in Hz.
    destruct ids as [|id ids]; [done|]. injection Hz as -> _.
    simpl openAll.
    destruct (data.NewDatafile 0 true mk mv w) as [r w1] eqn:E.
    apply NewDatafile_inv in E as (_ & _ & Ht & _). specialize (Ht eq_refl).
    destruct r as [file|e|]; [|exists []; by rewrite <- Ht|exists []; by rewrite <- Ht].
    pose proof (openAll_extends ids mk mv (<[0 := file]> ∅) w1) as [evs Hevs].
    exists evs.
    destruct (openAll ids mk mv (<[0 := file]> ∅) w1) as [[m|e|] w2];
      simpl in *; by rewrite Hevs, Ht.
Qed.

Module C8_example.

Definition fns : list string := ["/tmp/db/000000003.data"%string].

(** A directory that holds segment 3 and no segment 0. *)
Definition w : World :=
  mkWorld {[ "000000003.data"%string := [] ]} [] [].

End C8_example.

Lemma ParseIds_zero_padded_witness :
  (∃ ids, internal.ParseIds C8_example.fns = Ok ids
          ∧ length ids = 2%nat
          ∧ Sorted Z.le ids
          ∧ take 1 ids = [0])
  ∧ ∃ evs, trace (loadDatafiles "/tmp/db" 64 65536 C8_example.w).2
           = evs ++ [EvOpenR "000000000.data"].
Proof.
  assert (Hseg : Forall segmentFileName C8_example.fns).
  { repeat constructor. exists 3. split; [lia|vm_compute; reflexivity]. }
  destruct (ParseIds_zero_padded C8_example.fns Hseg) as [H1 H2].
  split; [exact H1|].
  apply (H2 "/tmp/db"%string 64 65536 C8_example.w).
  - vm_compute. reflexivity.
  - discriminate.
Defined.

(** With segment 3 alone in the directory, [Open] fails on the missing
    file of segment 0. *)
Example Open_needs_segment_0 :
  (Open "/tmp/db" Examples.cfg C8_example.w).1 = Err ErrNotExist.
Proof. vm_compute. reflexivity. Qed.

(* --------------------------------------------------------------------- *)
(** ** Appending to a data file *)
(* --------------------------------------------------------------------- *)

(** The encoded length of a record. *)
Definition recordLen (key value : bytes) : Z :=
  codec.keySize + codec.valueSize + len key + len value + codec.checksumSize.

Lemma length_encoded e :
  len (codec.encoded e) = recordLen (Key e) (Value e).
Proof.
  unfold codec.encoded, recordLen, len,
    codec.keySize, codec.valueSize, codec.checksumSize.
  rewrite !length_app, !length_PutUint32, length_PutUint64. lia.
Qed.

Lemma Encode_inv enc entry w r enc' w' :
  codec.Encode enc entry w = (r, enc', w') →
  codec.wr_name enc' = codec.wr_name enc
  ∧ codec.wr_closed enc' = codec.wr_closed enc
  ∧ r ≠ Panic
  ∧ (∀ n, r = Ok n →
       enc' = enc ∧ codec.wr_err enc = None ∧ codec.wr_closed enc = false
       ∧ n = wrap64 (recordLen (Key entry) (Value entry))
       ∧ files w' = <[codec.wr_name enc :=
                        default [] (files w !! codec.wr_name enc)
                        ++ codec.encoded entry]> (files w)
       ∧ trace w' = EvWrite (codec.wr_name enc) (codec.encoded entry) :: trace w)
  ∧ (∀ e, r = Err e → is_Some (codec.wr_err enc'))
  ∧ extends w w'.
Proof.
  unfold codec.Encode. destruct (codec.wr_err enc) as [err|] eqn:Herr.
  { intros [= <- <- <-]. rewrite Herr. split_and!; first [done|by eexists]. }
  destruct (codec.wr_closed enc) eqn:Hcl.
  { intros [= <- <- <-]. simpl. split_and!; first [done|by eexists]. }
  destruct (os.Write _ _ w) as [r1 w1] eqn:E.
  apply os_Write_inv in E as (written & Ht & Hf & Hok & Hp).
  destruct r1 as [[]|e1|]; [| |done]; intros [= <- <- <-].
  - rewrite (Hok eq_refl) in *. split_and!; try done.
    + intros n Hn. injection Hn as Hn. rewrite <- Hn. done.
    + by eapply extends_cons.
  - simpl. split_and!; try done. by eapply extends_cons.
Qed.

Lemma Write_inv d e w r d' w' :
  data.Write d e w = (r, d', w') →
  data.d_id d' = data.d_id d ∧ data.d_r d' = data.d_r d
  ∧ data.d_ra d' = data.d_ra d
  ∧ data.d_maxKeySize d' = data.d_maxKeySize d
  ∧ data.d_maxValueSize d' = data.d_maxValueSize d
  ∧ r ≠ Panic
  ∧ extends w w'
  ∧ (∀ off n, r = Ok (off, n) →
       ∃ enc, data.d_w d = Some enc ∧ data.d_w d' = Some enc
         ∧ codec.wr_err enc = None ∧ codec.wr_closed enc = false
         ∧ off = data.d_offset d
         ∧ n = wrap64 (recordLen (Key e) (Value e))
         ∧ data.d_offset d' = wrap64 (data.d_offset d + n)
         ∧ files w' = <[codec.wr_name enc :=
                          default [] (files w !! codec.wr_name enc)
                          ++ codec.encoded e]> (files w)
         ∧ trace w' = EvWrite (codec.wr_name enc) (codec.encoded e) :: trace w)
  ∧ (∀ err, r = Err err →
       data.d_offset d' = data.d_offset d
       ∧ (data.d_w d = None ∧ data.d_w d' = None
          ∨ ∃ enc enc', data.d_w d = Some enc ∧ data.d_w d' = Some enc'
              ∧ codec.wr_name enc' = codec.wr_name enc
              ∧ codec.wr_closed enc' = codec.wr_closed enc
              ∧ is_Some (codec.wr_err enc'))).
Proof.
  unfold data.Write. destruct (data.d_w d) as [enc|] eqn:Hw.
  2:{ intros [= <- <- <-]. rewrite Hw. split_and!; try done.
      intros err _. split; [done|]. by left. }
  destruct (codec.Encode enc _ w) as [[r1 enc1] w1] eqn:E.
  apply Encode_inv in E as (Hn & Hc & Hp & Hok & Herr & Hext). simpl in *.
  destruct r1 as [n|err|]; [| |done]; intros [= <- <- <-]; simpl.
  - destruct (Hok n eq_refl) as (-> & He & Hcl & -> & Hf & Ht).
    split_and!; try done.
    intros off n [= <- <-]. exists enc. done.
  - split_and!; try done.
    intros ? [= <-]. split; [done|]. right. exists enc, enc1.
    specialize (Herr err eq_refl). done.
Qed.

Lemma data_Sync_inv d w r w' :
  data.Sync d w = (r, w') →
  files w' = files w ∧ extends w w' ∧ r ≠ Panic
  ∧ (r = Ok () →
       ∃ enc, data.d_w d = Some enc ∧ codec.wr_closed enc = false
              ∧ trace w' = EvSync (codec.wr_name enc) :: trace w).
Proof.
  unfold data.Sync. destruct (data.d_w d) as [enc|]; [|by intros [= <- <-]].
  destruct (codec.wr_closed enc) eqn:Hcl; [by intros [= <- <-]|].
  intros E. apply os_Sync_inv in E as (Ht & Hf & Hp).
  split_and!; [done|by eapply extends_cons|done|].
  intros _. by exists enc.
Qed.

Lemma data_Close_inv d w r d' w' :
  data.Close d w = (r, d', w') →
  data.d_id d' = data.d_id d ∧ data.d_offset d' = data.d_offset d
  ∧ f_name (data.d_r d') = f_name (data.d_r d)
  ∧ f_closed (data.d_r d') = true
  ∧ data.d_maxKeySize d' = data.d_maxKeySize d
  ∧ data.d_maxValueSize d' = data.d_maxValueSize d
  ∧ files w' = files w ∧ extends w w' ∧ r ≠ Panic
  ∧ (data.d_w d = None → data.d_w d' = None)
  ∧ (∀ enc, data.d_w d = Some enc →
       ∃ enc', data.d_w d' = Some enc'
         ∧ codec.wr_name enc' = codec.wr_name enc
         ∧ codec.wr_err enc' = codec.wr_err enc
         ∧ (codec.wr_closed enc = true → codec.wr_closed enc' = true))
  ∧ (∀ w1, data.Sync d w = (Ok (), w1) →
       ∃ enc, data.d_w d = Some enc
              ∧ trace w' = EvClose (codec.wr_name enc) :: trace w1).
Proof.
  unfold data.Close. destruct (data.d_w d) as [enc|] eqn:Hw.
  2:{ intros [= <- <- <-]. simpl. rewrite ?Hw. split_and!; try done.
      intros w1 Hs. unfold data.Sync in Hs. by rewrite Hw in Hs. }
  destruct (data.Sync d w) as [rs ws] eqn:Es.
  pose proof Es as Es'.
  apply data_Sync_inv in Es' as (Hfs & Hexts & Hps & Hoks).
  destruct rs as [[]|e|]; [| |done].
  - destruct (os.Close (codec.wr_name enc) ws) as [rc wc] eqn:Ec.
    apply os_Close_inv in Ec as (Htc & Hfc & Hpc).
    intros [= <- <- <-]. simpl. split_and!; try done.
    + by rewrite Hfc.
    + etrans; [exact Hexts|by eapply extends_cons].
    + intros enc0 [= <-]. eexists. split; [reflexivity|]. done.
    + intros w1 [= <-]. exists enc. done.
  - intros [= <- <- <-]. simpl. rewrite ?Hw. split_and!; try done.
    intros enc0 [= <-]. exists enc. done.
Qed.

(* --------------------------------------------------------------------- *)
(** ** Rollover and [put] *)
(* --------------------------------------------------------------------- *)

(** The data file [NewDatafile] returns for the file of segment [id] whose
    contents are [c]. *)
Definition freshDatafile (readonly : bool) (id : Z) (c : bytes) (mk mv : Z)
  : data.datafile :=
  let fn := data.defaultDatafileFilename id in
  data.mkDatafile (mkFile fn 0 false) (Some c)
    (if readonly then None else Some (codec.mkEncoder fn false None))
    id (wrap64 (len c)) mk mv.

(** No file that exists is changed (files may appear). *)
Definition preserves (w w' : World) : Prop :=
  ∀ n c, files w !! n = Some c → files w' !! n = Some c.

#[global] Instance preserves_refl : Reflexive preserves.
Proof. by intros w n c. Qed.

#[global] Instance preserves_trans : Transitive preserves.
Proof. intros w1 w2 w3 H1 H2 n c H. by apply H2, H1. Qed.

Lemma preserves_same w w' : files w' = files w → preserves w w'.
Proof. intros H n c. by rewrite H. Qed.

Lemma NewDatafile_preserves id ro mk mv w r w' :
  data.NewDatafile id ro mk mv w = (r, w') → preserves w w'.
Proof.
  intros H. apply NewDatafile_inv in H as (Hf & _).
  destruct Hf as [Hf|(_ & Hn & Hf)]; [by apply preserves_same|].
  intros n c Hc. rewrite Hf.
  destruct (decide (n = data.defaultDatafileFilename id)) as [->|Hne].
  - congruence.
  - by rewrite lookup_insert_ne.
Qed.

Lemma NewDatafile_ok id ro mk mv w d w' :
  data.NewDatafile id ro mk mv w = (Ok d, w') →
  ∃ c, d = freshDatafile ro id c mk mv
       ∧ files w' !! data.defaultDatafileFilename id = Some c
       ∧ trace w' = (EvOpenR (data.defaultDatafileFilename id)
                     :: if ro then []
                        else [EvOpenW (data.defaultDatafileFilename id)])
                    ++ trace w.
Proof.
  intros H. apply NewDatafile_inv in H as (_ & _ & _ & _ & Hok).
  destruct (Hok d eq_refl) as (c & Hc & Ht & ->). by exists c.
Qed.

Lemma rollover_inv b w r b' w' :
  rollover b w = (r, b', w') →
  let id := data.d_id (b_curr b) in
  let mk := MaxKeySize (b_cfg b) in
  let mv := MaxValueSize (b_cfg b) in
  b_cfg b' = b_cfg b ∧ b_t b' = b_t b ∧ b_path b' = b_path b
  ∧ r ≠ Panic ∧ extends w w' ∧ preserves w w'
  ∧ (∀ u, r = Ok u →
       ∃ c0 c1,
         b_datafiles b' = <[id := freshDatafile true id c0 mk mv]> (b_datafiles b)
         ∧ b_curr b' = freshDatafile false (wrap64 (id + 1)) c1 mk mv
         ∧ files w' !! data.defaultDatafileFilename (wrap64 (id + 1)) = Some c1)
  ∧ (∀ e, r = Err e →
       b_curr b' = (data.Close (b_curr b) w).1.2
       ∧ (b_datafiles b' = b_datafiles b
          ∨ ∃ c0, b_datafiles b'
                  = <[id := freshDatafile true id c0 mk mv]> (b_datafiles b)))
  ∧ (∀ w1, data.Sync (b_curr b) w = (Ok (), w1) →
       ∃ enc evs, data.d_w (b_curr b) = Some enc
                  ∧ trace w' = evs ++ EvClose (codec.wr_name enc) :: trace w1).
Proof.
  intros H id mk mv. unfold rollover in H.
  destruct (data.Close (b_curr b) w) as [[rc c] wc] eqn:Ec.
  pose proof Ec as Ec'.
  apply data_Close_inv in Ec' as
    (Hid & _ & _ & _ & _ & _ & Hfc & Hextc & _ & _ & _ & Hsync).
  simpl in H. unfold data.FileID in H. rewrite Hid in H. fold id mk mv in H.
  assert (Hclose : ∀ w2, extends wc w2 →
            ∀ w1, data.Sync (b_curr b) w = (Ok (), w1) →
            ∃ enc evs, data.d_w (b_curr b) = Some enc
                       ∧ trace w2 = evs ++ EvClose (codec.wr_name enc) :: trace w1).
  { intros w2 [evs Hevs] w1 Hs. destruct (Hsync w1 Hs) as (enc & Hw & Ht).
    exists enc, evs. by rewrite Hevs, Ht. }
  destruct (data.NewDatafile id true mk mv wc) as [r0 w0] eqn:E0.
  pose proof (NewDatafile_preserves _ _ _ _ _ _ _ E0) as Hpres0.
  pose proof E0 as E0'. apply NewDatafile_inv in E0' as (_ & Hext0 & _ & Hp0 & _).
  assert (Hpc : preserves w wc) by by apply preserves_same.
  destruct r0 as [d0|e0|]; [| |done].
  2:{ injection H as <- <- <-. simpl. split_and!; try done.
      - by etrans.
      - by etrans.
      - intros e _. split; [done|by left].
      - apply Hclose. done. }
  apply NewDatafile_ok in E0 as (c0 & -> & _ & _).
  destruct (data.NewDatafile (wrap64 (id + 1)) false mk mv w0) as [r1 w1] eqn:E1.
  pose proof (NewDatafile_preserves _ _ _ _ _ _ _ E1) as Hpres1.
  pose proof E1 as E1'. apply NewDatafile_inv in E1' as (_ & Hext1 & _ & Hp1 & _).
  destruct r1 as [d1|e1|]; [| |done]; injection H as <- <- <-; simpl.
  - apply NewDatafile_ok in E1 as (c1 & -> & Hc1 & _).
    split_and!; try done.
    + etrans; [exact Hextc|]. by etrans.
    + etrans; [exact Hpc|]. by etrans.
    + intros _ _. by exists c0, c1.
    + apply Hclose. by etrans.
  - split_and!; try done.
    + etrans; [exact Hextc|]. by etrans.
    + etrans; [exact Hpc|]. by etrans.
    + intros e _. split; [done|]. right. by exists c0.
    + apply Hclose. by etrans.
Qed.

(** The state in which [put] reaches [b.curr.Write]: after the rollover
    when the active data file is over the threshold. *)
Definition beforeWrite (b : Bitcask) (w : World) : result unit * Bitcask * World :=
  if data.Size (b_curr b) >? MaxDatafileSize (b_cfg b)
  then rollover b w else (Ok (), b, w).

Lemma put_eq b key value w :
  put b key value w =
  match beforeWrite b w with
  | (Ok _, b1, w1) =>
      let '(res, c, w2) := data.Write (b_curr b1) (NewEntry key value) w1 in
      (res, set_curr c b1, w2)
  | (Err e, b1, w1) => (Err e, b1, w1)
  | (Panic, b1, w1) => (Panic, b1, w1)
  end.
Proof.
  unfold put, beforeWrite.
  destruct (data.Size (b_curr b) >? MaxDatafileSize (b_cfg b)); [|done].
  by destruct (rollover b w) as [[[]] ?].
Qed.

Lemma encoded_Offset e o :
  codec.encoded (mkEntry (Checksum e) (Key e) o (Value e)) = codec.encoded e.
Proof. reflexivity. Qed.

Lemma Write_ok d e w off n d' w' :
  data.Write d e w = (Ok (off, n), d', w') →
  ∃ enc, data.d_w d = Some enc
    ∧ codec.wr_err enc = None ∧ codec.wr_closed enc = false
    ∧ off = data.d_offset d
    ∧ n = wrap64 (recordLen (Key e) (Value e))
    ∧ d' = data.set_offset (wrap64 (data.d_offset d + n)) d
    ∧ files w' = <[codec.wr_name enc :=
                     default [] (files w !! codec.wr_name enc)
                     ++ codec.encoded e]> (files w)
    ∧ trace w' = EvWrite (codec.wr_name enc) (codec.encoded e) :: trace w.
Proof.
  unfold data.Write. destruct (data.d_w d) as [enc|] eqn:Hw; [|done].
  destruct (codec.Encode enc _ w) as [[r1 enc1] w1] eqn:E.
  apply Encode_inv in E as (_ & _ & _ & HokE & _).
  destruct r1 as [n1|?|]; [|done|done].
  destruct (HokE n1 eq_refl) as (-> & He & Hc & Hn & Hf & Ht). simpl in *.
  rewrite encoded_Offset in Hf, Ht.
  intros H. injection H as <- <- <- <-.
  exists enc. split_and!; try done.
  destruct d; simpl in *. by rewrite Hw.
Qed.

(* --------------------------------------------------------------------- *)
(** ** Delete *)
(* --------------------------------------------------------------------- *)

(** The tombstone of a key: a record with an empty value. *)
Definition tombstone (key : bytes) : bytes :=
  BigEndian.PutUint32 (u32 (len key)) ++ BigEndian.PutUint64 0
  ++ key ++ BigEndian.PutUint32 0.

Lemma encoded_tombstone key o :
  codec.encoded (mkEntry (crc32.ChecksumIEEE []) key o []) = tombstone key.
Proof. reflexivity. Qed.

(** C9. [Delete] checks nothing about its key: for every key, whatever its
    length, once [put] has reached the append and the append
    succeeds, the tombstone of that key is at the end of the active data
    file, the key is out of the directory and [Delete] returns nil. *)
Theorem Delete_no_admission (b : Bitcask) (key : bytes) (w : World)
    (b1 : Bitcask) (w1 : World) (off n : Z) (c : data.datafile) (w2 : World) :
  beforeWrite b w = (Ok (), b1, w1) →
  data.Write (b_curr b1) (NewEntry key []) w1 = (Ok (off, n), c, w2) →
  Delete b key w = (Ok (), set_t (delete key (b_t b1)) (set_curr c b1), w2)
  ∧ ∃ enc, data.d_w (b_curr b1) = Some enc
      ∧ files w2 !! codec.wr_name enc
        = Some (default [] (files w1 !! codec.wr_name enc) ++ tombstone key).
Proof.
  intros Hb Hw. split.
  - unfold Delete. rewrite put_eq, Hb, Hw. reflexivity.
  - apply Write_ok in Hw as (enc & Hw & _ & _ & _ & _ & _ & Hf & _).
    exists enc. split; [done|]. rewrite Hf, lookup_insert_eq. reflexivity.
Qed.

Module C9_example.

Definition b : Bitcask := (Examples.opened (Open "/tmp/db" Examples.cfg Examples.empty)).1.
Definition w : World := (Examples.opened (Open "/tmp/db" Examples.cfg Examples.empty)).2.

(** A key above [MaxKeySize = 64]. *)
Definition longKey : bytes := replicate 100 Byte.x41.

End C9_example.

Lemma Delete_no_admission_witness :
  (Delete C9_example.b C9_example.longKey C9_example.w).1.1 = Ok ()
  ∧ files (Delete C9_example.b C9_example.longKey C9_example.w).2
      !! "000000000.data"%string
    = Some (tombstone C9_example.longKey).
Proof.
  edestruct (Delete_no_admission C9_example.b C9_example.longKey C9_example.w)
    as (HD & enc & Henc & Hfile).
  - vm_compute. reflexivity.
  - vm_compute. reflexivity.
  - rewrite HD. split; [reflexivity|].
    vm_compute in Henc. injection Henc as <-. exact Hfile.
Defined.

(** The empty key goes the same way. *)
Example Delete_empty_key :
  (Delete C9_example.b [] C9_example.w).1.1 = Ok ()
  ∧ files (Delete C9_example.b [] C9_example.w).2 !! "000000000.data"%string
    = Some (tombstone []).
Proof. vm_compute. split; reflexivity. Qed.

(* --------------------------------------------------------------------- *)
(** ** Rollover *)
(* --------------------------------------------------------------------- *)

(** A [rollover] that succeeds, step by step: [wc] is the world after the
    [Close] of the old active file. *)
Lemma rollover_ok b w b' w' :
  rollover b w = (Ok (), b', w') →
  let id := data.d_id (b_curr b) in
  let mk := MaxKeySize (b_cfg b) in
  let mv := MaxValueSize (b_cfg b) in
  let n0 := data.defaultDatafileFilename id in
  let n1 := data.defaultDatafileFilename (wrap64 (id + 1)) in
  let wc := (data.Close (b_curr b) w).2 in
  ∃ c0,
    files w !! n0 = Some c0
    ∧ b_datafiles b' = <[id := freshDatafile true id c0 mk mv]> (b_datafiles b)
    ∧ b_curr b'
      = freshDatafile false (wrap64 (id + 1)) (default [] (files w !! n1)) mk mv
    ∧ files w' = <[n1 := default [] (files w !! n1)]> (files w)
    ∧ trace w' = [EvOpenR n1; EvOpenW n1; EvOpenR n0] ++ trace wc.
Proof.
  intros H id mk mv n0 n1 wc. unfold rollover in H. subst wc.
  destruct (data.Close (b_curr b) w) as [[rc c] wc] eqn:Ec.
  apply data_Close_inv in Ec as (Hid & _ & _ & _ & _ & _ & Hfc & _).
  simpl in H. unfold data.FileID in H. rewrite Hid in H. fold id mk mv in H.
  destruct (data.NewDatafile id true mk mv wc) as [r0 w0] eqn:E0.
  pose proof E0 as E0'. apply NewDatafile_inv in E0' as (Hf0 & _).
  fold n0 in Hf0.
  assert (Hfiles0 : files w0 = files w).
  { destruct Hf0 as [->|(? & _)]; [done|done]. }
  destruct r0 as [d0|e0|]; [|done..].
  apply NewDatafile_ok in E0 as (c0 & -> & Hc0 & Ht0). fold n0 in Hc0, Ht0.
  destruct (data.NewDatafile (wrap64 (id + 1)) false mk mv w0) as [r1 w1] eqn:E1.
  pose proof E1 as E1'. apply NewDatafile_inv in E1' as (Hf1 & _).
  fold n1 in Hf1.
  destruct r1 as [d1|e1|]; [|done..].
  apply NewDatafile_ok in E1 as (c1 & -> & Hc1 & Ht1). fold n1 in Hc1, Ht1.
  injection H as <- <-. simpl.
  assert (Hc1' : c1 = default [] (files w !! n1)
                 ∧ files w1 = <[n1 := default [] (files w !! n1)]> (files w)).
  { rewrite <- Hfiles0. destruct Hf1 as [Hsame|(_ & Hnone & Hnew)].
    - rewrite Hsame in Hc1. rewrite Hc1. simpl. split; [done|].
      rewrite Hsame. symmetry. by apply insert_id.
    - rewrite Hnone. simpl. rewrite Hnew, lookup_insert_eq in Hc1.
      injection Hc1 as <-. done. }
  destruct Hc1' as [-> Hfiles1].
  exists c0. split_and!; try done.
  - by rewrite <- Hfiles0.
  - rewrite Ht1, Ht0. simpl. reflexivity.
Qed.


Module C6_example.

(** A threshold of 10 bytes: one record fills a data file. *)
Definition cfg : Config := mkConfig 10 64 65536 false.

Definition opened := Examples.opened (Open "/tmp/db" cfg Examples.empty).

Definition first := Examples.after (Put opened.1 (B "a") (B "AAAA") opened.2).

Definition b : Bitcask := first.1.
Definition w : World := first.2.

Definition second := put b (B "b") (B "BBBB") w.

End C6_example.


(** The same step, evaluated: segment 0 is frozen, segment 1 is active. *)
Example rollover_evaluated :
  data.FileID (b_curr C6_example.b) = 0
  ∧ data.FileID (b_curr C6_example.second.1.2) = 1
  ∧ elements (dom (b_datafiles C6_example.second.1.2)) = [0]
  ∧ trace C6_example.second.2 =
      [ EvWrite "000000001.data" (codec.encoded (NewEntry (B "b") (B "BBBB")));
        EvOpenR "000000001.data"; EvOpenW "000000001.data";
        EvOpenR "000000000.data";
        EvClose "000000000.data"; EvSync "000000000.data" ]
      ++ trace C6_example.w.
Proof. vm_compute. repeat split. Qed.

Module C6_fault.

(** The seventh fallible system call fails: the five of [Open] and the
    append of the first [Put] go through, the sync inside the [Close] of
    the rollover does not. *)
Definition world : World := mkWorld ∅ (replicate 6 None ++ [Some 0%nat]) [].

Definition opened := Examples.opened (Open "/tmp/db" C6_example.cfg world).

Definition first := Examples.after (Put opened.1 (B "a") (B "AAAA") opened.2).

(** The engine before the write that rolls over. *)
Definition b : Bitcask := first.1.
Definition w : World := first.2.

Definition second := put b (B "b") (B "BBBB") w.

End C6_fault.

(** C6 (the code departs from the claim).  With the active data file over
    the threshold and the sync inside [Close] failing, [put] rolls over
    and returns success: segment 0 is reopened read-only, segment 1 is
    created and holds the record.  But the write handle of segment 0 is
    never closed: [Close] returns at the failed sync, before
    [d.w.Close()], and [put] drops the error of [b.curr.Close()]. *)
Theorem rollover_leaves_write_handle_open :
  Examples.isOk (Open "/tmp/db" C6_example.cfg C6_fault.world).1 = true
  ∧ data.Size (b_curr C6_fault.b) > MaxDatafileSize (b_cfg C6_fault.b)
  ∧ (data.Sync (b_curr C6_fault.b) C6_fault.w).1 = Err EIO
  ∧ (data.Close (b_curr C6_fault.b) C6_fault.w).1.1 = Err EIO
  ∧ C6_fault.second.1.1 = Ok (0, 21)
  ∧ data.FileID (b_curr C6_fault.b) = 0
  ∧ data.FileID (b_curr C6_fault.second.1.2) = 1
  ∧ elements (dom (b_datafiles C6_fault.second.1.2)) = [0]
  ∧ trace C6_fault.second.2 =
      [ EvWrite "000000001.data" (codec.encoded (NewEntry (B "b") (B "BBBB")));
        EvOpenR "000000001.data"; EvOpenW "000000001.data";
        EvOpenR "000000000.data";
        EvSync "000000000.data" ]
      ++ trace C6_fault.w
  ∧ EvClose "000000000.data" ∉ trace C6_fault.second.2.
Proof.
  split_and!; try (vm_compute; reflexivity).
  intros Hin. vm_compute in Hin.
  repeat (apply elem_of_cons in Hin as [Hin|Hin]; [discriminate Hin|]).
  by apply elem_of_nil in Hin.
Qed.

(* --------------------------------------------------------------------- *)
(** ** Replay of the log *)
(* --------------------------------------------------------------------- *)

Module C1_example.

Definition open1 := Examples.opened (Open "/tmp/db" Examples.cfg Examples.empty).
Definition put1 := Put open1.1 (B "a") (B "1") open1.2.
Definition put2 := Put put1.1.2 (B "b") (B "2") put1.2.

(** The engine before [Close]. *)
Definition b : Bitcask := put2.1.2.
Definition w : World := put2.2.

Definition closed := Close b w.

(** The index file is removed and the directory opened again. *)
Definition open2 := Open "/tmp/db" Examples.cfg (Examples.removeIndex closed.2).
Definition b' : Bitcask := (Examples.opened open2).1.
Definition w' : World := (Examples.opened open2).2.

End C1_example.

(** C1 (the code departs from the claim).  Two keys are put in an empty
    database, the engine is closed, the index file deleted and the
    directory opened again.  Before, [Get] finds both keys; after the
    replay only the first record of the data file is in the directory and
    [Get] of the second key is [ErrKeyNotFound]: the loop of [loadIndex]
    calls [Read] once for each data file. *)
Theorem replay_reads_one_record_per_file :
  Examples.isOk (Open "/tmp/db" Examples.cfg Examples.empty).1 = true
  ∧ C1_example.put1.1.1 = Ok () ∧ C1_example.put2.1.1 = Ok ()
  ∧ (Get C1_example.b (B "a") C1_example.w).1 = Ok (B "1")
  ∧ (Get C1_example.b (B "b") C1_example.w).1 = Ok (B "2")
  ∧ C1_example.closed.1.1 = Ok ()
  ∧ (∃ b, C1_example.open2.1 = Ok b)
  ∧ (Get C1_example.b' (B "a") C1_example.w').1 = Ok (B "1")
  ∧ (Get C1_example.b' (B "b") C1_example.w').1 = Err ErrKeyNotFound
  ∧ map_to_list (b_t C1_example.b') = [(B "a", mkItem 0 0 18)].
Proof.
  vm_compute. split_and!; try reflexivity. eexists. reflexivity.
Qed.

(* --------------------------------------------------------------------- *)
(** ** Admission of [Put] *)
(* --------------------------------------------------------------------- *)

(** What [Put] checks before it writes: the key length as a [uint32]
    against [MaxKeySize], then the value length against [MaxValueSize].
    Nothing else keeps a pair from [put]. *)
Lemma Put_admission b key value w :
  Put b key value w =
  if u32 (len key) >? MaxKeySize (b_cfg b) then (Err ErrKeyTooLarge, b, w)
  else if u64 (len value) >? MaxValueSize (b_cfg b) then (Err ErrValueTooLarge, b, w)
  else
    match put b key value w with
    | (Ok (offset, n), b1, w1) =>
        (Ok (), set_t (<[key := mkItem (data.FileID (b_curr b1)) offset n]> (b_t b1)) b1, w1)
    | (Err e, b1, w1) => (Err e, b1, w1)
    | (Panic, b1, w1) => (Panic, b1, w1)
    end.
Proof. reflexivity. Qed.

Lemma Put_key_too_large b key value w :
  len key < two32 → len key > MaxKeySize (b_cfg b) →
  Put b key value w = (Err ErrKeyTooLarge, b, w).
Proof.
  intros Hlt Hgt. unfold Put.
  rewrite u32_id by (unfold len in *; lia).
  by destruct (Z.gtb_spec (len key) (MaxKeySize (b_cfg b))); [|lia].
Qed.

Lemma Put_value_too_large b key value w :
  len key <= MaxKeySize (b_cfg b) → len key < two32 →
  len value < two64 → len value > MaxValueSize (b_cfg b) →
  Put b key value w = (Err ErrValueTooLarge, b, w).
Proof.
  intros Hk Hk32 Hlt Hgt. unfold Put.
  rewrite u32_id, u64_id by (unfold len in *; lia).
  destruct (Z.gtb_spec (len key) (MaxKeySize (b_cfg b))); [lia|].
  by destruct (Z.gtb_spec (len value) (MaxValueSize (b_cfg b))); [|lia].
Qed.

Module C3_example.

Definition open1 := Examples.opened (Open "/tmp/db" Examples.cfg Examples.empty).

(** [Put] of the empty key. *)
Definition put1 := Put open1.1 [] (B "v") open1.2.

Definition closed := Close put1.1.2 put1.2.
Definition open2 := Open "/tmp/db" Examples.cfg (Examples.removeIndex closed.2).

End C3_example.

(** C3 (the code departs from the claim).  [Put] has no check of the empty
    key: it returns nil, the record with key length 0 is in the data file
    and the key in the directory.  The decoder refuses that record
    ([actualKeySize == 0]), so that a later replay of the log fails and
    the database does not open. *)
Theorem Put_admits_empty_key :
  Examples.isOk (Open "/tmp/db" Examples.cfg Examples.empty).1 = true
  ∧ C3_example.put1.1.1 = Ok ()
  ∧ files C3_example.put1.2 !! "000000000.data"%string
    = Some (codec.encoded (NewEntry [] (B "v")))
  ∧ key_len (codec.encoded (NewEntry [] (B "v"))) = 0
  ∧ Has C3_example.put1.1.2 [] = true
  ∧ C3_example.closed.1.1 = Ok ()
  ∧ C3_example.open2.1 = Err errInvalidKeyOrValueSize.
Proof. vm_compute. split_and!; reflexivity. Qed.

(* --------------------------------------------------------------------- *)
(** ** [DeleteAll] and a failed write *)
(* --------------------------------------------------------------------- *)

(** Whatever the writes do, [DeleteAll] leaves an empty directory. *)
Lemma DeleteAll_empties_directory b w :
  (DeleteAll b w).1.1 ≠ Panic → b_t (DeleteAll b w).1.2 = ∅.
Proof.
  unfold DeleteAll.
  destruct (deleteKeys b (ForEach_keys (b_t b)) w) as [[[] b1] w1]; done.
Qed.

Lemma put_keeps_directory b key value w r b' w' :
  put b key value w = (r, b', w') →
  b_t b' = b_t b ∧ b_cfg b' = b_cfg b ∧ b_path b' = b_path b.
Proof.
  rewrite put_eq.
  assert (Hb : ∀ r1 b1 w1, beforeWrite b w = (r1, b1, w1) →
            b_t b1 = b_t b ∧ b_cfg b1 = b_cfg b ∧ b_path b1 = b_path b).
  { unfold beforeWrite. intros r1 b1 w1.
    destruct (data.Size (b_curr b) >? MaxDatafileSize (b_cfg b)).
    - intros Er. by apply rollover_inv in Er as (? & ? & ? & _).
    - by intros [= <- <- <-]. }
  destruct (beforeWrite b w) as [[r1 b1] w1] eqn:Eb.
  specialize (Hb _ _ _ eq_refl).
  destruct r1 as [[]|e|].
  - destruct (data.Write _ _ w1) as [[rw c] w2]. by intros [= <- <- <-].
  - by intros [= <- <- <-].
  - by intros [= <- <- <-].
Qed.

(** [Delete] leaves the directory alone when its write fails. *)
Lemma Delete_error_keeps_directory b key w e b' w' :
  Delete b key w = (Err e, b', w') → b_t b' = b_t b.
Proof.
  unfold Delete. destruct (put b key [] w) as [[r b1] w1] eqn:Ep.
  apply put_keeps_directory in Ep as (Ht & _).
  destruct r as [[]|e1|]; intros H; [done| |done].
  by injection H as _ <- _.
Qed.

Module C4_example.

(** The ninth fallible system call fails: the five of [Open], the two
    appends of the [Put]s and the first tombstone go through, the second
    tombstone does not. *)
Definition world : World := mkWorld ∅ (replicate 8 None ++ [Some 0%nat]) [].

Definition open1 := Examples.opened (Open "/tmp/db" Examples.cfg world).
Definition put1 := Put open1.1 (B "a") (B "1") open1.2.
Definition put2 := Put put1.1.2 (B "b") (B "2") put1.2.

(** The engine before [DeleteAll]. *)
Definition b : Bitcask := put2.1.2.
Definition w : World := put2.2.

Definition deleted := DeleteAll b w.

End C4_example.

(** C4 (the code departs from the claim).  With keys "a" and "b" in the
    directory and the write of the second tombstone failing, [DeleteAll]
    stops and returns the error, the tombstone of "a" is in the log, and
    the directory is empty, not the directory of before the call:
    [b.t = art.New()] runs whether or not the traversal got through. *)
Theorem DeleteAll_error_empties_directory :
  Examples.isOk (Open "/tmp/db" Examples.cfg C4_example.world).1 = true
  ∧ C4_example.put1.1.1 = Ok () ∧ C4_example.put2.1.1 = Ok ()
  ∧ Has C4_example.b (B "a") = true ∧ Has C4_example.b (B "b") = true
  ∧ C4_example.deleted.1.1 = Err (Wrapped EIO)
  ∧ b_t C4_example.deleted.1.2 = ∅
  ∧ b_t C4_example.deleted.1.2 ≠ b_t C4_example.b
  ∧ files C4_example.deleted.2 !! "000000000.data"%string
    = Some (codec.encoded (NewEntry (B "a") (B "1"))
            ++ codec.encoded (NewEntry (B "b") (B "2"))
            ++ tombstone (B "a")).
Proof.
  split_and!; try (vm_compute; reflexivity).
  intros H. apply (f_equal (λ m : Tree, bool_decide (is_Some (m !! B "a")))) in H.
  vm_compute in H. discriminate H.
Qed.

(* --------------------------------------------------------------------- *)
(** ** The [Sync] option *)
(* --------------------------------------------------------------------- *)

(** The last system call of a successful [Put] is the append of the
    record: nothing follows it, whatever the configuration says. *)
Lemma Put_ends_with_the_append b key value w b' w' :
  Put b key value w = (Ok (), b', w') →
  ∃ name tl, trace w' = EvWrite name (codec.encoded (NewEntry key value)) :: tl.
Proof.
  rewrite Put_admission.
  destruct (u32 (len key) >? MaxKeySize (b_cfg b)); [done|].
  destruct (u64 (len value) >? MaxValueSize (b_cfg b)); [done|].
  rewrite put_eq.
  destruct (beforeWrite b w) as [[[[]|?|] b1] w1]; [|done|done].
  destruct (data.Write (b_curr b1) (NewEntry key value) w1)
    as [[[[off n]|?|] c] w2] eqn:Ew; [|done|done].
  intros H. injection H as _ <-.
  apply Write_ok in Ew as (enc & _ & _ & _ & _ & _ & _ & _ & Ht).
  by eexists _, _.
Qed.

Module C5_example.

(** A configuration with [Sync] set. *)
Definition cfg : Config := mkConfig 1048576 64 65536 true.

Definition open1 := Examples.opened (Open "/tmp/db" cfg Examples.empty).
Definition put1 := Put open1.1 (B "k") (B "v") open1.2.

End C5_example.

(** C5 (the code departs from the claim).  With [Sync] set in the
    configuration, a successful [Put] makes one system call, the append;
    no [File.Sync] is in the trace of the whole run. *)
Theorem Put_ignores_Sync_option :
  Examples.isOk (Open "/tmp/db" C5_example.cfg Examples.empty).1 = true
  ∧ config.Sync (b_cfg C5_example.open1.1) = true
  ∧ C5_example.put1.1.1 = Ok ()
  ∧ trace C5_example.put1.2
    = EvWrite "000000000.data" (codec.encoded (NewEntry (B "k") (B "v")))
      :: trace C5_example.open1.2
  ∧ trace C5_example.open1.2
    = [EvOpenR "000000000.data"; EvOpenW "000000000.data"]
  ∧ Forall (λ ev, ∀ name, ev ≠ EvSync name) (trace C5_example.put1.2).
Proof.
  split_and!; try (vm_compute; reflexivity).
  assert (Ht : trace C5_example.put1.2
               = [EvWrite "000000000.data" (codec.encoded (NewEntry (B "k") (B "v")));
                  EvOpenR "000000000.data"; EvOpenW "000000000.data"])
    by (vm_compute; reflexivity).
  rewrite Ht. repeat constructor; intros name H; discriminate H.
Qed.

(* --------------------------------------------------------------------- *)
(** ** Engine operations and reachable states *)
(* --------------------------------------------------------------------- *)

(** The public operations of an open engine. *)
Inductive Op : Type :=
  | OpPut (key value : bytes)
  | OpGet (key : bytes)
  | OpHas (key : bytes)
  | OpDelete (key : bytes)
  | OpDeleteAll
  | OpLen
  | OpSync
  | OpClose.

(** The engine and the world after an operation, whatever it returned. *)
Definition exec (op : Op) (b : Bitcask) (w : World) : Bitcask * World :=
  match op with
  | OpPut key value => ((Put b key value w).1.2, (Put b key value w).2)
  | OpGet key => (b, (Get b key w).2)
  | OpHas _ => (b, w)
  | OpDelete key => ((Delete b key w).1.2, (Delete b key w).2)
  | OpDeleteAll => ((DeleteAll b w).1.2, (DeleteAll b w).2)
  | OpLen => (b, w)
  | OpSync => (b, (bitcask.Sync b w).2)
  | OpClose => ((Close b w).1.2, (Close b w).2)
  end.

(** The number of records an operation appends at most. *)
Definition writes (op : Op) (b : Bitcask) : Z :=
  match op with
  | OpPut _ _ | OpDelete _ => 1
  | OpDeleteAll => Len b
  | _ => 0
  end.

(** States reached from a successful [Open] by operations that satisfy
    [guard]. *)
Inductive reachable (guard : Op → Bitcask → Prop) : Bitcask → World → Prop :=
  | reach_open path cfg w b w' :
      Open path cfg w = (Ok b, w') → reachable guard b w'
  | reach_step op b w :
      reachable guard b w → guard op b →
      reachable guard (exec op b w).1 (exec op b w).2.

(** The id of the active data file stays a Go [int]: the operation does
    not count past [MaxInt]. *)
Definition noOverflow (op : Op) (b : Bitcask) : Prop :=
  data.FileID (b_curr b) + writes op b <= MaxInt.

(** The engine has not been closed. *)
Definition notClose (op : Op) (b : Bitcask) : Prop := op ≠ OpClose.

(* --------------------------------------------------------------------- *)
(** ** The ids of the data files *)
(* --------------------------------------------------------------------- *)

Lemma digit_range c d : strconv.digit c = Some d → 0 <= d <= 9.
Proof.
  unfold strconv.digit.
  destruct (48 <=? Z.of_N (N_of_ascii c)) eqn:H1;
    destruct (Z.of_N (N_of_ascii c) <=? 57) eqn:H2; simpl; intros [= <-].
  apply Z.leb_le in H1, H2. lia.
Qed.

Lemma parseUintLoop_range s n z :
  0 <= n → strconv.parseUintLoop s n = Ok z → 0 <= z.
Proof.
  revert n. induction s as [|c s IH]; intros n Hn; simpl.
  - by intros [= <-].
  - destruct (strconv.digit c) as [d|] eqn:Hd; [|done].
    apply digit_range in Hd.
    destruct (n >=? _); [done|].
    destruct (n * 10 + d >? _); [done|].
    apply IH. lia.
Qed.

Lemma ParseInt_range s z : strconv.ParseInt s = Ok z → in_int64 z.
Proof.
  unfold strconv.ParseInt. destruct s as [|c s]; [done|].
  set (p := if bool_decide (c = "+"%char) then _ else _).
  destruct p as [neg digits].
  destruct (strconv.ParseUint digits) as [un| |] eqn:Hu; [|done|done].
  assert (0 <= un).
  { unfold strconv.ParseUint in Hu. destruct digits; [done|].
    by eapply (parseUintLoop_range _ 0). }
  destruct neg; simpl.
  - destruct (Z.gtb_spec un two63); [done|]. intros [= <-].
    unfold in_int64, two63 in *. lia.
  - destruct (Z.geb_spec un two63); [done|]. intros [= <-].
    unfold in_int64, two63 in *. lia.
Qed.

Lemma parseLoop_range fns acc ids :
  Forall in_int64 acc → internal.parseLoop fns acc = Ok ids → Forall in_int64 ids.
Proof.
  revert acc. induction fns as [|fn fns IH]; intros acc Hacc; simpl.
  - by intros [= <-].
  - destruct (strconv.ParseInt _) as [id| |] eqn:Hp; [|done|done].
    apply IH. apply Forall_app. split; [done|].
    constructor; [|done]. by eapply ParseInt_range.
Qed.

Lemma ParseIds_range fns ids :
  internal.ParseIds fns = Ok ids → Forall in_int64 ids ∧ StronglySorted Z.le ids.
Proof.
  unfold internal.ParseIds.
  destruct (internal.parseLoop _ _) as [l| |] eqn:Hl; [|done|done].
  intros [= <-]. split.
  - unfold sort.Ints. rewrite merge_sort_Permutation.
    eapply parseLoop_range; [|exact Hl].
    apply Forall_replicate. unfold in_int64, two63. lia.
  - apply StronglySorted_merge_sort; apply _.
Qed.

Lemma sorted_last_max (l : list Z) (x : Z) :
  StronglySorted Z.le l → x ∈ l → x <= List.last l 0.
Proof.
  intros Hs. revert x. induction Hs as [|y l Hs IH Hy]; intros x Hx.
  - by apply elem_of_nil in Hx.
  - destruct l as [|z l].
    + apply list_elem_of_singleton in Hx as ->. simpl. lia.
    + change (List.last (y :: z :: l) 0) with (List.last (z :: l) 0).
      apply elem_of_cons in Hx as [->|Hx]; [|by apply IH].
      rewrite Forall_forall in Hy.
      etrans; [apply (Hy z); left|apply IH; left].
Qed.

Lemma last_in_int64 (l : list Z) : Forall in_int64 l → in_int64 (List.last l 0).
Proof.
  induction 1 as [|x l Hx Hl IH]; [unfold in_int64, two63; simpl; lia|].
  destruct l; [done|]. exact IH.
Qed.

Lemma openAll_dom ids mk mv m w m' w' :
  openAll ids mk mv m w = (Ok m', w') → dom m' = dom m ∪ list_to_set ids.
Proof.
  revert m w. induction ids as [|id ids IH]; intros m w; simpl.
  - intros [= <- <-]. set_solver.
  - destruct (data.NewDatafile id true mk mv w) as [[file|e|] w1]; [|done|done].
    intros H. apply IH in H. rewrite H, dom_insert_L. set_solver.
Qed.

Lemma loadDatafiles_ids path mk mv w datafiles lastID w' :
  loadDatafiles path mk mv w = (Ok (datafiles, lastID), w') →
  in_int64 lastID ∧ ∀ i, i ∈ dom datafiles → i <= lastID.
Proof.
  unfold loadDatafiles.
  destruct (internal.GetDatafiles path w) as [fns| |]; [|done|done].
  destruct (internal.ParseIds fns) as [ids| |] eqn:Hids; [|done|done].
  apply ParseIds_range in Hids as [Hr Hs].
  destruct (openAll ids mk mv ∅ w) as [[m|e|] w1] eqn:Ho; [|done|done].
  apply openAll_dom in Ho. intros [= <- <- <-].
  destruct ids as [|id ids].
  - simpl. split; [unfold in_int64, two63; lia|].
    intros i. rewrite Ho. set_solver.
  - replace (0 <? len (id :: ids)) with true
      by (symmetry; apply Z.ltb_lt; unfold len; simpl; lia).
    split; [by apply last_in_int64|].
    intros i Hi. rewrite Ho in Hi. apply sorted_last_max; [done|].
    set_solver.
Qed.

Lemma replay_dom fs t offset m w t' m' w' :
  (∀ k f, (k, f) ∈ fs → k ∈ dom m) →
  replay fs t offset m w = (Ok (t', m'), w') → dom m' = dom m.
Proof.
  revert t offset m w. induction fs as [|[k f] fs IH]; intros t offset m w Hin; simpl.
  - by intros [= <- <- <-].
  - destruct (data.Read f w) as [[res f'] w1].
    assert (Hk : dom (<[k := f']> m) = dom m).
    { apply dom_insert_lookup_L. apply elem_of_dom, (Hin k f). left. }
    assert (Hin' : ∀ k0 f0, (k0, f0) ∈ fs → k0 ∈ dom (<[k := f']> m)).
    { intros k0 f0 H0. rewrite Hk. apply (Hin k0 f0). by right. }
    destruct res as [[e n]|err|]; [| |done].
    + destruct (len (Value e) =? 0); intros H; apply IH in H; try done;
        by rewrite H.
    + destruct (bool_decide (err = EOF)); [|done].
      intros [= <- <- <-]. done.
Qed.

Lemma loadIndex_dom path mk m w t m' w' :
  loadIndex path mk m w = (Ok (t, m'), w') → dom m' = dom m.
Proof.
  unfold loadIndex.
  destruct (index.Load "index" mk w) as [[[t0 found]|e|] w1]; [|done|done].
  destruct (negb found); [|by intros [= <- <- <-]].
  apply replay_dom. intros k f Hkf.
  unfold getSortedDatafiles in Hkf. rewrite merge_sort_Permutation in Hkf.
  apply elem_of_map_to_list in Hkf. apply elem_of_dom. by eexists.
Qed.

(** The ids of the engine: the active id is a Go [int] and no read-only
    data file has an id above it. *)
Definition ids_ok (b : Bitcask) : Prop :=
  in_int64 (data.FileID (b_curr b))
  ∧ ∀ i, i ∈ dom (b_datafiles b) → i <= data.FileID (b_curr b).

Lemma Open_ids_ok path cfg w b w' :
  Open path cfg w = (Ok b, w') → ids_ok b.
Proof.
  unfold Open, reopen.
  destruct (loadDatafiles _ _ _ w) as [[[m lastID]|e|] w1] eqn:El; [|done|done].
  apply loadDatafiles_ids in El as [Hr Hle].
  destruct (loadIndex _ _ m w1) as [[[t m']|e|] w2] eqn:Ei; [|done|done].
  apply loadIndex_dom in Ei.
  destruct (data.NewDatafile lastID false _ _ w2) as [[curr|e|] w3] eqn:En;
    [|done|done].
  apply NewDatafile_ok in En as (c & -> & _). intros [= <- <-].
  split; simpl; [done|]. intros i. rewrite Ei. apply Hle.
Qed.

Lemma put_ids b key value w r b' w' :
  put b key value w = (r, b', w') →
  ids_ok b → data.FileID (b_curr b) < MaxInt →
  ids_ok b'
  ∧ data.FileID (b_curr b) <= data.FileID (b_curr b') <= data.FileID (b_curr b) + 1.
Proof.
  intros Hput [Hr Hle] Hmax. unfold data.FileID in *.
  assert (Hw : wrap64 (data.d_id (b_curr b) + 1) = data.d_id (b_curr b) + 1).
  { apply wrap64_id. unfold in_int64, MaxInt, two63 in *. lia. }
  assert (Hrange : in_int64 (data.d_id (b_curr b) + 1)).
  { unfold in_int64, MaxInt, two63 in *. lia. }
  assert (Hstep : ∀ r1 b1 w1, beforeWrite b w = (r1, b1, w1) →
            (in_int64 (data.d_id (b_curr b1))
             ∧ ∀ i, i ∈ dom (b_datafiles b1) → i <= data.d_id (b_curr b1))
            ∧ data.d_id (b_curr b) <= data.d_id (b_curr b1)
              <= data.d_id (b_curr b) + 1).
  { intros r1 b1 w1. unfold beforeWrite.
    destruct (data.Size (b_curr b) >? MaxDatafileSize (b_cfg b)).
    2:{ intros [= <- <- <-]. split; [done|lia]. }
    intros Er. apply rollover_inv in Er as (_ & _ & _ & Hp & _ & _ & Hok & Herr & _).
    destruct r1 as [[]|e|]; [| |done].
    - destruct (Hok () eq_refl) as (c0 & c1 & Hdf & Hcurr & _).
      rewrite Hdf, Hcurr. simpl. rewrite Hw. split; [split; [done|]|lia].
      intros i. rewrite dom_insert_L, elem_of_union, elem_of_singleton.
      intros [->|Hi]; [lia|]. specialize (Hle i Hi). lia.
    - destruct (Herr e eq_refl) as (Hcurr & Hdf).
      destruct (data.Close (b_curr b) w) as [[rc c] wc] eqn:Ec.
      apply data_Close_inv in Ec as (Hid & _). simpl in Hcurr.
      rewrite Hcurr, Hid. split; [split; [done|]|lia].
      intros i. destruct Hdf as [->|[c0 ->]]; [apply Hle|].
      rewrite dom_insert_L, elem_of_union, elem_of_singleton.
      intros [->|Hi]; [lia|]. by apply Hle. }
  rewrite put_eq in Hput.
  destruct (beforeWrite b w) as [[r1 b1] w1] eqn:Eb.
  specialize (Hstep _ _ _ eq_refl).
  destruct r1 as [[]|e|].
  - destruct (data.Write _ _ w1) as [[rw c] w2] eqn:Ew.
    apply Write_inv in Ew as (Hid & _).
    injection Hput as _ <- _. unfold ids_ok, data.FileID. simpl. by rewrite Hid.
  - by injection Hput as _ <- _.
  - by injection Hput as _ <- _.
Qed.

Lemma deleteKeys_ids keys b w r b' w' :
  deleteKeys b keys w = (r, b', w') →
  ids_ok b → data.FileID (b_curr b) + len keys <= MaxInt →
  ids_ok b'
  ∧ data.FileID (b_curr b') <= data.FileID (b_curr b) + len keys.
Proof.
  revert b w. induction keys as [|key keys IH]; intros b w; simpl.
  - intros [= <- <- <-] Hok _. split; [done|unfold len; simpl; lia].
  - intros H Hok Hmax.
    assert (Hl : len (key :: keys) = len keys + 1)
      by (unfold len; simpl; lia).
    rewrite Hl in *. assert (0 <= len keys) by (unfold len; lia).
    destruct (put b key [] w) as [[rp b1] w1] eqn:Ep.
    apply put_ids in Ep as [Hok1 Hid1]; [|done|lia].
    destruct rp as [[]|e|].
    + apply IH in H as (Hok' & Hid'); [|done|lia].
      split; [done|lia].
    + injection H as _ <- _. split; [done|lia].
    + injection H as _ <- _. split; [done|lia].
Qed.

Lemma closeAll_dom ids m w r m' w' :
  closeAll m ids w = (r, m', w') → dom m' = dom m.
Proof.
  revert m w. induction ids as [|id ids IH]; intros m w; simpl.
  - by intros [= <- <- <-].
  - destruct (m !! id) as [f|] eqn:Hf; [|apply IH].
    destruct (data.Close f w) as [[rc f1] w1].
    assert (Hd : dom (<[id := f1]> m) = dom m)
      by (apply dom_insert_lookup_L; by eexists).
    destruct rc as [[]|e|].
    + intros H. apply IH in H. by rewrite H.
    + by intros [= <- <- <-].
    + by intros [= <- <- <-].
Qed.

Lemma ForEach_keys_length (t : Tree) : len (ForEach_keys t) = Z.of_nat (size t).
Proof.
  unfold ForEach_keys, len. f_equal.
  rewrite merge_sort_Permutation, length_map. apply length_map_to_list.
Qed.

Lemma exec_ids_ok op b w :
  ids_ok b → noOverflow op b → ids_ok (exec op b w).1.
Proof.
  intros Hok Hmax. unfold noOverflow in Hmax.
  destruct op as [key value|key|key|key| | | |]; simpl in *; try done.
  - unfold Put.
    destruct (u32 (len key) >? _); [done|].
    destruct (u64 (len value) >? _); [done|].
    destruct (put b key value w) as [[r b1] w1] eqn:Ep.
    apply put_ids in Ep as [Hok1 _]; [|done|lia].
    by destruct r as [[off n]|e|].
  - unfold Delete.
    destruct (put b key [] w) as [[r b1] w1] eqn:Ep.
    apply put_ids in Ep as [Hok1 _]; [|done|lia].
    by destruct r as [[off n]|e|].
  - unfold DeleteAll.
    destruct (deleteKeys b (ForEach_keys (b_t b)) w) as [[r b1] w1] eqn:Ed.
    apply deleteKeys_ids in Ed as [Hok1 _]; [|done|].
    + by destruct r.
    + rewrite ForEach_keys_length. exact Hmax.
  - unfold Close.
    destruct (index.Save (b_t b) "index" w) as [[[]|e|] w1]; [|done|done].
    destruct (closeAll _ _ w1) as [[r m] w2] eqn:Ec.
    apply closeAll_dom in Ec.
    destruct r as [[]|e|]; simpl.
    + destruct (data.Close (b_curr b) w2) as [[rc c] w3] eqn:Ecl.
      apply data_Close_inv in Ecl as (Hid & _).
      unfold ids_ok, data.FileID in *. simpl. by rewrite Hid, Ec.
    + unfold ids_ok in *. simpl. by rewrite Ec.
    + unfold ids_ok in *. simpl. by rewrite Ec.
Qed.

(** C2, as the code has it.  After a successful [Open] and after every
    operation that follows (as long as the id of the active data file does
    not count past [MaxInt]), no data file in [datafiles] has an id above
    the id of the active data file. *)
Theorem active_id_not_below_frozen (b : Bitcask) (w : World) :
  reachable noOverflow b w →
  ∀ i, i ∈ dom (b_datafiles b) → i <= data.FileID (b_curr b).
Proof.
  intros H. cut (ids_ok b); [by intros [_ ?]|].
  induction H as [path cfg w b w' Hopen|op b w _ IH Hguard].
  - by eapply Open_ids_ok.
  - by apply exec_ids_ok.
Qed.

Module C2_example.

(** A directory with the (empty) data file of segment 0, as a first
    [Open] followed by [Close] leaves it, and no index file. *)
Definition world : World := mkWorld {[ "000000000.data"%string := [] ]} [] [].

Definition open1 := Open "/tmp/db" Examples.cfg world.
Definition b : Bitcask := (Examples.opened open1).1.
Definition w : World := (Examples.opened open1).2.

(** The engine after one [Put]. *)
Definition b1 : Bitcask := (exec (OpPut (B "k") (B "v")) b w).1.
Definition w1 : World := (exec (OpPut (B "k") (B "v")) b w).2.

End C2_example.

(** C2 as stated fails: after [Open] on a directory that holds segment 0,
    segment 0 is the active data file and is in [datafiles] as well, so
    the active id is not strictly above every id in [datafiles]. *)
Lemma active_id_equals_frozen :
  C2_example.open1 = (Ok C2_example.b, C2_example.w)
  ∧ ¬ (∀ i, i ∈ dom (b_datafiles C2_example.b)
            → i < data.FileID (b_curr C2_example.b)).
Proof.
  split; [vm_compute; reflexivity|].
  intros H. specialize (H 0).
  assert (Hin : 0 ∈ dom (b_datafiles C2_example.b)).
  { apply elem_of_dom.
    destruct (b_datafiles C2_example.b !! 0) eqn:E; [by eexists|].
    vm_compute in E. discriminate E. }
  specialize (H Hin). vm_compute in H. discriminate H.
Qed.

Lemma active_id_not_below_frozen_witness :
  Forall (λ i, i <= data.FileID (b_curr C2_example.b1))
         (elements (dom (b_datafiles C2_example.b1))).
Proof.
  apply Forall_forall. intros i Hi. apply elem_of_elements in Hi.
  revert i Hi.
  apply (active_id_not_below_frozen C2_example.b1 C2_example.w1).
  apply (reach_step noOverflow (OpPut (B "k") (B "v")) C2_example.b C2_example.w).
  - apply (reach_open noOverflow "/tmp/db"%string Examples.cfg C2_example.world).
    vm_compute. reflexivity.
  - vm_compute. intros H. discriminate H.
Defined.

(* --------------------------------------------------------------------- *)
(** ** The codec round trip *)
(* --------------------------------------------------------------------- *)

Lemma wrap64_add a b : wrap64 (wrap64 a + wrap64 b) = wrap64 (a + b).
Proof.
  rewrite wrap64_add_l, (Z.add_comm a), wrap64_add_l. f_equal. lia.
Qed.

Lemma len_app {A} (l1 l2 : list A) : len (l1 ++ l2) = len l1 + len l2.
Proof. unfold len. rewrite length_app. lia. Qed.

Lemma len_nonneg {A} (l : list A) : 0 <= len l.
Proof. unfold len. lia. Qed.

Lemma DecodeEntry_encoded key value e0 mk mv :
  0 < len key <= mk → mk < two32 →
  len value <= mv → mv < two64 →
  codec.DecodeEntry (codec.encoded (NewEntry key value)) e0 mk mv
  = (Ok (), mkEntry (crc32.ChecksumIEEE value) key (Offset e0) value).
Proof.
  intros Hk Hmk Hv Hmv.
  pose proof (len_nonneg value) as Hv0.
  pose proof (ChecksumIEEE_u32 value) as Hcrc.
  unfold codec.DecodeEntry, codec.getKeyValueSizes, codec.encoded.
  cbn [NewEntry Key Value Checksum].
  set (pk := BigEndian.PutUint32 (u32 (len key))).
  set (pv := BigEndian.PutUint64 (u64 (len value))).
  set (ck := BigEndian.PutUint32 (crc32.ChecksumIEEE value)).
  assert (Hpk : length pk = 4%nat) by apply length_PutUint32.
  assert (Hpv : length pv = 8%nat) by apply length_PutUint64.
  assert (Hck : length ck = 4%nat) by apply length_PutUint32.
  assert (Hlen : len (pk ++ pv ++ key ++ value ++ ck) = 16 + len key + len value).
  { rewrite !len_app. unfold len. rewrite Hpk, Hpv, Hck. lia. }
  rewrite Hlen. unfold codec.keySize, codec.valueSize, codec.checksumSize.
  destruct (Z.ltb_spec (16 + len key + len value) (4 + 8)); [lia|].
  rewrite (take_app_length' pk) by done.
  rewrite (drop_app_length' pk) by done.
  assert (Hk32 : BigEndian.Uint32 pk = len key).
  { rewrite <- (app_nil_r pk). unfold pk. rewrite Uint32_PutUint32.
    rewrite !(u32_id (len key)) by (unfold two32 in *; lia). done. }
  assert (Hv64 : BigEndian.Uint64 (pv ++ key ++ value ++ ck) = len value).
  { unfold pv. rewrite Uint64_PutUint64.
    rewrite !(u64_id (len value)) by (unfold two64 in *; lia). done. }
  rewrite Hk32, Hv64.
  destruct (Z.gtb_spec (len key) mk); [lia|].
  destruct (Z.gtb_spec (len value) mv); [lia|].
  destruct (Z.eqb_spec (len key) 0); [lia|]. cbn [orb].
  replace (drop 12 (pk ++ pv ++ key ++ value ++ ck)) with (key ++ value ++ ck).
  2:{ rewrite (app_assoc pk pv). rewrite drop_app_length'; [done|].
      rewrite length_app. lia. }
  unfold codec.decodeWithoutPrefix, codec.checksumSize.
  assert (Hlen' : len (key ++ value ++ ck) = len key + len value + 4).
  { rewrite !len_app. unfold len. rewrite Hck. lia. }
  rewrite Hlen'.
  destruct (Z.ltb_spec (len key + len value + 4) (len key)); [lia|].
  destruct (Z.ltb_spec (len key + len value + 4 - 4) (len key)); [lia|].
  f_equal. f_equal.
  - replace (Z.to_nat (len key + len value + 4 - 4))
      with (length (key ++ value)) by (rewrite length_app; unfold len; lia).
    rewrite (app_assoc key value), drop_app_length.
    rewrite <- (app_nil_r ck). unfold ck. rewrite Uint32_PutUint32.
    apply u32_id. done.
  - replace (Z.to_nat (len key)) with (length key) by (unfold len; lia).
    by rewrite take_app_length.
  - replace (Z.to_nat (len key + len value + 4 - 4))
      with (length (key ++ value)) by (rewrite length_app; unfold len; lia).
    replace (Z.to_nat (len key)) with (length key) by (unfold len; lia).
    rewrite (app_assoc key value), take_app_length, drop_app_length. done.
Qed.

(* --------------------------------------------------------------------- *)
(** ** The active data file of an open engine *)
(* --------------------------------------------------------------------- *)

(** What holds of the active data file [d] between operations: it has a
    write handle on the file it reads; its size limits are those of the
    configuration; it has been closed (by a rollover that failed) only when
    over the threshold; and, while its writer is usable, its offset is the
    length of the file. *)
Definition active_ok (cfg : Config) (d : data.datafile) (w : World) : Prop :=
  ∃ enc, data.d_w d = Some enc
    ∧ codec.wr_name enc = f_name (data.d_r d)
    ∧ data.d_maxKeySize d = MaxKeySize cfg
    ∧ data.d_maxValueSize d = MaxValueSize cfg
    ∧ (f_closed (data.d_r d) = true ∨ codec.wr_closed enc = true →
       data.d_offset d > MaxDatafileSize cfg)
    ∧ (codec.wr_err enc = None → codec.wr_closed enc = false →
       ∃ c, files w !! codec.wr_name enc = Some c
            ∧ data.d_offset d = wrap64 (len c)).

Definition engine_ok (b : Bitcask) (w : World) : Prop :=
  active_ok (b_cfg b) (b_curr b) w.

Lemma active_ok_preserves cfg d w w' :
  active_ok cfg d w → preserves w w' → active_ok cfg d w'.
Proof.
  intros (enc & Hw & Hn & Hk & Hv & Hcl & Hoff) Hpres.
  exists enc. split_and!; try done.
  intros He Hc. destruct (Hoff He Hc) as (c & Hc' & Ho).
  exists c. split; [by apply Hpres|done].
Qed.

Lemma fresh_active_ok cfg id c w :
  files w !! data.defaultDatafileFilename id = Some c →
  active_ok cfg (freshDatafile false id c (MaxKeySize cfg) (MaxValueSize cfg)) w.
Proof.
  intros Hc. eexists. simpl. split_and!; try done.
  - by intros [?|?].
  - intros _ _. by exists c.
Qed.

Lemma Write_active_ok cfg d e w r d' w' :
  active_ok cfg d w → f_closed (data.d_r d) = false →
  data.Write d e w = (r, d', w') →
  active_ok cfg d' w' ∧ f_closed (data.d_r d') = false.
Proof.
  intros (enc & Hw & Hn & Hk & Hv & Hcl & Hoff) Hr HW.
  pose proof HW as HW'.
  apply Write_inv in HW' as (_ & Hr' & _ & Hk' & Hv' & Hp & _ & Hok & Herr).
  split; [|by rewrite Hr'].
  destruct r as [[off n]|err|]; [| |done].
  - apply Write_ok in HW as (enc' & Hw' & He & Hc & -> & -> & -> & Hf & Ht).
    rewrite Hw in Hw'. injection Hw' as <-.
    destruct (Hoff He Hc) as (c & Hc0 & Ho).
    exists enc. simpl. split_and!; try done.
    + intros [?|?]; congruence.
    + intros _ _. exists (c ++ codec.encoded e). split.
      * by rewrite Hf, Hc0, lookup_insert_eq.
      * rewrite Ho, len_app, length_encoded. apply wrap64_add.
  - destruct (Herr err eq_refl) as (Ho & [[Hnone _]|(enc0 & enc1 & H0 & H1 & Hn1 & Hc1 & He1)]);
      [congruence|].
    rewrite Hw in H0. injection H0 as <-.
    exists enc1. split_and!; try congruence.
    + rewrite Hr', Hc1, Ho. done.
    + intros He. destruct He1 as [x Hx]. congruence.
Qed.

Lemma Close_active_ok cfg d w r d' w' :
  active_ok cfg d w → data.d_offset d > MaxDatafileSize cfg →
  data.Close d w = (r, d', w') →
  active_ok cfg d' w' ∧ data.d_offset d' > MaxDatafileSize cfg.
Proof.
  intros (enc & Hw & Hn & Hk & Hv & Hcl & Hoff) Hbig HC.
  apply data_Close_inv in HC
    as (_ & Ho & Hname & _ & Hk' & Hv' & Hf & _ & _ & _ & Henc & _).
  destruct (Henc enc Hw) as (enc' & Hw' & Hn' & He' & Hc').
  split; [|by rewrite Ho].
  exists enc'. split_and!; try congruence.
  intros He Hc. rewrite He' in He.
  assert (Hc0 : codec.wr_closed enc = false).
  { destruct (codec.wr_closed enc); [|done]. rewrite Hc' in Hc; done. }
  destruct (Hoff He Hc0) as (c & Hc1 & Hoc). exists c.
  by rewrite Hn', Hf, Ho.
Qed.

Lemma beforeWrite_engine_ok b w r b1 w1 :
  engine_ok b w → beforeWrite b w = (r, b1, w1) →
  engine_ok b1 w1 ∧ b_cfg b1 = b_cfg b
  ∧ (r = Ok () → f_closed (data.d_r (b_curr b1)) = false).
Proof.
  unfold engine_ok, beforeWrite. intros Hok.
  destruct (Z.gtb_spec (data.Size (b_curr b)) (MaxDatafileSize (b_cfg b)))
    as [Hbig|Hsmall].
  - intros Er. pose proof Er as Er'.
    apply rollover_inv in Er' as (Hcfg & _ & _ & Hp & _ & Hpres & Hrok & Hrerr & _).
    rewrite Hcfg. split_and!; [|done|].
    + destruct r as [[]|e|]; [| |done].
      * destruct (Hrok () eq_refl) as (c0 & c1 & _ & -> & Hc1).
        by apply fresh_active_ok.
      * destruct (Hrerr e eq_refl) as [-> _].
        destruct (data.Close (b_curr b) w) as [[rc c] wc] eqn:Ec.
        pose proof Ec as Ec'.
        apply data_Close_inv in Ec' as (_ & _ & _ & _ & _ & _ & Hfc & _).
        apply Close_active_ok with (cfg := b_cfg b) in Ec as [Hc _];
          [|exact Hok|unfold data.Size in Hbig; lia].
        simpl. eapply active_ok_preserves; [exact Hc|].
        etrans; [|exact Hpres]. apply preserves_same. done.
    + intros ->. destruct (Hrok () eq_refl) as (c0 & c1 & _ & -> & _). done.
  - intros [= <- <- <-]. split_and!; [done|done|]. intros _.
    destruct Hok as (enc & _ & _ & _ & _ & Hcl & _).
    destruct (f_closed (data.d_r (b_curr b))); [|done].
    unfold data.Size in Hsmall. specialize (Hcl (or_introl eq_refl)). lia.
Qed.

Lemma put_engine_ok b key value w r b' w' :
  engine_ok b w → put b key value w = (r, b', w') → engine_ok b' w'.
Proof.
  intros Hok. rewrite put_eq.
  destruct (beforeWrite b w) as [[r1 b1] w1] eqn:Eb.
  apply beforeWrite_engine_ok in Eb as (Hok1 & Hcfg & Hr); [|done].
  destruct r1 as [[]|e|].
  - destruct (data.Write _ _ w1) as [[rw c] w2] eqn:Ew.
    intros [= <- <- <-].
    apply Write_active_ok with (cfg := b_cfg b1) in Ew as [Hc _]; auto.
  - by intros [= <- <- <-].
  - by intros [= <- <- <-].
Qed.

Lemma deleteKeys_engine_ok keys b w r b' w' :
  engine_ok b w → deleteKeys b keys w = (r, b', w') → engine_ok b' w'.
Proof.
  revert b w. induction keys as [|key keys IH]; intros b w Hok; simpl.
  - by intros [= <- <- <-].
  - destruct (put b key [] w) as [[rp b1] w1] eqn:Ep.
    apply put_engine_ok in Ep; [|done].
    destruct rp as [[]|e|]; [by apply IH| |]; by intros [= <- <- <-].
Qed.

Lemma readBytes_files d offset size w r w' :
  data.readBytes d offset size w = (r, w') → files w' = files w.
Proof.
  unfold data.readBytes. destruct (data.d_w d).
  - intros H. by apply os_ReadAt_inv in H as (_ & ? & _).
  - destruct (data.d_ra d); [|by intros [= <- <-]].
    destruct (_ || _); [by intros [= <- <-]|].
    destruct (len _ <? size); by intros [= <- <-].
Qed.

Lemma ReadAt_files d offset size w : files (data.ReadAt d offset size w).2 = files w.
Proof.
  unfold data.ReadAt. destruct (size <? 0); [done|].
  destruct (data.readBytes d offset size w) as [r w1] eqn:E.
  apply readBytes_files in E.
  destruct r as [b|e|]; [|done|done].
  destruct (negb _); [done|].
  by destruct (codec.DecodeEntry _ _ _ _) as [[] ?].
Qed.

Lemma Get_files b key w : files (Get b key w).2 = files w.
Proof.
  unfold Get. destruct (b_t b !! key) as [item|]; [|done].
  destruct (if FileID item =? _ then _ else _) as [df|]; [|done].
  pose proof (ReadAt_files df (ItemOffset item) (Size item) w) as H.
  destruct (data.ReadAt df _ _ w) as [[e|err|] w1]; [|done|done].
  by destruct (negb _).
Qed.

Lemma exec_engine_ok op b w :
  engine_ok b w → notClose op b → engine_ok (exec op b w).1 (exec op b w).2.
Proof.
  intros Hok Hop.
  destruct op as [key value|key|key|key| | | |]; simpl; try done.
  - unfold Put.
    destruct (u32 (len key) >? _); [done|].
    destruct (u64 (len value) >? _); [done|].
    destruct (put b key value w) as [[r b1] w1] eqn:Ep.
    apply put_engine_ok in Ep; [|done].
    by destruct r as [[off n]|e|].
  - eapply active_ok_preserves; [exact Hok|].
    apply preserves_same, Get_files.
  - unfold Delete.
    destruct (put b key [] w) as [[r b1] w1] eqn:Ep.
    apply put_engine_ok in Ep; [|done].
    by destruct r as [[off n]|e|].
  - unfold DeleteAll.
    destruct (deleteKeys b _ w) as [[r b1] w1] eqn:Ed.
    apply deleteKeys_engine_ok in Ed; [|done].
    by destruct r.
  - eapply active_ok_preserves; [exact Hok|].
    unfold bitcask.Sync.
    destruct (data.Sync (b_curr b) w) as [r w1] eqn:Es.
    apply data_Sync_inv in Es as (Hf & _). by apply preserves_same.
Qed.

Lemma Open_engine_ok path cfg w b w' :
  Open path cfg w = (Ok b, w') → engine_ok b w'.
Proof.
  unfold Open, reopen.
  destruct (loadDatafiles _ _ _ w) as [[[m lastID]|e|] w1]; [|done|done].
  destruct (loadIndex _ _ m w1) as [[[t m']|e|] w2]; [|done|done].
  destruct (data.NewDatafile lastID false _ _ w2) as [[curr|e|] w3] eqn:En;
    [|done|done].
  apply NewDatafile_ok in En as (c & -> & Hc & _). intros [= <- <-].
  by apply fresh_active_ok.
Qed.

Lemma reachable_engine_ok b w : reachable notClose b w → engine_ok b w.
Proof.
  induction 1 as [path cfg w b w' Hopen|op b w _ IH Hguard].
  - by eapply Open_engine_ok.
  - by apply exec_engine_ok.
Qed.

(* --------------------------------------------------------------------- *)
(** ** Round trip *)
(* --------------------------------------------------------------------- *)

(** The next fallible system call is let through. *)
Definition nextCallSucceeds (w : World) : Prop :=
  match faults w with
  | Some _ :: _ => False
  | _ => True
  end.

Lemma os_ReadAt_ok f n off w c0 rec :
  f_closed f = false →
  nextCallSucceeds w →
  files w !! f_name f = Some (c0 ++ rec) →
  off = len c0 → n = len rec → 0 < n →
  ∃ w2, os.ReadAt f n off w = (Ok rec, w2).
Proof.
  intros Hopen Hnext Hfile -> -> Hn. unfold os.ReadAt.
  pose proof (len_nonneg c0).
  destruct (Z.ltb_spec (len c0) 0); [lia|].
  destruct (Z.eqb_spec (len rec) 0); [lia|]. rewrite Hopen.
  unfold os.fault, nextCallSucceeds in *.
  assert (Hread : take (Z.to_nat (len rec)) (drop (Z.to_nat (len c0)) (c0 ++ rec)) = rec).
  { unfold len. rewrite !Nat2Z.id, drop_app_length. by rewrite firstn_all. }
  destruct (faults w) as [|[k|] fs]; [|done|]; simpl; rewrite Hfile; simpl;
    rewrite Hread; destruct (Z.ltb_spec (len rec) (len rec)); try lia;
    by eexists.
Qed.

Lemma ReadAt_record d enc w c0 key value :
  data.d_w d = Some enc →
  f_closed (data.d_r d) = false →
  nextCallSucceeds w →
  files w !! f_name (data.d_r d) = Some (c0 ++ codec.encoded (NewEntry key value)) →
  0 < len key <= data.d_maxKeySize d → data.d_maxKeySize d < two32 →
  len value <= data.d_maxValueSize d → data.d_maxValueSize d < two64 →
  ∃ w2, data.ReadAt d (len c0) (recordLen key value) w
        = (Ok (mkEntry (crc32.ChecksumIEEE value) key 0 value), w2).
Proof.
  intros Hw Hr Hnext Hfile Hk Hmk Hv Hmv.
  pose proof (len_nonneg value).
  assert (Hrec : recordLen key value = len (codec.encoded (NewEntry key value)))
    by (by rewrite length_encoded).
  assert (Hpos : 0 < recordLen key value).
  { unfold recordLen, codec.keySize, codec.valueSize, codec.checksumSize. lia. }
  destruct (os_ReadAt_ok _ (recordLen key value) (len c0) w c0 _ Hr Hnext Hfile
              eq_refl Hrec Hpos) as [w2 Hread].
  exists w2. unfold data.ReadAt, data.readBytes.
  destruct (Z.ltb_spec (recordLen key value) 0); [lia|].
  rewrite Hw, Hread, <- Hrec, Z.eqb_refl. cbn [negb].
  rewrite DecodeEntry_encoded by done. reflexivity.
Qed.

(** C7. On an engine that has been opened and not closed, after a [Put]
    of a non-empty key of at most [MaxKeySize] bytes and a value of at most
    [MaxValueSize] bytes has returned nil, [Get] of that key returns the
    value: provided the active data file is still shorter than [2^63]
    bytes and the read is not hit by an I/O failure. *)
Theorem Put_Get_roundtrip (b : Bitcask) (w : World) (key value : bytes)
    (b' : Bitcask) (w' : World) :
  reachable notClose b w →
  Config_wf (b_cfg b) →
  0 < len key <= MaxKeySize (b_cfg b) →
  0 < len value <= MaxValueSize (b_cfg b) →
  Put b key value w = (Ok (), b', w') →
  (∀ c, files w' !! data.Name (b_curr b') = Some c → len c < two63) →
  nextCallSucceeds w' →
  (Get b' key w').1 = Ok value.
Proof.
  intros Hreach (_ & Hmk & Hmv) Hk Hv HPut Hbound Hnext.
  apply reachable_engine_ok in Hreach.
  rewrite Put_admission in HPut.
  destruct (u32 (len key) >? _); [done|].
  destruct (u64 (len value) >? _); [done|].
  destruct (put b key value w) as [[rp b1] w1] eqn:Ep.
  destruct rp as [[off n]|e|]; [|done|done].
  injection HPut as <- <-.
  rewrite put_eq in Ep.
  destruct (beforeWrite b w) as [[r0 b0] w0] eqn:Eb.
  apply beforeWrite_engine_ok in Eb as (Hok0 & Hcfg & Hr0); [|done].
  destruct r0 as [[]|e|]; [|done|done]. specialize (Hr0 eq_refl).
  destruct (data.Write (b_curr b0) (NewEntry key value) w0) as [[rw c] w2] eqn:Ew.
  injection Ep as -> <- <-.
  apply Write_ok in Ew as (enc & Hw & He & Hc & -> & -> & -> & Hf & _).
  destruct Hok0 as (enc0 & Hw0 & Hn & Hmk0 & Hmv0 & _ & Hoff).
  rewrite Hw in Hw0. injection Hw0 as <-.
  destruct (Hoff He Hc) as (c0 & Hc0 & Ho).
  cbn [NewEntry Key Value] in *.
  assert (Hfile : files w2 !! f_name (data.d_r (b_curr b0))
                  = Some (c0 ++ codec.encoded (NewEntry key value))).
  { by rewrite Hf, Hc0, <- Hn, lookup_insert_eq. }
  specialize (Hbound _ Hfile).
  rewrite len_app, length_encoded in Hbound. cbn [NewEntry Key Value] in Hbound.
  pose proof (len_nonneg c0). pose proof (len_nonneg key).
  pose proof (len_nonneg value).
  assert (Hrl : 16 <= recordLen key value).
  { unfold recordLen, codec.keySize, codec.valueSize, codec.checksumSize. lia. }
  assert (Ho' : data.d_offset (b_curr b0) = len c0).
  { rewrite Ho. apply wrap64_id. unfold in_int64, two63 in *. lia. }
  assert (Hn' : wrap64 (recordLen key value) = recordLen key value).
  { apply wrap64_id. unfold in_int64, two63 in *. lia. }
  rewrite Hn', Ho' in *. rewrite Hcfg in *.
  destruct (ReadAt_record
              (data.set_offset (wrap64 (len c0 + recordLen key value)) (b_curr b0))
              enc w2 c0 key value) as [w3 Hread]; simpl; try done; try lia.
  unfold Get. cbn [b_t set_t b_curr set_curr].
  rewrite lookup_insert_eq. cbn [FileID ItemOffset Size].
  rewrite Z.eqb_refl, Hread. cbn [Value Checksum].
  rewrite Z.eqb_refl. reflexivity.
Qed.

Module C7_example.

Definition opened := Examples.opened (Open "/tmp/db" Examples.cfg Examples.empty).
Definition b : Bitcask := opened.1.
Definition w : World := opened.2.

Definition put1 := Put b (B "hello") (B "world") w.
Definition b' : Bitcask := put1.1.2.
Definition w' : World := put1.2.

End C7_example.

Lemma Put_Get_roundtrip_witness :
  (Get C7_example.b' (B "hello") C7_example.w').1 = Ok (B "world").
Proof.
  apply (Put_Get_roundtrip C7_example.b C7_example.w (B "hello") (B "world")
           C7_example.b' C7_example.w').
  - apply (reach_open notClose "/tmp/db"%string Examples.cfg Examples.empty).
    vm_compute. reflexivity.
  - vm_compute. repeat split; try reflexivity; intros H; discriminate H.
  - vm_compute. repeat split; try reflexivity; intros H; discriminate H.
  - vm_compute. repeat split; try reflexivity; intros H; discriminate H.
  - vm_compute. reflexivity.
  - intros c Hc. vm_compute in Hc. injection Hc as <-. vm_compute. reflexivity.
  - vm_compute. exact I.
Defined.

(* --------------------------------------------------------------------- *)
(** ** The snapshot reader never runs out of fuel *)
(* --------------------------------------------------------------------- *)

Lemma readFull_length bs n x rest :
  index.readFull bs n = Ok (x, rest) →
  (length rest <= length bs)%nat ∧ (0 < n → (length rest < length bs)%nat).
Proof.
  unfold index.readFull. destruct (Z.eqb_spec n 0) as [->|Hn].
  - intros [= <- <-]. split; [done|lia].
  - destruct bs as [|b bs]; [done|].
    destruct (Z.ltb_spec (len (b :: bs)) n); [done|].
    intros [= <- <-]. rewrite length_drop. unfold len in *. simpl in *.
    split; lia.
Qed.

Lemma readKey_length bs mk key rest :
  index.readKey bs mk = Ok (key, rest) → (length rest < length bs)%nat.
Proof.
  unfold index.readKey.
  destruct (index.readFull bs index.int32Size) as [[buf bs1]|e|] eqn:E1.
  - apply readFull_length in E1 as [_ H1].
    specialize (H1 ltac:(unfold index.int32Size; lia)).
    destruct (_ >? mk); [done|].
    destruct (index.readFull bs1 _) as [[kb bs2]|e|] eqn:E2; [|done|done].
    apply readFull_length in E2 as [H2 _]. intros [= <- <-]. lia.
  - by destruct e.
  - done.
Qed.

Lemma readItem_length bs item rest :
  index.readItem bs = Ok (item, rest) → (length rest < length bs)%nat.
Proof.
  unfold index.readItem.
  destruct (index.readFull bs _) as [[buf bs1]|e|] eqn:E1; [|done|done].
  apply readFull_length in E1 as [_ H1]. intros [= <- <-]. apply H1.
  unfold index.fileIDSize, index.offsetSize, index.sizeSize,
    index.int32Size, index.int64Size. lia.
Qed.

(** With more fuel than the file has bytes the result of [readIndex] does
    not depend on the fuel: the loop ends by reaching the end of the file
    or an error, as in the source. *)
Lemma readIndex_fuel fuel1 fuel2 t bs mk :
  (length bs < fuel1)%nat → (length bs < fuel2)%nat →
  index.readIndex fuel1 t bs mk = index.readIndex fuel2 t bs mk.
Proof.
  revert fuel2 t bs. induction fuel1 as [|f1 IH]; intros fuel2 t bs H1 H2; [lia|].
  destruct fuel2 as [|f2]; [lia|]. simpl.
  destruct (index.readKey bs mk) as [[key bs1]|e|] eqn:Ek; [|done|done].
  apply readKey_length in Ek.
  destruct (index.readItem bs1) as [[item bs2]|e|] eqn:Ei; [|done|done].
  apply readItem_length in Ei. apply IH; lia.
Qed.

(* --------------------------------------------------------------------- *)
(** ** The files the engine makes are segment files *)
(* --------------------------------------------------------------------- *)

(** The value of a decimal numeral read after [acc]. *)
Fixpoint uint_value (d : Decimal.uint) (acc : Z) : Z :=
  match d with
  | Decimal.Nil => acc
  | Decimal.D0 d => uint_value d (10 * acc)
  | Decimal.D1 d => uint_value d (10 * acc + 1)
  | Decimal.D2 d => uint_value d (10 * acc + 2)
  | Decimal.D3 d => uint_value d (10 * acc + 3)
  | Decimal.D4 d => uint_value d (10 * acc + 4)
  | Decimal.D5 d => uint_value d (10 * acc + 5)
  | Decimal.D6 d => uint_value d (10 * acc + 6)
  | Decimal.D7 d => uint_value d (10 * acc + 7)
  | Decimal.D8 d => uint_value d (10 * acc + 8)
  | Decimal.D9 d => uint_value d (10 * acc + 9)
  end.

Lemma uint_value_acc d acc :
  Z.pos (Pos.of_uint_acc d acc) = uint_value d (Z.pos acc).
Proof.
  revert acc. induction d; intros acc; simpl; [done|..];
    rewrite IHd; f_equal; lia.
Qed.

Lemma uint_value_of_uint d : Z.of_N (Pos.of_uint d) = uint_value d 0.
Proof.
  induction d; simpl; [done|done|..]; rewrite uint_value_acc; f_equal.
Qed.

Lemma uint_value_to_uint n : uint_value (N.to_uint n) 0 = Z.of_N n.
Proof.
  rewrite <- uint_value_of_uint. f_equal. apply DecimalN.Unsigned.of_to.
Qed.

Lemma uint_value_ge d acc : 0 <= acc → acc <= uint_value d acc.
Proof.
  revert acc. induction d; intros acc Hacc; simpl; [lia|..];
    (etrans; [|apply IHd]; lia).
Qed.

Lemma parseUintLoop_uint d acc :
  0 <= acc → uint_value d acc < two64 →
  strconv.parseUintLoop (NilEmpty.string_of_uint d) acc = Ok (uint_value d acc).
Proof.
  revert acc. unfold two64.
  induction d; intros acc Hacc Hv; [done|..];
    cbn [NilEmpty.string_of_uint strconv.parseUintLoop uint_value] in *;
    match goal with
    | |- context [strconv.digit ?c] =>
        let d := eval vm_compute in (strconv.digit c) in
        change (strconv.digit c) with d
    end; cbv iota;
    change ((two64 - 1) `div` 10 + 1) with 1844674407370955162;
    change (two64 - 1) with 18446744073709551615;
    match type of Hv with
    | uint_value _ ?n1 < _ =>
        pose proof (uint_value_ge d n1 ltac:(lia));
        destruct (Z.geb_spec acc 1844674407370955162); [lia|];
        replace (acc * 10 + _) with n1 by lia;
        destruct (Z.gtb_spec n1 18446744073709551615); [lia|];
        apply IHd; lia
    end.
Qed.

Lemma parseUintLoop_decimal n :
  Z.of_N n < two64 →
  strconv.parseUintLoop (fmt.decimal n) 0 = Ok (Z.of_N n)
  ∧ fmt.decimal n ≠ ""%string.
Proof.
  intros Hn. unfold fmt.decimal.
  assert (Hnil : N.to_uint n ≠ Decimal.Nil).
  { destruct n; [done|]. apply DecimalPos.Unsigned.to_uint_nonnil. }
  assert (Heq : NilZero.string_of_uint (N.to_uint n)
                = NilEmpty.string_of_uint (N.to_uint n)).
  { by destruct (N.to_uint n). }
  rewrite Heq. split.
  - rewrite parseUintLoop_uint; rewrite ?uint_value_to_uint; [done|lia|done].
  - by destruct (N.to_uint n).
Qed.

Lemma parseUintLoop_zeros k s :
  strconv.parseUintLoop (fmt.zeros k +:+ s) 0 = strconv.parseUintLoop s 0.
Proof.
  unfold fmt.zeros. induction k as [|k IH]; [done|].
  simpl. exact IH.
Qed.

Lemma digit_not_sign c d :
  strconv.digit c = Some d →
  c ≠ "+"%char ∧ c ≠ "-"%char ∧ c ≠ "/"%char ∧ c ≠ "."%char.
Proof. intros H. split_and!; intros ->; vm_compute in H; discriminate H. Qed.

Lemma ParseInt_of_loop s v :
  s ≠ ""%string → strconv.parseUintLoop s 0 = Ok v → 0 <= v < two63 →
  strconv.ParseInt s = Ok v.
Proof.
  intros Hs Hloop Hv. destruct s as [|c s]; [done|].
  unfold strconv.ParseInt.
  assert (Hc : ∃ d, strconv.digit c = Some d).
  { simpl in Hloop. destruct (strconv.digit c); [by eexists|done]. }
  destruct Hc as [d Hd]. apply digit_not_sign in Hd as (Hp & Hm & _).
  rewrite !bool_decide_eq_false_2 by done.
  unfold strconv.ParseUint. rewrite Hloop. cbn [negb andb].
  destruct (Z.geb_spec v two63); [lia|]. done.
Qed.

Lemma zeros_append_nonempty k s : s ≠ ""%string → fmt.zeros k +:+ s ≠ ""%string.
Proof. intros Hs. unfold fmt.zeros. by destruct k. Qed.

Lemma ParseInt_Sprintf_0d width id :
  0 <= id <= MaxInt →
  strconv.ParseInt (fmt.Sprintf_0d width id) = Ok id.
Proof.
  intros Hid. unfold fmt.Sprintf_0d, MaxInt, two63 in *.
  destruct (Z.ltb_spec id 0); [lia|].
  assert (Hn : Z.of_N (Z.to_N (Z.abs id)) = id) by lia.
  destruct (parseUintLoop_decimal (Z.to_N (Z.abs id))) as [Hloop Hne].
  { rewrite Hn. unfold two64. lia. }
  rewrite Hn in Hloop.
  apply ParseInt_of_loop.
  - by apply zeros_append_nonempty.
  - by rewrite parseUintLoop_zeros.
  - unfold two63. lia.
Qed.

Lemma parseUintLoop_digits s n v :
  strconv.parseUintLoop s n = Ok v →
  Forall (λ c, is_Some (strconv.digit c)) (list_ascii_of_string s).
Proof.
  revert n. induction s as [|c s IH]; intros n; simpl; [constructor|].
  destruct (strconv.digit c) as [d|] eqn:Hd; [|done].
  destruct (n >=? _); [done|]. destruct (_ >? _); [done|].
  intros H. constructor; [by eexists|by eapply IH].
Qed.

Lemma list_ascii_of_string_append a b :
  list_ascii_of_string (a +:+ b) = list_ascii_of_string a ++ list_ascii_of_string b.
Proof. induction a as [|c a IH]; simpl; [done|by rewrite IH]. Qed.

Lemma append_assoc a b c : (a +:+ b) +:+ c = a +:+ b +:+ c.
Proof.
  induction a as [|x a IH]; [done|].
  change (String x ((a +:+ b) +:+ c) = String x (a +:+ b +:+ c)).
  by rewrite IH.
Qed.

Lemma length_append a b :
  String.length (a +:+ b) = (String.length a + String.length b)%nat.
Proof. induction a as [|c a IH]; simpl; [done|by rewrite IH]. Qed.

Lemma substring_append_r a b m :
  substring (String.length a) m (a +:+ b) = substring 0 m b.
Proof. induction a as [|c a IH]; simpl; [done|exact IH]. Qed.

Lemma substring_append_l a b :
  substring 0 (String.length a) (a +:+ b) = a.
Proof.
  induction a as [|c a IH]; simpl; [by destruct b|by rewrite IH].
Qed.

Lemma TrimSuffix_append s suffix :
  substring 0 (String.length suffix) suffix = suffix →
  strings.TrimSuffix (s +:+ suffix) suffix = s.
Proof.
  intros Hsuf. unfold strings.TrimSuffix, strings.HasSuffix.
  rewrite length_append.
  replace (String.length s + String.length suffix - String.length suffix)%nat
    with (String.length s) by lia.
  rewrite substring_append_r, Hsuf, bool_decide_eq_true_2 by done.
  replace (String.length suffix <=? String.length s + String.length suffix)%nat
    with true by (symmetry; apply Nat.leb_le; lia).
  cbn [andb]. apply substring_append_l.
Qed.

Lemma dropSeps_head c l : c ≠ filepath.sep → filepath.dropSeps (c :: l) = c :: l.
Proof. intros H. simpl. by rewrite bool_decide_eq_false_2. Qed.

Lemma untilSep_app l rest :
  Forall (λ c, c ≠ filepath.sep) l →
  filepath.untilSep (l ++ filepath.sep :: rest) = l.
Proof.
  induction 1 as [|c l Hc _ IH]; [reflexivity|].
  simpl. by rewrite bool_decide_eq_false_2, IH.
Qed.

Lemma Base_join path name :
  name ≠ ""%string →
  Forall (λ c, c ≠ filepath.sep) (list_ascii_of_string name) →
  filepath.Base (path +:+ "/" +:+ name) = name.
Proof.
  intros Hne Hname. unfold filepath.Base.
  assert (Hl : list_ascii_of_string (path +:+ "/" +:+ name)
               = list_ascii_of_string path ++ filepath.sep :: list_ascii_of_string name).
  { by rewrite !list_ascii_of_string_append. }
  destruct (path +:+ "/" +:+ name) as [|c0 s0] eqn:Hs.
  { destruct path; discriminate Hs. }
  rewrite Hl, rev_app_distr. simpl rev. rewrite <- app_assoc. simpl app.
  destruct (rev (list_ascii_of_string name)) as [|x r] eqn:Hr.
  { apply (f_equal (@length _)) in Hr. rewrite length_rev in Hr.
    destruct name; [done|discriminate Hr]. }
  assert (Hx : Forall (λ c, c ≠ filepath.sep) (x :: r)).
  { rewrite <- Hr. by apply Forall_rev. }
  rewrite <- app_comm_cons, dropSeps_head by (by inversion Hx).
  apply Forall_cons in Hx as [Hx1 Hx2].
  cbn [filepath.untilSep]. rewrite bool_decide_eq_false_2 by done.
  rewrite untilSep_app by done.
  rewrite <- Hr, rev_involutive. apply string_of_list_ascii_of_string.
Qed.

Lemma Ext_data s : filepath.Ext (s +:+ ".data") = ".data"%string.
Proof.
  unfold filepath.Ext. rewrite list_ascii_of_string_append, rev_app_distr.
  reflexivity.
Qed.

Lemma Sprintf_0d_digits width id :
  0 <= id <= MaxInt →
  strconv.parseUintLoop (fmt.Sprintf_0d width id) 0 = Ok id
  ∧ fmt.Sprintf_0d width id ≠ ""%string.
Proof.
  intros Hid. unfold fmt.Sprintf_0d, MaxInt, two63 in *.
  destruct (Z.ltb_spec id 0); [lia|].
  assert (Hn : Z.of_N (Z.to_N (Z.abs id)) = id) by lia.
  destruct (parseUintLoop_decimal (Z.to_N (Z.abs id))) as [Hloop Hne].
  { rewrite Hn. unfold two64. lia. }
  rewrite Hn in Hloop. split.
  - by rewrite parseUintLoop_zeros.
  - by apply zeros_append_nonempty.
Qed.

(** The file of a segment, as [NewDatafile] names it, is a segment file
    name for [ParseIds], wherever the directory is. *)
Lemma defaultDatafileFilename_segment path id :
  0 <= id <= MaxInt →
  segmentFileName (path +:+ "/" +:+ data.defaultDatafileFilename id).
Proof.
  intros Hid. destruct (Sprintf_0d_digits 9 id Hid) as [Hloop Hne].
  exists id. split; [lia|]. unfold parseId, data.defaultDatafileFilename.
  set (ds := fmt.Sprintf_0d 9 id) in *.
  assert (Hbase : filepath.Base (path +:+ "/" +:+ ds +:+ ".data") = ds +:+ ".data").
  { apply Base_join.
    - by destruct ds.
    - rewrite list_ascii_of_string_append. apply Forall_app. split.
      + apply parseUintLoop_digits in Hloop.
        eapply Forall_impl; [exact Hloop|]. intros c [d Hd].
        by apply digit_not_sign in Hd as (_ & _ & ? & _).
      + repeat constructor; discriminate. }
  assert (Hext : filepath.Ext (path +:+ "/" +:+ ds +:+ ".data") = ".data"%string).
  { replace (path +:+ "/" +:+ ds +:+ ".data")
      with ((path +:+ "/" +:+ ds) +:+ ".data"); [apply Ext_data|].
    by rewrite append_assoc. }
  rewrite Hbase, Hext, TrimSuffix_append by done.
  apply ParseInt_of_loop; [done|done|]. unfold MaxInt, two63 in *. lia.
Qed.

(* ===================================================================== *)
(** * Further properties of the code *)
(* ===================================================================== *)

(* --------------------------------------------------------------------- *)
(** ** Codec *)
(* --------------------------------------------------------------------- *)

(** X1. What [Encode] appends to a file is read back by [DecodeEntry] as
    the entry that was encoded, for a non-empty key and sizes within the
    limits of the decoder; the length [Encode] returns is that of the
    bytes appended (as an [int64]). *)
Theorem Encode_DecodeEntry_roundtrip (enc : codec.Encoder) (key value : bytes)
    (w : World) (n : Z) (enc' : codec.Encoder) (w' : World) (mk mv : Z) :
  0 < len key <= mk → mk < two32 →
  len value <= mv → mv < two64 →
  codec.Encode enc (NewEntry key value) w = (Ok n, enc', w') →
  ∃ bs, files w' !! codec.wr_name enc
        = Some (default [] (files w !! codec.wr_name enc) ++ bs)
        ∧ n = wrap64 (len bs)
        ∧ codec.DecodeEntry bs zeroEntry mk mv = (Ok (), NewEntry key value).
Proof.
  intros Hk Hmk Hv Hmv HE.
  apply Encode_inv in HE as (_ & _ & _ & Hok & _).
  destruct (Hok n eq_refl) as (_ & _ & _ & -> & Hf & _).
  exists (codec.encoded (NewEntry key value)). split_and!.
  - by rewrite Hf, lookup_insert_eq.
  - by rewrite length_encoded.
  - by rewrite DecodeEntry_encoded.
Qed.

Module X1_example.

Definition enc : codec.Encoder := codec.mkEncoder "000000000.data" false None.
Definition step := codec.Encode enc (NewEntry (B "mykey") (B "myvalue")) Examples.empty.

End X1_example.

Lemma Encode_DecodeEntry_roundtrip_witness :
  ∃ bs, files X1_example.step.2 !! codec.wr_name X1_example.enc
        = Some (default [] (files Examples.empty !! codec.wr_name X1_example.enc) ++ bs)
        ∧ 28 = wrap64 (len bs)
        ∧ codec.DecodeEntry bs zeroEntry 64 65536
          = (Ok (), NewEntry (B "mykey") (B "myvalue")).
Proof.
  apply (Encode_DecodeEntry_roundtrip X1_example.enc (B "mykey") (B "myvalue")
           Examples.empty 28 X1_example.step.1.2 X1_example.step.2 64 65536).
  - vm_compute. split; [reflexivity|intros H; discriminate H].
  - reflexivity.
  - vm_compute. intros H; discriminate H.
  - reflexivity.
  - vm_compute. reflexivity.
Defined.

(* --------------------------------------------------------------------- *)
(** ** Admission and deletion *)
(* --------------------------------------------------------------------- *)

(** X2. A key longer than [MaxKeySize], or a value longer than
    [MaxValueSize], is refused by [Put] before anything is done: the
    engine and the files are as before.  The error is [ErrKeyTooLarge]
    when the key is too long (whatever the value), [ErrValueTooLarge]
    otherwise (lengths that fit [uint32] and [uint64]). *)
Theorem Put_rejects_oversize (b : Bitcask) (key value : bytes) (w : World) :
  len key < two32 → len value < two64 →
  len key > MaxKeySize (b_cfg b) ∨ len value > MaxValueSize (b_cfg b) →
  Put b key value w
  = (Err (if len key >? MaxKeySize (b_cfg b)
          then ErrKeyTooLarge else ErrValueTooLarge), b, w).
Proof.
  intros Hk Hv Hbig.
  destruct (Z.gtb_spec (len key) (MaxKeySize (b_cfg b))) as [Hgt|Hle].
  - apply Put_key_too_large; lia.
  - apply Put_value_too_large; lia.
Qed.

Lemma Put_rejects_oversize_witness :
  Put C9_example.b C9_example.longKey (B "v") C9_example.w
  = (Err (if len C9_example.longKey >? MaxKeySize (b_cfg C9_example.b)
          then ErrKeyTooLarge else ErrValueTooLarge),
     C9_example.b, C9_example.w).
Proof.
  apply (Put_rejects_oversize C9_example.b C9_example.longKey (B "v") C9_example.w).
  - vm_compute. reflexivity.
  - vm_compute. reflexivity.
  - left. vm_compute. reflexivity.
Defined.

(** X3. After a [Delete] that returned nil the key is out of the
    directory: [Has] is false and [Get] returns [ErrKeyNotFound] without
    touching the world; every other key keeps its directory entry. *)
Theorem Delete_then_Get (b : Bitcask) (key : bytes) (w : World)
    (b' : Bitcask) (w' : World) :
  Delete b key w = (Ok (), b', w') →
  Has b' key = false
  ∧ Get b' key w' = (Err ErrKeyNotFound, w')
  ∧ ∀ k, k ≠ key → b_t b' !! k = b_t b !! k.
Proof.
  unfold Delete. destruct (put b key [] w) as [[r b1] w1] eqn:Ep.
  apply put_keeps_directory in Ep as (Ht & _).
  destruct r as [[off n]|e|]; [|done|done]. intros [= <- <-].
  unfold Has, Get. simpl. rewrite lookup_delete_eq. split_and!; try done.
  intros k Hk. by rewrite lookup_delete_ne, Ht.
Qed.

Module X3_example.

Definition put1 := Put C9_example.b (B "k") (B "v") C9_example.w.
Definition del := Delete put1.1.2 (B "k") put1.2.

End X3_example.

Lemma Delete_then_Get_witness :
  Has X3_example.del.1.2 (B "k") = false
  ∧ Get X3_example.del.1.2 (B "k") X3_example.del.2
    = (Err ErrKeyNotFound, X3_example.del.2)
  ∧ ∀ k, k ≠ B "k" → b_t X3_example.del.1.2 !! k = b_t X3_example.put1.1.2 !! k.
Proof.
  apply (Delete_then_Get X3_example.put1.1.2 (B "k") X3_example.put1.2).
  vm_compute. reflexivity.
Defined.

(* --------------------------------------------------------------------- *)
(** ** Data files *)
(* --------------------------------------------------------------------- *)

Lemma readBytes_length d offset size w b w' :
  0 <= size → data.readBytes d offset size w = (Ok b, w') → len b = size.
Proof.
  intros Hs. unfold data.readBytes, os.ReadAt.
  assert (Ht : ∀ l : bytes, (len (take (Z.to_nat size) l) <? size) = false →
                 len (take (Z.to_nat size) l) = size).
  { intros l Hl. apply Z.ltb_ge in Hl. unfold len in *.
    rewrite length_take in *. lia. }
  destruct (data.d_w d).
  - destruct (offset <? 0); [done|].
    destruct (Z.eqb_spec size 0) as [->|Hne]; [by intros [= <- _]|].
    destruct (f_closed (data.d_r d)); [done|].
    destruct (os.fault w) as [[k|] w1]; [done|].
    destruct (len _ <? size) eqn:El; [done|]. intros [= <- _]. by apply Ht.
  - destruct (data.d_ra d) as [view|]; [|done].
    destruct (_ || _); [done|].
    destruct (len _ <? size) eqn:El; [done|]. intros [= <- _]. by apply Ht.
Qed.

(** X4. [ReadAt] asked for fewer than the twelve bytes of a record prefix
    panics as soon as the bytes can be read: [DecodeEntry] slices the
    prefix off a buffer that is too short. *)
Theorem ReadAt_short_record_panics (d : data.datafile) (offset size : Z)
    (w : World) (b : bytes) (w' : World) :
  0 <= size < 12 →
  data.readBytes d offset size w = (Ok b, w') →
  data.ReadAt d offset size w = (Panic, w').
Proof.
  intros Hs Hr. unfold data.ReadAt. rewrite Hr.
  apply readBytes_length in Hr; [|lia].
  destruct (Z.ltb_spec size 0); [lia|].
  rewrite Hr, Z.eqb_refl. simpl.
  unfold codec.DecodeEntry, codec.getKeyValueSizes, codec.keySize, codec.valueSize.
  rewrite Hr. by destruct (Z.ltb_spec size (4 + 8)); [|lia].
Qed.

Module X4_example.

Definition put1 := Put C9_example.b (B "k") (B "v") C9_example.w.
Definition d : data.datafile := b_curr put1.1.2.
Definition w : World := put1.2.

End X4_example.

Lemma ReadAt_short_record_panics_witness :
  data.ReadAt X4_example.d 0 5 X4_example.w = (Panic, X4_example.w).
Proof.
  apply (ReadAt_short_record_panics X4_example.d 0 5 X4_example.w
           (take 5 (codec.encoded (NewEntry (B "k") (B "v"))))).
  - lia.
  - vm_compute. reflexivity.
Defined.

(** X5. A [Write] that fails leaves the offset of the data file where it
    was, and the data file refuses every later [Write] without touching
    the files: a read-only data file has no writer, and the buffered
    writer of a writable one keeps its first error. *)
Theorem Write_failure_is_sticky (d : data.datafile) (e : Entry) (w : World)
    (err : error) (d' : data.datafile) (w' : World) :
  data.Write d e w = (Err err, d', w') →
  data.Size d' = data.Size d
  ∧ ∀ e2 w2, ∃ err2, data.Write d' e2 w2 = (Err err2, d', w2).
Proof.
  unfold data.Write, data.Size.
  destruct (data.d_w d) as [enc|] eqn:Ew.
  - destruct (codec.Encode enc _ w) as [[r enc1] w1] eqn:EE.
    apply Encode_inv in EE as (_ & _ & _ & _ & Herr & _).
    destruct r as [n|err1|]; [done| |done].
    intros [= <- <- <-]. split; [done|].
    destruct (Herr err1 eq_refl) as [err0 Herr0].
    intros e2 w2. exists (Wrapped err0). simpl.
    unfold codec.Encode. rewrite Herr0. by destruct d.
  - intros [= <- <- <-]. split; [done|].
    intros e2 w2. exists errReadOnly. by rewrite Ew.
Qed.

Module X5_example.

(** The first write of an engine on a disk that fails after five bytes. *)
Definition w0 : World := mkWorld (files C9_example.w) [Some 5%nat] [].
Definition step := data.Write (b_curr C9_example.b) (NewEntry (B "k") (B "v")) w0.

End X5_example.

Lemma Write_failure_is_sticky_witness :
  data.Size X5_example.step.1.2 = data.Size (b_curr C9_example.b)
  ∧ ∀ e2 w2, ∃ err2,
      data.Write X5_example.step.1.2 e2 w2 = (Err err2, X5_example.step.1.2, w2).
Proof.
  apply (Write_failure_is_sticky (b_curr C9_example.b) (NewEntry (B "k") (B "v"))
           X5_example.w0 (Wrapped EIO) X5_example.step.1.2 X5_example.step.2).
  vm_compute. reflexivity.
Defined.

(** X6. In every state reached from a successful [Open] without [Close],
    the active data file has a writer on the file it reads from, and as
    long as no write has failed and the writer is open, [Size] is the
    length of that file (as an [int64]). *)
Theorem active_size_is_file_length (b : Bitcask) (w : World) :
  reachable notClose b w →
  ∃ enc, data.d_w (b_curr b) = Some enc
    ∧ codec.wr_name enc = data.Name (b_curr b)
    ∧ (codec.wr_err enc = None → codec.wr_closed enc = false →
       ∃ c, files w !! data.Name (b_curr b) = Some c
            ∧ data.Size (b_curr b) = wrap64 (len c)).
Proof.
  intros Hr. apply reachable_engine_ok in Hr.
  destruct Hr as (enc & Hw & Hn & _ & _ & _ & Hlen).
  exists enc. unfold data.Name, data.Size. rewrite <- Hn. by split_and!.
Qed.

Lemma active_size_is_file_length_witness :
  ∃ enc, data.d_w (b_curr C7_example.b') = Some enc
    ∧ codec.wr_name enc = data.Name (b_curr C7_example.b')
    ∧ (codec.wr_err enc = None → codec.wr_closed enc = false →
       ∃ c, files C7_example.w' !! data.Name (b_curr C7_example.b') = Some c
            ∧ data.Size (b_curr C7_example.b') = wrap64 (len c)).
Proof.
  apply (active_size_is_file_length C7_example.b' C7_example.w').
  apply (reach_step notClose (OpPut (B "hello") (B "world")) C7_example.b C7_example.w).
  - apply (reach_open notClose "/tmp/db"%string Examples.cfg Examples.empty).
    vm_compute. reflexivity.
  - intros H; discriminate H.
Defined.

(* --------------------------------------------------------------------- *)
(** ** The log is append-only *)
(* --------------------------------------------------------------------- *)

(** Every file that exists keeps its content as a prefix. *)
Definition grows (w w' : World) : Prop :=
  ∀ n c, files w !! n = Some c → ∃ s, files w' !! n = Some (c ++ s).

#[global] Instance grows_refl : Reflexive grows.
Proof. intros w n c H. exists []. by rewrite app_nil_r. Qed.

#[global] Instance grows_trans : Transitive grows.
Proof.
  intros w1 w2 w3 H1 H2 n c H.
  destruct (H1 n c H) as [s1 Hs1]. destruct (H2 n _ Hs1) as [s2 Hs2].
  exists (s1 ++ s2). by rewrite app_assoc.
Qed.

Lemma grows_same w w' : files w' = files w → grows w w'.
Proof. intros H n c Hc. exists []. by rewrite H, app_nil_r. Qed.

Lemma preserves_grows w w' : preserves w w' → grows w w'.
Proof. intros H n c Hc. exists []. rewrite app_nil_r. by apply H. Qed.

Lemma os_Write_grows name data w r w' :
  os.Write name data w = (r, w') → grows w w'.
Proof.
  intros H. apply os_Write_inv in H as (written & _ & Hf & _).
  intros n c Hc. rewrite Hf.
  destruct (decide (n = name)) as [->|Hne].
  - exists written. by rewrite lookup_insert_eq, Hc.
  - exists []. by rewrite lookup_insert_ne, app_nil_r.
Qed.

Lemma Encode_grows enc entry w r enc' w' :
  codec.Encode enc entry w = (r, enc', w') → grows w w'.
Proof.
  unfold codec.Encode. destruct (codec.wr_err enc); [by intros [= _ _ <-]|].
  destruct (codec.wr_closed enc); [by intros [= _ _ <-]|].
  destruct (os.Write _ _ w) as [r1 w1] eqn:Ew. apply os_Write_grows in Ew.
  by destruct r1; intros [= _ _ <-].
Qed.

Lemma Write_grows d e w r d' w' :
  data.Write d e w = (r, d', w') → grows w w'.
Proof.
  unfold data.Write. destruct (data.d_w d) as [enc|]; [|by intros [= _ _ <-]].
  destruct (codec.Encode enc _ w) as [[r1 enc1] w1] eqn:EE.
  apply Encode_grows in EE. by destruct r1; intros [= _ _ <-].
Qed.

Lemma put_grows b key value w r b' w' :
  put b key value w = (r, b', w') → grows w w'.
Proof.
  rewrite put_eq. destruct (beforeWrite b w) as [[r1 b1] w1] eqn:Eb.
  assert (Hb : grows w w1).
  { revert Eb. unfold beforeWrite.
    destruct (data.Size (b_curr b) >? MaxDatafileSize (b_cfg b)).
    - intros Er. apply rollover_inv in Er as (_ & _ & _ & _ & _ & Hp & _).
      by apply preserves_grows.
    - by intros [= _ _ <-]. }
  destruct r1 as [[]|e|]; [|by intros [= _ _ <-]..].
  destruct (data.Write _ _ w1) as [[rw c] w2] eqn:Ew.
  apply Write_grows in Ew. intros [= _ _ <-]. by etrans.
Qed.

Lemma Put_grows b key value w : grows w (Put b key value w).2.
Proof.
  unfold Put. destruct (_ >? _); [done|]. destruct (_ >? _); [done|].
  destruct (put b key value w) as [[r b1] w1] eqn:Ep. apply put_grows in Ep.
  by destruct r as [[off n]|e|].
Qed.

Lemma Delete_grows b key w : grows w (Delete b key w).2.
Proof.
  unfold Delete.
  destruct (put b key [] w) as [[r b1] w1] eqn:Ep. apply put_grows in Ep.
  by destruct r as [[off n]|e|].
Qed.

Lemma deleteKeys_grows keys b w : grows w (deleteKeys b keys w).2.
Proof.
  revert b w. induction keys as [|key keys IH]; intros b w; simpl; [done|].
  destruct (put b key [] w) as [[r b1] w1] eqn:Ep. apply put_grows in Ep.
  destruct r as [[off n]|e|]; [|done..]. etrans; [done|apply IH].
Qed.

Lemma DeleteAll_grows b w : grows w (DeleteAll b w).2.
Proof.
  unfold DeleteAll. pose proof (deleteKeys_grows (ForEach_keys (b_t b)) b w) as H.
  destruct (deleteKeys b _ w) as [[r b1] w1]. by destruct r.
Qed.

Lemma writeNodes_files name t keys w r w' :
  index.writeNodes name t keys w = (r, w') →
  ∀ n, n ≠ name → files w' !! n = files w !! n.
Proof.
  assert (HW : ∀ data w r w', os.Write name data w = (r, w') →
                 ∀ n, n ≠ name → files w' !! n = files w !! n).
  { intros data w0 r0 w1 H n Hn. apply os_Write_inv in H as (wr & _ & -> & _).
    by rewrite lookup_insert_ne. }
  revert w. induction keys as [|key keys IH]; intros w; simpl.
  - by intros [= _ <-].
  - unfold index.writeKey, index.writeItem.
    destruct (os.Write name _ w) as [r1 w1] eqn:E1.
    pose proof (HW _ _ _ _ E1) as H1.
    destruct r1 as [[]|e|]; [|intros [= _ <-]; exact H1..].
    destruct (os.Write name key w1) as [r2 w2] eqn:E2.
    pose proof (HW _ _ _ _ E2) as H2.
    destruct r2 as [[]|e|];
      [|intros [= _ <-] n Hn; by rewrite H2, H1..].
    destruct (os.Write name _ w2) as [r3 w3] eqn:E3.
    pose proof (HW _ _ _ _ E3) as H3.
    destruct r3 as [[]|e|];
      [|intros [= _ <-] n Hn; by rewrite H3, H2, H1..].
    intros H n Hn. by rewrite (IH _ H), H3, H2, H1.
Qed.

Lemma Save_files t name w r w' :
  index.Save t name w = (r, w') →
  ∀ n, n ≠ name → files w' !! n = files w !! n.
Proof.
  unfold index.Save, index.writeIndex.
  destruct (os.OpenFile_trunc name w) as [r0 w0] eqn:E0.
  assert (H0 : ∀ n, n ≠ name → files w0 !! n = files w !! n).
  { apply os_OpenFile_trunc_inv in E0 as (_ & [->| ->]); [done|].
    intros n Hn. by rewrite lookup_insert_ne. }
  destruct r0 as [[]|e|]; [|intros [= _ <-]; exact H0..].
  destruct (index.writeNodes name t _ w0) as [r1 w1] eqn:E1.
  pose proof (writeNodes_files _ _ _ _ _ _ E1) as H1.
  assert (H2 : ∀ r2 w2,
            match r1 with
            | Ok _ => os.Sync name w1
            | _ => (r1, w1)
            end = (r2, w2) → files w2 = files w1).
  { intros r2 w2. destruct r1 as [[]|e|]; [|by intros [= _ <-]..].
    intros H. by apply os_Sync_inv in H as (_ & ? & _). }
  destruct (match r1 with Ok _ => _ | _ => _ end) as [r2 w2].
  specialize (H2 _ _ eq_refl).
  destruct (os.Close name w2) as [r3 w3] eqn:E3.
  apply os_Close_inv in E3 as (_ & H3 & _).
  intros [= _ <-] n Hn. by rewrite H3, H2, H1, H0.
Qed.

Lemma closeAll_files ids m w r m' w' :
  closeAll m ids w = (r, m', w') → files w' = files w.
Proof.
  revert m w. induction ids as [|id ids IH]; intros m w; simpl.
  - by intros [= _ _ <-].
  - destruct (m !! id) as [f|]; [|apply IH].
    destruct (data.Close f w) as [[rc f1] w1] eqn:Ec.
    apply data_Close_inv in Ec as (_ & _ & _ & _ & _ & _ & Hf & _).
    destruct rc as [[]|e|]; [|by intros [= _ _ <-]..].
    intros H. apply IH in H. by rewrite H.
Qed.

Lemma Close_files b w :
  ∀ n, n ≠ "index"%string → files (Close b w).2 !! n = files w !! n.
Proof.
  unfold Close. destruct (index.Save _ _ w) as [r0 w0] eqn:E0.
  pose proof (Save_files _ _ _ _ _ E0) as H0.
  destruct r0 as [[]|e|]; [|exact H0..].
  destruct (closeAll _ _ w0) as [[r1 m1] w1] eqn:E1.
  apply closeAll_files in E1.
  destruct r1 as [[]|e|]; [|intros n Hn; simpl; by rewrite E1, H0..].
  destruct (data.Close (b_curr b) w1) as [[r2 c2] w2] eqn:E2.
  apply data_Close_inv in E2 as (_ & _ & _ & _ & _ & _ & Hf & _).
  intros n Hn. simpl. by rewrite Hf, E1, H0.
Qed.

(** X7. The log is append-only: whatever an operation of the engine
    returns, a file that existed before still exists afterwards and its
    old content is a prefix of the new one.  The only exception is the
    snapshot file [index], which [Close] rewrites. *)
Theorem log_is_append_only (op : Op) (b : Bitcask) (w : World)
    (n : string) (c : bytes) :
  op ≠ OpClose ∨ n ≠ "index"%string →
  files w !! n = Some c →
  ∃ s, files (exec op b w).2 !! n = Some (c ++ s).
Proof.
  intros Hop Hc.
  assert (Hsame : ∀ w', files w' = files w → ∃ s, files w' !! n = Some (c ++ s)).
  { intros w' Hw. exists []. by rewrite Hw, app_nil_r. }
  destruct op; simpl.
  - by apply Put_grows.
  - apply Hsame, Get_files.
  - by apply Hsame.
  - by apply Delete_grows.
  - by apply DeleteAll_grows.
  - by apply Hsame.
  - apply Hsame. unfold bitcask.Sync.
    destruct (data.Sync (b_curr b) w) as [r w1] eqn:Es.
    by apply data_Sync_inv in Es as (? & _).
  - destruct Hop as [?|Hn]; [done|].
    exists []. by rewrite Close_files, app_nil_r.
Qed.

Lemma log_is_append_only_witness :
  ∃ s, files (exec (OpPut (B "k") (B "v")) C7_example.b' C7_example.w').2
         !! "000000000.data"%string
       = Some (codec.encoded (NewEntry (B "hello") (B "world")) ++ s).
Proof.
  apply (log_is_append_only (OpPut (B "k") (B "v")) C7_example.b' C7_example.w'
           "000000000.data"%string
           (codec.encoded (NewEntry (B "hello") (B "world")))).
  - left. intros H; discriminate H.
  - vm_compute. reflexivity.
Defined.

(* --------------------------------------------------------------------- *)
(** ** The snapshot of the key directory *)
(* --------------------------------------------------------------------- *)

(** The bytes [writeKey] and [writeItem] write for one node. *)
Definition nodeBytes (key : bytes) (i : Item) : bytes :=
  BigEndian.PutUint32 (u32 (len key)) ++ key ++
  BigEndian.PutUint32 (u32 (FileID i)) ++
  BigEndian.PutUint64 (u64 (ItemOffset i)) ++
  BigEndian.PutUint64 (u64 (Size i)).

Definition itemOf (t : Tree) (key : bytes) : Item :=
  default (mkItem 0 0 0) (t !! key).

Definition snapshotBytes (t : Tree) (keys : list bytes) : bytes :=
  concat (map (λ key, nodeBytes key (itemOf t key)) keys).

(** What a snapshot can hold: keys within [maxKeySize], file ids that fit
    [uint32], offsets and sizes that are [int64]. *)
Definition item_fits (i : Item) : Prop :=
  0 <= FileID i < two32 ∧ in_int64 (ItemOffset i) ∧ in_int64 (Size i).

Definition snapshot_fits (maxKeySize : Z) (t : Tree) : Prop :=
  map_Forall (λ key i, len key <= maxKeySize ∧ item_fits i) t.

Lemma wrap64_u64 z : in_int64 z → wrap64 (u64 z) = z.
Proof.
  unfold in_int64, wrap64, u64, two63, two64. intros H.
  replace (z mod 2 ^ 64 + 2 ^ 63) with ((z + 2 ^ 63) + 1 * 2 ^ 64 - 2 ^ 64 + (z mod 2 ^ 64 - z)) by lia.
  destruct (Z.lt_ge_cases z 0).
  - replace (z mod 2 ^ 64) with (z + 2 ^ 64).
    2:{ symmetry. rewrite <- (Z_mod_plus_full z 1 (2 ^ 64)).
        apply Z.mod_small. lia. }
    replace (z + 2 ^ 63 + 1 * 2 ^ 64 - 2 ^ 64 + (z + 2 ^ 64 - z))
      with (z + 2 ^ 63 + 1 * 2 ^ 64) by lia.
    rewrite Z_mod_plus_full, Z.mod_small; lia.
  - rewrite (Z.mod_small z) by lia.
    replace (z + 2 ^ 63 + 1 * 2 ^ 64 - 2 ^ 64 + (z - z)) with (z + 2 ^ 63) by lia.
    rewrite Z.mod_small; lia.
Qed.

Lemma writeNodes_ok name t keys w w' c :
  index.writeNodes name t keys w = (Ok (), w') →
  files w !! name = Some c →
  files w' !! name = Some (c ++ snapshotBytes t keys).
Proof.
  assert (HW : ∀ data w w' c, os.Write name data w = (Ok (), w') →
            files w !! name = Some c →
            files w' !! name = Some (c ++ data)).
  { intros data w0 w1 c0 H Hc.
    apply os_Write_inv in H as (written & _ & -> & Hwr & _).
    by rewrite lookup_insert_eq, Hc, (Hwr eq_refl). }
  revert w c. induction keys as [|key keys IH]; intros w c.
  - intros [= <-] Hc. unfold snapshotBytes. simpl. by rewrite app_nil_r.
  - simpl. unfold index.writeKey, index.writeItem.
    destruct (os.Write name _ w) as [[[]|e|] w1] eqn:E1; [|done..].
    destruct (os.Write name key w1) as [[[]|e|] w2] eqn:E2; [|done..].
    destruct (os.Write name _ w2) as [[[]|e|] w3] eqn:E3; [|done..].
    intros H Hc.
    pose proof (HW _ _ _ _ E1 Hc) as H1.
    pose proof (HW _ _ _ _ E2 H1) as H2.
    pose proof (HW _ _ _ _ E3 H2) as H3.
    rewrite (IH _ _ H H3). f_equal.
    change (snapshotBytes t (key :: keys))
      with (nodeBytes key (itemOf t key) ++ snapshotBytes t keys).
    unfold nodeBytes, itemOf. by rewrite <- !app_assoc.
Qed.

Lemma Save_ok t name w w' :
  index.Save t name w = (Ok (), w') →
  files w' !! name = Some (snapshotBytes t (ForEach_keys t)).
Proof.
  unfold index.Save, index.writeIndex, os.OpenFile_trunc.
  destruct (os.fault (log (EvOpenW name) w)) as [[k|] w0] eqn:E0; [done|].
  destruct (index.writeNodes name t _ _) as [r1 w1] eqn:E1.
  destruct r1 as [[]|e|].
  - eapply writeNodes_ok in E1; [|apply lookup_insert_eq].
    destruct (os.Sync name w1) as [r2 w2] eqn:E2.
    apply os_Sync_inv in E2 as (_ & H2 & _).
    destruct (os.Close name w2) as [r3 w3] eqn:E3.
    apply os_Close_inv in E3 as (_ & H3 & _).
    intros [= -> <-]. by rewrite H3, H2, E1.
  - by destruct (os.Close name w1).
  - by destruct (os.Close name w1).
Qed.

Lemma readKey_node key rest mk :
  len key <= mk → mk < two32 →
  index.readKey (BigEndian.PutUint32 (u32 (len key)) ++ key ++ rest) mk
  = Ok (key, rest).
Proof.
  intros Hk Hmk. unfold index.readKey, index.readFull, index.int32Size.
  pose proof (len_nonneg key) as Hk0.
  pose proof (length_PutUint32 (u32 (len key))) as H4.
  destruct (BigEndian.PutUint32 (u32 (len key)) ++ key ++ rest) as [|x l] eqn:El.
  { apply (f_equal length) in El. rewrite length_app in El. simpl in El. lia. }
  rewrite <- El. clear El x l. simpl (4 =? 0).  cbv iota.
  destruct (Z.ltb_spec (len (BigEndian.PutUint32 (u32 (len key)) ++ key ++ rest)) 4) as [Hlt|_].
  { rewrite len_app in Hlt. unfold len in Hlt at 1. rewrite H4 in Hlt.
    pose proof (len_nonneg (key ++ rest)). lia. }
  rewrite take_app_length' by done. rewrite drop_app_length' by done.
  rewrite <- (app_nil_r (BigEndian.PutUint32 _)), Uint32_PutUint32.
  rewrite !u32_id by (unfold u32; try apply Z.mod_pos_bound; unfold two32 in *; lia).
  destruct (Z.gtb_spec (len key) mk); [lia|].
  destruct (Z.eqb_spec (len key) 0) as [H0|Hn0].
  - destruct key; [done|]. unfold len in H0. simpl in H0. lia.
  - destruct (key ++ rest) as [|x l] eqn:El.
    { destruct key; [done|]. done. }
    rewrite <- El. clear El x l.
    destruct (Z.ltb_spec (len (key ++ rest)) (len key)) as [Hlt|_].
    { rewrite len_app in Hlt. pose proof (len_nonneg rest). lia. }
    unfold len. rewrite Nat2Z.id.
    by rewrite take_app_length, drop_app_length.
Qed.

Lemma readItem_node i rest :
  item_fits i →
  index.readItem
    (BigEndian.PutUint32 (u32 (FileID i)) ++
     BigEndian.PutUint64 (u64 (ItemOffset i)) ++
     BigEndian.PutUint64 (u64 (Size i)) ++ rest)
  = Ok (i, rest).
Proof.
  intros (Hf & Ho & Hs).
  unfold index.readItem, index.readFull, index.fileIDSize, index.offsetSize,
    index.sizeSize, index.int32Size, index.int64Size.
  pose proof (length_PutUint32 (u32 (FileID i))) as H4.
  pose proof (length_PutUint64 (u64 (ItemOffset i))) as H8.
  pose proof (length_PutUint64 (u64 (Size i))) as H8'.
  set (a := BigEndian.PutUint32 (u32 (FileID i))) in *.
  set (b := BigEndian.PutUint64 (u64 (ItemOffset i))) in *.
  set (c := BigEndian.PutUint64 (u64 (Size i))) in *.
  assert (Hlen : length (a ++ b ++ c) = 20%nat)
    by (rewrite !length_app; lia).
  replace (a ++ b ++ c ++ rest) with ((a ++ b ++ c) ++ rest)
    by (by rewrite <- !app_assoc).
  destruct ((a ++ b ++ c) ++ rest) as [|x l] eqn:El.
  { apply (f_equal length) in El. rewrite length_app in El. simpl in El. lia. }
  rewrite <- El. clear El x l. simpl (4 + 8 + 8 =? 0). cbv iota.
  destruct (Z.ltb_spec (len ((a ++ b ++ c) ++ rest)) (4 + 8 + 8)) as [Hlt|_].
  { rewrite len_app in Hlt. unfold len in Hlt at 1. rewrite Hlen in Hlt.
    pose proof (len_nonneg rest). lia. }
  change (Z.to_nat (4 + 8 + 8)) with 20%nat.
  rewrite (take_app_length' (a ++ b ++ c)) by done.
  rewrite (drop_app_length' (a ++ b ++ c)) by done.
  rewrite (take_app_length' a) by done.
  rewrite (drop_app_length' a) by done.
  rewrite (take_app_length' b) by done.
  replace (drop 12 (a ++ b ++ c)) with c.
  2:{ rewrite (app_assoc a b c). rewrite drop_app_length'; [done|].
      rewrite length_app. lia. }
  subst a b c.
  rewrite <- (app_nil_r (BigEndian.PutUint32 _)), Uint32_PutUint32.
  rewrite <- (app_nil_r (BigEndian.PutUint64 (u64 (ItemOffset i)))), Uint64_PutUint64.
  rewrite <- (app_nil_r (BigEndian.PutUint64 (u64 (Size i)))), Uint64_PutUint64.
  assert (Hu : ∀ z, u64 (u64 z) = u64 z).
  { intros z. unfold u64. apply Z.mod_mod. unfold two64. lia. }
  rewrite !Hu, !wrap64_u64 by done.
  rewrite !u32_id by (unfold u32; try apply Z.mod_pos_bound; unfold two32 in *; lia).
  by destruct i.
Qed.

Lemma readIndex_snapshot t keys mk : ∀ fuel t0,
  mk < two32 →
  Forall (λ key, len key <= mk ∧ item_fits (itemOf t key)) keys →
  (length keys < fuel)%nat →
  index.readIndex fuel t0 (snapshotBytes t keys) mk
  = Ok (foldl (λ acc key, <[key := itemOf t key]> acc) t0 keys).
Proof.
  intros fuel t0 Hmk Hall. revert fuel t0.
  induction Hall as [|key keys [Hk Hi] Hall IH]; intros fuel t0 Hfuel.
  - destruct fuel; [simpl in Hfuel; lia|]. done.
  - destruct fuel; [simpl in Hfuel; lia|]. simpl in Hfuel.
    change (snapshotBytes t (key :: keys))
      with (nodeBytes key (itemOf t key) ++ snapshotBytes t keys).
    unfold nodeBytes. rewrite <- !app_assoc.
    cbn [index.readIndex].
    rewrite readKey_node by done.
    rewrite readItem_node by done.
    apply IH. lia.
Qed.

Lemma foldl_insert_lookup (t : Tree) keys : ∀ (t0 : Tree) k,
  foldl (λ acc key, <[key := itemOf t key]> acc) t0 keys !! k
  = if decide (k ∈ keys) then Some (itemOf t k) else t0 !! k.
Proof.
  induction keys as [|key keys IH]; intros t0 k; simpl.
  - destruct (decide (k ∈ [])) as [H|_]; [|done]. by apply elem_of_nil in H.
  - rewrite IH. destruct (decide (k ∈ keys)) as [Hin|Hnin].
    + rewrite decide_True; [done|]. by right.
    + destruct (decide (k = key)) as [->|Hne].
      * rewrite decide_True by left. by rewrite lookup_insert_eq.
      * rewrite decide_False; [by rewrite lookup_insert_ne|].
        intros [?|?]%elem_of_cons; done.
Qed.

Lemma elem_of_ForEach_keys (t : Tree) k : k ∈ ForEach_keys t ↔ is_Some (t !! k).
Proof.
  unfold ForEach_keys. rewrite merge_sort_Permutation.
  change (map fst (map_to_list t)) with (fst <$> map_to_list t). rewrite list_elem_of_fmap. split.
  - intros ([k' i] & -> & Hin). apply elem_of_map_to_list in Hin. by eexists.
  - intros [i Hi]. exists (k, i). split; [done|]. by apply elem_of_map_to_list.
Qed.

Lemma readIndex_Save (t : Tree) mk fuel :
  mk < two32 → snapshot_fits mk t →
  (length (ForEach_keys t) < fuel)%nat →
  index.readIndex fuel ∅ (snapshotBytes t (ForEach_keys t)) mk = Ok t.
Proof.
  intros Hmk Hfits Hfuel. rewrite readIndex_snapshot; try done.
  - f_equal. apply map_eq. intros k. rewrite foldl_insert_lookup.
    destruct (decide (k ∈ ForEach_keys t)) as [Hin|Hnin].
    + apply elem_of_ForEach_keys in Hin as [i Hi]. unfold itemOf. by rewrite Hi.
    + rewrite lookup_empty. symmetry. apply eq_None_not_Some.
      by rewrite <- elem_of_ForEach_keys.
  - apply Forall_forall. intros k Hin.
    apply elem_of_ForEach_keys in Hin as [i Hi].
    unfold itemOf. rewrite Hi. by apply (Hfits k i).
Qed.

Lemma length_snapshotBytes t keys :
  (length keys <= length (snapshotBytes t keys))%nat.
Proof.
  induction keys as [|k keys IH]; [simpl; lia|].
  change (snapshotBytes t (k :: keys))
    with (nodeBytes k (itemOf t k) ++ snapshotBytes t keys).
  unfold nodeBytes. rewrite !length_app, !length_PutUint32. simpl. lia.
Qed.

Lemma Load_snapshot (t : Tree) name mk w :
  files w !! name = Some (snapshotBytes t (ForEach_keys t)) →
  faults w = [] → mk < two32 → snapshot_fits mk t →
  index.Load name mk w = (Ok (t, true), log (EvOpenR name) w).
Proof.
  intros HS Hnf Hmk Hfits.
  assert (HE : internal.Exists name w = (true, w)).
  { unfold internal.Exists, os.Exists, os.fault. rewrite Hnf, HS.
    by rewrite bool_decide_eq_true_2 by (by eexists). }
  assert (HO : os.Open name w = (Ok (), log (EvOpenR name) w)).
  { unfold os.Open, os.fault. simpl. rewrite Hnf. simpl. by rewrite HS. }
  unfold index.Load. rewrite HE. cbn [negb]. cbv iota. rewrite HO.
  change (files (log (EvOpenR name) w)) with (files w). rewrite HS.
  cbn [default from_option]. unfold id.
  rewrite readIndex_Save; [done..|].
  pose proof (length_snapshotBytes t (ForEach_keys t)). lia.
Qed.

(** X8. The snapshot round trip: when [Save] has returned nil for a
    directory whose keys are within [maxKeySize], whose file ids fit
    [uint32] and whose offsets and sizes are [int64], and no file
    operation fails afterwards, [Load] finds the snapshot and returns
    that directory. *)
Theorem Save_Load_roundtrip (t : Tree) (name : string) (w w1 : World)
    (maxKeySize : Z) :
  index.Save t name w = (Ok (), w1) →
  maxKeySize < two32 → snapshot_fits maxKeySize t →
  faults w1 = [] →
  ∃ w2, index.Load name maxKeySize w1 = (Ok (t, true), w2).
Proof.
  intros HS Hmk Hfits Hnf. apply Save_ok in HS.
  eexists. by apply Load_snapshot.
Qed.

Module X8_example.

Definition t : Tree := {[ B "hello" := mkItem 3 1024 26 ]}.
Definition saved : World := (index.Save t "index" Examples.empty).2.

End X8_example.

Lemma Save_Load_roundtrip_witness :
  ∃ w2, index.Load "index" 64 X8_example.saved = (Ok (X8_example.t, true), w2).
Proof.
  apply (Save_Load_roundtrip X8_example.t "index"%string Examples.empty
           X8_example.saved 64).
  - vm_compute. reflexivity.
  - reflexivity.
  - apply map_Forall_singleton. vm_compute.
    repeat split; try reflexivity; intros H; discriminate H.
  - vm_compute. reflexivity.
Defined.

Lemma NewDatafile_readonly_quiet id mk mv w r w' :
  data.NewDatafile id true mk mv w = (r, w') →
  faults w = [] → files w' = files w ∧ faults w' = [].
Proof.
  intros H Hnf. unfold data.NewDatafile in H.
  assert (HF : ∀ w0, faults w0 = [] → os.fault w0 = (None, w0)).
  { intros w0 H0. unfold os.fault. by rewrite H0. }
  unfold os.Open, os.mmap_Open, os.Stat_Size in H.
  rewrite (HF (log _ w)) in H by done.
  change (files (log (EvOpenR (data.defaultDatafileFilename id)) w))
    with (files w) in H.
  destruct (files w !! data.defaultDatafileFilename id) as [c|] eqn:Hc.
  - rewrite (HF (log _ w)) in H by done.
    change (files (log (EvOpenR (data.defaultDatafileFilename id)) w))
      with (files w) in H.
    rewrite Hc in H.
    rewrite (HF (log _ w)) in H by done.
    change (files (log (EvOpenR (data.defaultDatafileFilename id)) w))
      with (files w) in H.
    rewrite Hc in H. by injection H as _ <-.
  - by injection H as _ <-.
Qed.

Lemma openAll_quiet ids mk mv m w r w' :
  openAll ids mk mv m w = (r, w') →
  faults w = [] → files w' = files w ∧ faults w' = [].
Proof.
  revert m w. induction ids as [|id ids IH]; intros m w; simpl.
  - by intros [= _ <-].
  - destruct (data.NewDatafile id true mk mv w) as [rd w1] eqn:Ed.
    intros H Hnf. apply NewDatafile_readonly_quiet in Ed as [Hf1 Hn1]; [|done].
    destruct rd as [d|e|].
    + apply IH in H as [Hf2 Hn2]; [|done]. by rewrite Hf2.
    + by injection H as _ <-.
    + by injection H as _ <-.
Qed.

(** X9. A clean shutdown is restored from the snapshot: when [Close] has
    returned nil for a directory that fits a snapshot and no file
    operation fails afterwards, an [Open] that succeeds has the key
    directory the engine had when it was closed. *)
Theorem Close_Open_restores_directory (b : Bitcask) (w : World)
    (b' : Bitcask) (w' : World) (path : string) (cfg : Config)
    (b2 : Bitcask) (w2 : World) :
  Close b w = (Ok (), b', w') →
  MaxKeySize cfg < two32 → snapshot_fits (MaxKeySize cfg) (b_t b) →
  faults w' = [] →
  Open path cfg w' = (Ok b2, w2) →
  b_t b2 = b_t b.
Proof.
  intros HC Hmk Hfits Hnf HO.
  assert (HS : files w' !! "index"%string
               = Some (snapshotBytes (b_t b) (ForEach_keys (b_t b)))).
  { revert HC. unfold Close.
    destruct (index.Save _ _ w) as [r0 w0] eqn:E0.
    destruct r0 as [[]|e|]; [|done..]. apply Save_ok in E0.
    destruct (closeAll _ _ w0) as [[r1 m1] w1] eqn:E1.
    apply closeAll_files in E1.
    destruct r1 as [[]|e|]; [|done..].
    destruct (data.Close (b_curr b) w1) as [[r2 c2] w3] eqn:E2.
    apply data_Close_inv in E2 as (_ & _ & _ & _ & _ & _ & Hf & _).
    intros [= _ _ <-]. by rewrite Hf, E1. }
  revert HO. unfold Open, reopen, loadDatafiles.
  destruct (internal.GetDatafiles path w') as [fns|e|]; [|done..].
  destruct (internal.ParseIds fns) as [ids|e|]; [|done..].
  destruct (openAll ids _ _ ∅ w') as [r1 w1] eqn:E1.
  apply openAll_quiet in E1 as [Hf1 Hn1]; [|done].
  destruct r1 as [dfs|e|]; [|done..].
  unfold loadIndex. rewrite (Load_snapshot (b_t b)); [|by rewrite Hf1|done..].
  cbn [negb]. cbv iota.
  destruct (data.NewDatafile _ false _ _ _) as [[curr|e|] w4]; [|done..].
  by intros [= <- _].
Qed.

Module X9_example.

Definition closed := Close C7_example.b' C7_example.w'.
Definition reopened := Open "/tmp/db" Examples.cfg closed.2.

End X9_example.

Lemma Close_Open_restores_directory_witness :
  b_t (Examples.opened X9_example.reopened).1 = b_t C7_example.b'.
Proof.
  assert (Ht : map_to_list (b_t C7_example.b')
               = [(B "hello", mkItem 0 0 26)]).
  { vm_compute. reflexivity. }
  apply (Close_Open_restores_directory C7_example.b' C7_example.w'
           X9_example.closed.1.2 X9_example.closed.2 "/tmp/db"%string
           Examples.cfg _ (Examples.opened X9_example.reopened).2).
  - vm_compute. reflexivity.
  - reflexivity.
  - apply map_Forall_to_list. rewrite Ht. apply Forall_singleton. vm_compute.
    repeat split; try reflexivity; intros H; discriminate H.
  - vm_compute. reflexivity.
  - vm_compute. reflexivity.
Defined.

(* --------------------------------------------------------------------- *)
(** ** The ids in the names of the data files *)
(* --------------------------------------------------------------------- *)

Lemma parseId_defaultDatafileFilename path id :
  0 <= id <= MaxInt →
  parseId (path +:+ "/" +:+ data.defaultDatafileFilename id) = Ok id.
Proof.
  intros Hid. destruct (Sprintf_0d_digits 9 id Hid) as [Hloop Hne].
  unfold parseId, data.defaultDatafileFilename.
  set (ds := fmt.Sprintf_0d 9 id) in *.
  assert (Hbase : filepath.Base (path +:+ "/" +:+ ds +:+ ".data") = ds +:+ ".data").
  { apply Base_join.
    - by destruct ds.
    - rewrite list_ascii_of_string_append. apply Forall_app. split.
      + apply parseUintLoop_digits in Hloop.
        eapply Forall_impl; [exact Hloop|]. intros c [d Hd].
        by apply digit_not_sign in Hd as (_ & _ & ? & _).
      + repeat constructor; discriminate. }
  assert (Hext : filepath.Ext (path +:+ "/" +:+ ds +:+ ".data") = ".data"%string).
  { replace (path +:+ "/" +:+ ds +:+ ".data")
      with ((path +:+ "/" +:+ ds) +:+ ".data"); [apply Ext_data|].
    by rewrite append_assoc. }
  rewrite Hbase, Hext, TrimSuffix_append by done.
  apply ParseInt_of_loop; [done|done|]. unfold MaxInt, two63 in *. lia.
Qed.

Lemma parseLoop_parseId fns : ∀ acc ids,
  Forall2 (λ fn id, parseId fn = Ok id) fns ids →
  internal.parseLoop fns acc = Ok (acc ++ ids).
Proof.
  induction fns as [|fn fns IH]; intros acc ids H.
  - apply Forall2_nil_inv_l in H as ->. simpl. by rewrite app_nil_r.
  - apply Forall2_cons_inv_l in H as (id & ids' & Hid & H & ->).
    simpl. unfold parseId in Hid. rewrite Hid.
    rewrite (IH _ _ H). by rewrite <- app_assoc.
Qed.

(** X10. The ids that [NewDatafile] writes into file names are the ids
    that [ParseIds] reads back: for the files of segments [ids] (each a
    non-negative Go [int]) in any directory, [ParseIds] returns the
    sorted ids, behind one zero for every file name. *)
Theorem ParseIds_of_datafile_names (path : string) (ids : list Z) :
  Forall (λ id, 0 <= id <= MaxInt) ids →
  internal.ParseIds
    (map (λ id, path +:+ "/" +:+ data.defaultDatafileFilename id) ids)
  = Ok (sort.Ints (replicate (length ids) 0 ++ ids)).
Proof.
  intros Hall. unfold internal.ParseIds.
  rewrite (parseLoop_parseId _ _ ids).
  - by rewrite length_map.
  - induction Hall as [|id ids Hid _ IH]; simpl; constructor; [|done].
    by apply parseId_defaultDatafileFilename.
Qed.

Lemma ParseIds_of_datafile_names_witness :
  internal.ParseIds
    (map (λ id, "/tmp/db" +:+ "/" +:+ data.defaultDatafileFilename id) [2; 0; 1])
  = Ok (sort.Ints (replicate (length [2; 0; 1]) 0 ++ [2; 0; 1])).
Proof.
  apply (ParseIds_of_datafile_names "/tmp/db" [2; 0; 1]).
  repeat constructor; vm_compute; intros H; discriminate H.
Defined.

(** X11. [ParseIds] returns ids exactly when the name of every file
    parses as an integer; one name that does not makes it (and with it
    [Open]) fail. *)
Theorem ParseIds_ok_iff (fns : list string) :
  (∃ ids, internal.ParseIds fns = Ok ids)
  ↔ Forall (λ fn, ∃ id, parseId fn = Ok id) fns.
Proof.
  unfold internal.ParseIds.
  assert (H : ∀ acc,
            (∃ ids, internal.parseLoop fns acc = Ok ids)
            ↔ Forall (λ fn, ∃ id, parseId fn = Ok id) fns).
  { induction fns as [|fn fns IH]; intros acc; simpl.
    - split; [constructor|by eexists].
    - fold (parseId fn). destruct (parseId fn) as [id|e|] eqn:E.
      + rewrite IH. split.
        * intros Hall. constructor; [by eexists|done].
        * by intros [_ Hall]%Forall_cons.
      + split; [by intros [? ?]|]. intros [[? ?] _]%Forall_cons. congruence.
      + split; [by intros [? ?]|]. intros [[? ?] _]%Forall_cons. congruence. }
  rewrite <- (H (replicate (length fns) 0)).
  destruct (internal.parseLoop fns _) as [ids|e|].
  - split; by eexists.
  - split; by intros [? ?].
  - split; by intros [? ?].
Qed.







Module X12_example.

(** The directory after a rollover holds the files of segments 0 and 1. *)
Definition w : World := C6_example.second.2.
Definition reopened := Examples.opened (Open "/tmp/db" C6_example.cfg w).

End X12_example.


Example Open_resumes_at_1 :
  data.FileID (b_curr X12_example.reopened.1) = 1
  ∧ elements (dom (files X12_example.w))
    = ["000000001.data"; "000000000.data"]%string.
Proof. vm_compute. split; reflexivity. Qed.

(* --------------------------------------------------------------------- *)
(** ** Reading a data file record by record *)
(* --------------------------------------------------------------------- *)

Lemma fault_none w : faults w = [] → os.fault w = (None, w).
Proof. intros H. unfold os.fault. by rewrite H. Qed.

Lemma ReadFull_ok r w c x rest :
  f_closed r = false → faults w = [] →
  files w !! f_name r = Some c →
  drop (f_pos r) c = x ++ rest → 0 < len x →
  io.ReadFull r (len x) w
  = (Ok x, mkFile (f_name r) (f_pos r + length x) false, w).
Proof.
  intros Hopen Hnf Hc Hd Hx. unfold io.ReadFull.
  destruct (Z.eqb_spec (len x) 0); [lia|]. rewrite Hopen, fault_none by done.
  rewrite Hc. cbn [default from_option]. unfold id. rewrite Hd. clear Hd.
  destruct (x ++ rest) as [|y l] eqn:El.
  { destruct x; [unfold len in Hx; simpl in Hx; lia|done]. }
  rewrite <- El. clear El y l.
  destruct (Z.ltb_spec (len (x ++ rest)) (len x)) as [Hlt|_].
  { rewrite len_app in Hlt. pose proof (len_nonneg rest). lia. }
  unfold len. rewrite Nat2Z.id. by rewrite take_app_length.
Qed.

Lemma ReadFull_short r w c n :
  f_closed r = false → faults w = [] →
  files w !! f_name r = Some c →
  len (drop (f_pos r) c) < n →
  (io.ReadFull r n w).1.1
  = Err (if decide (drop (f_pos r) c = []) then EOF else ErrUnexpectedEOF).
Proof.
  intros Hopen Hnf Hc Hlt. unfold io.ReadFull.
  pose proof (len_nonneg (drop (f_pos r) c)).
  destruct (Z.eqb_spec n 0); [lia|]. rewrite Hopen, fault_none by done.
  rewrite Hc. cbn [default from_option]. unfold id.
  destruct (drop (f_pos r) c) as [|y l] eqn:El; [done|].
  by destruct (Z.ltb_spec (len (y :: l)) n); [|lia].
Qed.

(** [Decode] once the prefix of a record with admissible sizes has been
    read: what is left is the read of the body. *)
Lemma Decode_prefix r w c key value rest mk mv :
  f_closed r = false → faults w = [] →
  files w !! f_name r = Some c →
  drop (f_pos r) c
  = BigEndian.PutUint32 (u32 (len key))
    ++ BigEndian.PutUint64 (u64 (len value)) ++ rest →
  0 < len key <= mk → mk < two32 →
  len value <= mv → mv < two64 →
  recordLen key value < two63 →
  codec.Decode r mk mv w
  = match io.ReadFull (mkFile (f_name r) (f_pos r + 12) false)
            (len key + len value + 4) w with
    | (Ok buf, r, w) =>
        match codec.decodeWithoutPrefix buf (len key) zeroEntry with
        | Ok e => (Ok (e, recordLen key value), r, w)
        | _ => (Panic, r, w)
        end
    | (_, r, w) => (Err errTruncatedData, r, w)
    end.
Proof.
  intros Hopen Hnf Hc Hd Hk Hmk Hv Hmv Hrec.
  pose proof (len_nonneg value) as Hv0.
  unfold codec.Decode.
  set (pk := BigEndian.PutUint32 (u32 (len key))) in *.
  set (pv := BigEndian.PutUint64 (u64 (len value))) in *.
  assert (Hpk : length pk = 4%nat) by apply length_PutUint32.
  assert (Hpv : length pv = 8%nat) by apply length_PutUint64.
  unfold recordLen, codec.keySize, codec.valueSize, codec.checksumSize in *.
  assert (Hread : io.ReadFull r (4 + 8) w
                  = (Ok (pk ++ pv), mkFile (f_name r) (f_pos r + 12) false, w)).
  { replace (4 + 8) with (len (pk ++ pv))
      by (unfold len; rewrite length_app, Hpk, Hpv; lia).
    replace 12%nat with (length (pk ++ pv)) by (rewrite length_app; lia).
    apply (ReadFull_ok r w _ _ rest Hopen Hnf Hc).
    - by rewrite Hd, <- app_assoc.
    - unfold len. rewrite length_app. lia. }
  rewrite Hread. unfold codec.getKeyValueSizes, codec.keySize, codec.valueSize.
  replace (len (pk ++ pv)) with 12
    by (unfold len; rewrite length_app, Hpk, Hpv; lia).
  destruct (Z.ltb_spec 12 (4 + 8)); [lia|].
  rewrite (take_app_length' pk) by done.
  rewrite (drop_app_length' pk) by done.
  assert (Hk32 : BigEndian.Uint32 pk = len key).
  { rewrite <- (app_nil_r pk). unfold pk. rewrite Uint32_PutUint32.
    rewrite !(u32_id (len key)) by (unfold two32 in *; lia). done. }
  assert (Hv64 : BigEndian.Uint64 pv = len value).
  { rewrite <- (app_nil_r pv). unfold pv. rewrite Uint64_PutUint64.
    rewrite !(u64_id (len value)) by (unfold two64 in *; lia). done. }
  rewrite Hk32, Hv64.
  destruct (Z.gtb_spec (len key) mk); [lia|].
  destruct (Z.gtb_spec (len value) mv); [lia|].
  destruct (Z.eqb_spec (len key) 0); [lia|]. cbn [orb]. cbv iota.
  rewrite !u64_id by (unfold two64, two63 in *; lia).
  destruct (Z.gtb_spec (len key + len value + 4) MaxInt) as [Hgt|_].
  { unfold MaxInt, two63 in *. lia. }
  rewrite wrap64_id by (unfold in_int64, two63 in *; lia).
  replace (4 + 8 + len key + len value + 4)
    with (4 + 8 + (len key + len value + 4)) by lia.
  reflexivity.
Qed.

(** X13. Reading a data file record by record: with the cursor of the
    read handle at the start of a record that [Encode] wrote (non-empty
    key, sizes within the limits) and no failing file operation, [Read]
    returns the entry and the length of the record, and leaves the cursor
    at the start of the next record. *)
Theorem Read_returns_encoded_record (d : data.datafile) (w : World)
    (pre post key value : bytes) :
  f_closed (data.d_r d) = false → faults w = [] →
  files w !! data.Name d
  = Some (pre ++ codec.encoded (NewEntry key value) ++ post) →
  f_pos (data.d_r d) = length pre →
  0 < len key <= data.d_maxKeySize d → data.d_maxKeySize d < two32 →
  len value <= data.d_maxValueSize d → data.d_maxValueSize d < two64 →
  recordLen key value < two63 →
  data.Read d w
  = (Ok (NewEntry key value, recordLen key value),
     data.set_r (mkFile (data.Name d)
                   (length (pre ++ codec.encoded (NewEntry key value))) false) d,
     w).
Proof.
  intros Hopen Hnf Hc Hpos Hk Hmk Hv Hmv Hrec.
  pose proof (len_nonneg value) as Hv0.
  pose proof (ChecksumIEEE_u32 value) as Hcrc.
  unfold data.Name in *. unfold data.Read.
  set (r := data.d_r d) in *.
  unfold codec.encoded in *. cbn [NewEntry Key Value Checksum] in *.
  set (ck := BigEndian.PutUint32 (crc32.ChecksumIEEE value)) in *.
  assert (Hck : length ck = 4%nat) by apply length_PutUint32.
  rewrite (Decode_prefix r w _ key value (key ++ value ++ ck ++ post) _ _
             Hopen Hnf Hc); try done.
  2:{ rewrite Hpos, drop_app_length. by rewrite <- !app_assoc. }
  assert (Hbody : len (key ++ value ++ ck) = len key + len value + 4).
  { rewrite !len_app. unfold len. rewrite Hck. lia. }
  rewrite <- Hbody.
  rewrite (ReadFull_ok (mkFile (f_name r) (f_pos r + 12) false) w _
             (key ++ value ++ ck) post eq_refl Hnf Hc).
  2:{ cbn [f_pos]. rewrite Hpos.
      set (pk := BigEndian.PutUint32 (u32 (len key))).
      set (pv := BigEndian.PutUint64 (u64 (len value))).
      replace (length pre + 12)%nat with (length (pre ++ pk ++ pv))
        by (rewrite !length_app; unfold pk, pv;
            rewrite length_PutUint32, length_PutUint64; lia).
      replace (pre ++ (pk ++ pv ++ key ++ value ++ ck) ++ post)
        with ((pre ++ pk ++ pv) ++ (key ++ value ++ ck) ++ post)
        by (by rewrite <- !app_assoc).
      by rewrite drop_app_length. }
  2:{ lia. }
  unfold codec.decodeWithoutPrefix, codec.checksumSize. rewrite Hbody.
  destruct (Z.ltb_spec (len key + len value + 4) (len key)); [lia|].
  destruct (Z.ltb_spec (len key + len value + 4 - 4) (len key)); [lia|].
  assert (HC : BigEndian.Uint32
                 (drop (Z.to_nat (len key + len value + 4 - 4)) (key ++ value ++ ck))
               = crc32.ChecksumIEEE value).
  { replace (Z.to_nat (len key + len value + 4 - 4))
      with (length (key ++ value)) by (rewrite length_app; unfold len; lia).
    rewrite (app_assoc key value), drop_app_length.
    rewrite <- (app_nil_r ck). unfold ck. rewrite Uint32_PutUint32.
    apply u32_id. done. }
  assert (HK : take (Z.to_nat (len key)) (key ++ value ++ ck) = key).
  { replace (Z.to_nat (len key)) with (length key) by (unfold len; lia).
    by rewrite take_app_length. }
  assert (HV : drop (Z.to_nat (len key))
                 (take (Z.to_nat (len key + len value + 4 - 4)) (key ++ value ++ ck))
               = value).
  { replace (Z.to_nat (len key + len value + 4 - 4))
      with (length (key ++ value)) by (rewrite length_app; unfold len; lia).
    replace (Z.to_nat (len key)) with (length key) by (unfold len; lia).
    rewrite (app_assoc key value), take_app_length, drop_app_length. done. }
  rewrite HC, HK, HV. cbn [f_pos f_name].
  replace (f_pos r + 12 + length (key ++ value ++ ck))%nat
    with (length (pre ++ (BigEndian.PutUint32 (u32 (len key))
                          ++ BigEndian.PutUint64 (u64 (len value))
                          ++ key ++ value ++ ck)))
    by (rewrite Hpos, !length_app, length_PutUint32, length_PutUint64; lia).
  reflexivity.
Qed.

Module X13_example.

Definition d : data.datafile :=
  data.mkDatafile (mkFile "000000000.data" 0 false) None None 0 0 64 65536.

End X13_example.

Lemma Read_returns_encoded_record_witness :
  data.Read X13_example.d C7_example.w'
  = (Ok (NewEntry (B "hello") (B "world"), recordLen (B "hello") (B "world")),
     data.set_r (mkFile (data.Name X13_example.d)
                   (length ([] ++ codec.encoded (NewEntry (B "hello") (B "world"))))
                   false) X13_example.d,
     C7_example.w').
Proof.
  apply (Read_returns_encoded_record X13_example.d C7_example.w' []
           [] (B "hello") (B "world")).
  - reflexivity.
  - vm_compute. reflexivity.
  - vm_compute. reflexivity.
  - reflexivity.
  - vm_compute. split; [reflexivity|intros H; discriminate H].
  - reflexivity.
  - vm_compute. intros H; discriminate H.
  - reflexivity.
  - reflexivity.
Defined.

(** X14. A record cut short at the end of a data file, as a failed write
    leaves it: with the cursor at its start, [Read] returns [io.EOF] when
    nothing of the record is there, [io.ErrUnexpectedEOF] when the cut is
    inside the twelve bytes of the prefix, and [errTruncatedData] when it
    is behind the prefix. *)
Theorem Read_torn_record (d : data.datafile) (w : World)
    (pre key value : bytes) (m : nat) :
  f_closed (data.d_r d) = false → faults w = [] →
  files w !! data.Name d
  = Some (pre ++ take m (codec.encoded (NewEntry key value))) →
  f_pos (data.d_r d) = length pre →
  0 < len key <= data.d_maxKeySize d → data.d_maxKeySize d < two32 →
  len value <= data.d_maxValueSize d → data.d_maxValueSize d < two64 →
  recordLen key value < two63 →
  (m < length (codec.encoded (NewEntry key value)))%nat →
  (data.Read d w).1.1
  = Err (if decide (m = 0%nat) then EOF
         else if decide (m < 12)%nat then ErrUnexpectedEOF
         else errTruncatedData).
Proof.
  intros Hopen Hnf Hc Hpos Hk Hmk Hv Hmv Hrec Hm.
  unfold data.Name in *. unfold data.Read.
  set (r := data.d_r d) in *.
  assert (Hdrop : drop (f_pos r) (pre ++ take m (codec.encoded (NewEntry key value)))
                  = take m (codec.encoded (NewEntry key value)))
    by (by rewrite Hpos, drop_app_length).
  assert (Hlen : length (take m (codec.encoded (NewEntry key value))) = m)
    by (rewrite length_take; lia).
  destruct (decide (m < 12)%nat) as [Hlt|Hge].
  - pose proof (ReadFull_short r w _ (4 + 8) Hopen Hnf Hc) as Hshort.
    rewrite Hdrop in Hshort. unfold len in Hshort. rewrite Hlen in Hshort.
    specialize (Hshort ltac:(lia)).
    unfold codec.Decode, codec.keySize, codec.valueSize.
    destruct (io.ReadFull r (4 + 8) w) as [[res r1] w1]. simpl in Hshort.
    subst res. simpl.
    destruct (decide (m = 0%nat)) as [->|Hne].
    + by rewrite decide_True.
    + rewrite decide_False; [done|]. intros Hnil.
      apply (f_equal length) in Hnil. rewrite Hlen in Hnil. simpl in Hnil. lia.
  - rewrite decide_False by lia.
    unfold codec.encoded in *. cbn [NewEntry Key Value Checksum] in *.
    set (pk := BigEndian.PutUint32 (u32 (len key))) in *.
    set (pv := BigEndian.PutUint64 (u64 (len value))) in *.
    set (body := key ++ value ++ BigEndian.PutUint32 (crc32.ChecksumIEEE value)) in *.
    assert (Hpk : length pk = 4%nat) by apply length_PutUint32.
    assert (Hpv : length pv = 8%nat) by apply length_PutUint64.
    assert (Hbody : len body = len key + len value + 4).
    { unfold body. rewrite !len_app. unfold len. rewrite length_PutUint32. lia. }
    assert (Htake : take m (pk ++ pv ++ body) = pk ++ pv ++ take (m - 12) body).
    { rewrite (app_assoc pk pv), take_app_ge by (rewrite length_app; lia).
      rewrite length_app, Hpk, Hpv. by rewrite <- app_assoc. }
    rewrite Htake in *.
    rewrite (Decode_prefix r w _ key value (take (m - 12) body) _ _
               Hopen Hnf Hc); try done.
    pose proof (ReadFull_short (mkFile (f_name r) (f_pos r + 12) false) w _
                  (len key + len value + 4) eq_refl Hnf Hc) as Hshort.
    cbn [f_pos] in Hshort.
    assert (Hd2 : drop (f_pos r + 12) (pre ++ pk ++ pv ++ take (m - 12) body)
                  = take (m - 12) body).
    { rewrite Hpos.
      replace (length pre + 12)%nat with (length (pre ++ pk ++ pv))
        by (rewrite !length_app; lia).
      replace (pre ++ pk ++ pv ++ take (m - 12) body)
        with ((pre ++ pk ++ pv) ++ take (m - 12) body)
        by (by rewrite <- !app_assoc).
      by rewrite drop_app_length. }
    rewrite Hd2 in Hshort.
    assert (Hlt : len (take (m - 12) body) < len key + len value + 4).
    { rewrite <- Hbody. unfold len. rewrite length_take.
      rewrite !length_app, Hpk, Hpv in Hm. lia. }
    specialize (Hshort Hlt).
    destruct (io.ReadFull _ (len key + len value + 4) w) as [[res r1] w1].
    simpl in Hshort. by subst res.
Qed.

Module X14_example.

(** The first write of an engine on a disk that fails after twenty bytes
    and is then read from the start. *)
Definition w0 : World := mkWorld (files C9_example.w) [Some 20%nat] [].
Definition w : World :=
  mkWorld (files (Put C9_example.b (B "hello") (B "world") w0).2) [] [].

End X14_example.

Lemma Read_torn_record_witness :
  (data.Read X13_example.d X14_example.w).1.1
  = Err (if decide (20%nat = 0%nat) then EOF
         else if decide (20 < 12)%nat then ErrUnexpectedEOF
         else errTruncatedData).
Proof.
  apply (Read_torn_record X13_example.d X14_example.w [] (B "hello") (B "world") 20).
  - reflexivity.
  - reflexivity.
  - vm_compute. reflexivity.
  - reflexivity.
  - vm_compute. split; [reflexivity|intros H; discriminate H].
  - reflexivity.
  - vm_compute. intros H; discriminate H.
  - reflexivity.
  - reflexivity.
  - vm_compute. lia.
Defined.

(* --------------------------------------------------------------------- *)
(** ** Records stay where the directory says *)
(* --------------------------------------------------------------------- *)

(** [item] locates the record of [key] and [value]: its size is that of
    the record, the file of its data file holds the record at its offset,
    and when that data file is not the active one, [datafiles] holds it
    read-only with the record at that offset of its view. *)
Definition located (b : Bitcask) (w : World) (item : Item) (key value : bytes)
  : Prop :=
  Size item = recordLen key value
  ∧ ∃ pre post,
      ItemOffset item = len pre
      ∧ files w !! data.defaultDatafileFilename (FileID item)
        = Some (pre ++ codec.encoded (NewEntry key value) ++ post)
      ∧ (FileID item ≠ data.FileID (b_curr b) →
         ∃ df vpost,
           b_datafiles b !! FileID item = Some df
           ∧ data.d_w df = None
           ∧ data.d_ra df
             = Some (pre ++ codec.encoded (NewEntry key value) ++ vpost)
           ∧ data.d_maxKeySize df = MaxKeySize (b_cfg b)
           ∧ data.d_maxValueSize df = MaxValueSize (b_cfg b)).

(** The active data file reads the file that its id names. *)
Definition named (b : Bitcask) : Prop :=
  data.Name (b_curr b) = data.defaultDatafileFilename (data.FileID (b_curr b)).

Lemma located_frame b w b' w' item key value :
  located b w item key value →
  grows w w' →
  b_cfg b' = b_cfg b →
  (FileID item ≠ data.FileID (b_curr b') →
   FileID item ≠ data.FileID (b_curr b)
   ∧ b_datafiles b' !! FileID item = b_datafiles b !! FileID item) →
  located b' w' item key value.
Proof.
  intros (Hsize & pre & post & Hoff & Hfile & Hfrozen) Hgrows Hcfg Hdf.
  split; [done|]. destruct (Hgrows _ _ Hfile) as [s Hs].
  exists pre, (post ++ s). split_and!; [done|by rewrite Hs, <- !app_assoc|].
  intros Hne. destruct (Hdf Hne) as [Hne' Heq].
  rewrite Heq, Hcfg. by apply Hfrozen.
Qed.

Lemma beforeWrite_located b w r b1 w1 item key value :
  located b w item key value →
  beforeWrite b w = (r, b1, w1) →
  located b1 w1 item key value.
Proof.
  intros Hloc. unfold beforeWrite.
  destruct (data.Size (b_curr b) >? MaxDatafileSize (b_cfg b)).
  2:{ by intros [= _ <- <-]. }
  intros Er. pose proof Er as Er'.
  apply rollover_inv in Er' as (Hcfg & _ & _ & Hp & _ & Hpres & _ & Herr & _).
  destruct r as [[]|e|]; [| |done].
  - apply rollover_ok in Er as (c0 & Hc0 & Hdf & Hcurr & _ & _).
    destruct Hloc as (Hsize & pre & post & Hoff & Hfile & Hfrozen).
    split; [done|]. exists pre, post. split_and!; [done|by apply Hpres|].
    intros Hne. rewrite Hdf, Hcfg.
    destruct (decide (FileID item = data.d_id (b_curr b))) as [Heq|Hne'].
    + rewrite Heq, lookup_insert_eq. rewrite Heq in Hfile.
      rewrite Hfile in Hc0. injection Hc0 as <-.
      eexists _, post. by split_and!.
    + rewrite lookup_insert_ne by done. by apply Hfrozen.
  - destruct (Herr e eq_refl) as [Hcurr Hdf].
    destruct (data.Close (b_curr b) w) as [[rc c] wc] eqn:Ec.
    apply data_Close_inv in Ec as (Hid & _). simpl in Hcurr.
    eapply located_frame; [exact Hloc|by apply preserves_grows|done|].
    unfold data.FileID. rewrite Hcurr, Hid. intros Hne. split; [done|].
    destruct Hdf as [->|[c0 ->]]; [done|]. by rewrite lookup_insert_ne.
Qed.

Lemma put_located b k v w r b' w' item key value :
  located b w item key value →
  put b k v w = (r, b', w') →
  located b' w' item key value.
Proof.
  intros Hloc. rewrite put_eq.
  destruct (beforeWrite b w) as [[r1 b1] w1] eqn:Eb.
  apply (beforeWrite_located _ _ _ _ _ _ _ _ Hloc) in Eb.
  destruct r1 as [[]|e|]; [|by intros [= _ <- <-]..].
  destruct (data.Write _ _ w1) as [[rw c] w2] eqn:Ew.
  pose proof (Write_grows _ _ _ _ _ _ Ew) as Hg.
  apply Write_inv in Ew as (Hid & _).
  intros [= _ <- <-].
  eapply located_frame; [exact Eb|done|done|].
  unfold data.FileID. simpl. by rewrite Hid.
Qed.

Lemma deleteKeys_located keys b w item key value :
  located b w item key value →
  located (deleteKeys b keys w).1.2 (deleteKeys b keys w).2 item key value.
Proof.
  revert b w. induction keys as [|k keys IH]; intros b w Hloc; simpl; [done|].
  destruct (put b k [] w) as [[r b1] w1] eqn:Ep.
  apply (put_located _ _ _ _ _ _ _ _ _ _ Hloc) in Ep.
  destruct r as [[off n]|e|]; [by apply IH|done..].
Qed.

Lemma located_set_t b w t item key value :
  located b w item key value → located (set_t t b) w item key value.
Proof. done. Qed.

Lemma exec_located op b w item key value :
  op ≠ OpClose →
  located b w item key value →
  located (exec op b w).1 (exec op b w).2 item key value.
Proof.
  intros Hop Hloc.
  destruct op as [k v|k|k|k| | | |]; simpl; try done.
  - unfold Put. destruct (_ >? _); [done|]. destruct (_ >? _); [done|].
    destruct (put b k v w) as [[r b1] w1] eqn:Ep.
    apply (put_located _ _ _ _ _ _ _ _ _ _ Hloc) in Ep.
    by destruct r as [[off n]|e|].
  - eapply located_frame; [exact Hloc|apply grows_same, Get_files|done|done].
  - unfold Delete.
    destruct (put b k [] w) as [[r b1] w1] eqn:Ep.
    apply (put_located _ _ _ _ _ _ _ _ _ _ Hloc) in Ep.
    by destruct r as [[off n]|e|].
  - unfold DeleteAll.
    pose proof (deleteKeys_located (ForEach_keys (b_t b)) b w _ _ _ Hloc) as H.
    destruct (deleteKeys b _ w) as [[r b1] w1]. by destruct r.
  - eapply located_frame; [exact Hloc| |done|done].
    apply grows_same. unfold bitcask.Sync.
    destruct (data.Sync (b_curr b) w) as [r w1] eqn:Es.
    by apply data_Sync_inv in Es as (? & _).
Qed.

Lemma beforeWrite_named b w r b1 w1 :
  named b → beforeWrite b w = (r, b1, w1) → named b1.
Proof.
  intros Hn. unfold beforeWrite.
  destruct (data.Size (b_curr b) >? MaxDatafileSize (b_cfg b)).
  2:{ by intros [= _ <- _]. }
  intros Er. apply rollover_inv in Er as (_ & _ & _ & Hp & _ & _ & Hok & Herr & _).
  destruct r as [[]|e|]; [| |done].
  - destruct (Hok () eq_refl) as (c0 & c1 & _ & Hcurr & _).
    unfold named. by rewrite Hcurr.
  - destruct (Herr e eq_refl) as [Hcurr _].
    destruct (data.Close (b_curr b) w) as [[rc c] wc] eqn:Ec.
    apply data_Close_inv in Ec as (Hid & _ & Hname & _). simpl in Hcurr.
    unfold named, data.Name, data.FileID in *. by rewrite Hcurr, Hname, Hid.
Qed.

Lemma put_named b k v w r b' w' :
  named b → put b k v w = (r, b', w') → named b'.
Proof.
  intros Hn. rewrite put_eq.
  destruct (beforeWrite b w) as [[r1 b1] w1] eqn:Eb.
  apply (beforeWrite_named _ _ _ _ _ Hn) in Eb.
  destruct r1 as [[]|e|]; [|by intros [= _ <- _]..].
  destruct (data.Write _ _ w1) as [[rw c] w2] eqn:Ew.
  apply Write_inv in Ew as (Hid & Hr & _).
  intros [= _ <- _]. unfold named, data.Name, data.FileID in *. simpl.
  by rewrite Hid, Hr.
Qed.

Lemma deleteKeys_named keys b w :
  named b → named (deleteKeys b keys w).1.2.
Proof.
  revert b w. induction keys as [|k keys IH]; intros b w Hn; simpl; [done|].
  destruct (put b k [] w) as [[r b1] w1] eqn:Ep.
  apply (put_named _ _ _ _ _ _ _ Hn) in Ep.
  destruct r as [[off n]|e|]; [by apply IH|done..].
Qed.

Lemma exec_named op b w :
  op ≠ OpClose → named b → named (exec op b w).1.
Proof.
  intros Hop Hn.
  destruct op as [k v|k|k|k| | | |]; simpl; try done.
  - unfold Put. destruct (_ >? _); [done|]. destruct (_ >? _); [done|].
    destruct (put b k v w) as [[r b1] w1] eqn:Ep.
    apply (put_named _ _ _ _ _ _ _ Hn) in Ep.
    by destruct r as [[off n]|e|].
  - unfold Delete.
    destruct (put b k [] w) as [[r b1] w1] eqn:Ep.
    apply (put_named _ _ _ _ _ _ _ Hn) in Ep.
    by destruct r as [[off n]|e|].
  - unfold DeleteAll.
    pose proof (deleteKeys_named (ForEach_keys (b_t b)) b w Hn) as H.
    destruct (deleteKeys b _ w) as [[r b1] w1]. by destruct r.
Qed.

Lemma Open_named path cfg w b w' :
  Open path cfg w = (Ok b, w') → named b.
Proof.
  unfold Open, reopen.
  destruct (loadDatafiles _ _ _ w) as [[[m lastID]|e|] w1]; [|done|done].
  destruct (loadIndex _ _ m w1) as [[[t m']|e|] w2]; [|done|done].
  destruct (data.NewDatafile lastID false _ _ w2) as [[curr|e|] w3] eqn:En;
    [|done|done].
  apply NewDatafile_ok in En as (c & -> & _). by intros [= <- _].
Qed.

Lemma reachable_named b w : reachable notClose b w → named b.
Proof.
  induction 1 as [path cfg w b w' HO|op b w _ IH Hop].
  - by eapply Open_named.
  - by apply exec_named.
Qed.

(** The positioned read of a record in the middle of a file. *)
Lemma os_ReadAt_mid f w pre rec post :
  f_closed f = false →
  nextCallSucceeds w →
  files w !! f_name f = Some (pre ++ rec ++ post) →
  0 < len rec →
  ∃ w2, os.ReadAt f (len rec) (len pre) w = (Ok rec, w2).
Proof.
  intros Hopen Hnext Hfile Hn. unfold os.ReadAt.
  pose proof (len_nonneg pre).
  destruct (Z.ltb_spec (len pre) 0); [lia|].
  destruct (Z.eqb_spec (len rec) 0); [lia|]. rewrite Hopen.
  unfold os.fault, nextCallSucceeds in *.
  assert (Hread : take (Z.to_nat (len rec))
                    (drop (Z.to_nat (len pre)) (pre ++ rec ++ post)) = rec).
  { unfold len. rewrite !Nat2Z.id, drop_app_length. by rewrite take_app_length. }
  destruct (faults w) as [|[k|] fs]; [|done|]; simpl; rewrite Hfile; simpl;
    rewrite Hread; destruct (Z.ltb_spec (len rec) (len rec)); try lia;
    by eexists.
Qed.

Lemma ReadAt_located d w pre post key value :
  (match data.d_w d with
   | Some _ => f_closed (data.d_r d) = false ∧ nextCallSucceeds w
               ∧ files w !! f_name (data.d_r d)
                 = Some (pre ++ codec.encoded (NewEntry key value) ++ post)
   | None => data.d_ra d
             = Some (pre ++ codec.encoded (NewEntry key value) ++ post)
   end) →
  0 < len key <= data.d_maxKeySize d → data.d_maxKeySize d < two32 →
  len value <= data.d_maxValueSize d → data.d_maxValueSize d < two64 →
  ∃ w2, data.ReadAt d (len pre) (recordLen key value) w
        = (Ok (NewEntry key value), w2).
Proof.
  intros Hd Hk Hmk Hv Hmv.
  pose proof (len_nonneg value). pose proof (len_nonneg pre).
  assert (Hrec : recordLen key value = len (codec.encoded (NewEntry key value)))
    by (by rewrite length_encoded).
  assert (Hpos : 0 < recordLen key value).
  { unfold recordLen, codec.keySize, codec.valueSize, codec.checksumSize. lia. }
  assert (Hbytes : ∃ w2, data.readBytes d (len pre) (recordLen key value) w
                         = (Ok (codec.encoded (NewEntry key value)), w2)).
  { unfold data.readBytes. destruct (data.d_w d) as [enc|].
    - destruct Hd as (Hopen & Hnext & Hfile). rewrite Hrec.
      apply (os_ReadAt_mid _ _ _ _ post); first [done|by rewrite <- Hrec].
    - rewrite Hd. exists w.
      destruct (Z.ltb_spec (len pre) 0); [lia|].
      destruct (Z.ltb_spec (len (pre ++ codec.encoded (NewEntry key value) ++ post))
                  (len pre)) as [Hlt|_].
      { rewrite len_app in Hlt.
        pose proof (len_nonneg (codec.encoded (NewEntry key value) ++ post)). lia. }
      cbn [orb]. rewrite Hrec.
      assert (Hread : take (Z.to_nat (len (codec.encoded (NewEntry key value))))
                        (drop (Z.to_nat (len pre))
                           (pre ++ codec.encoded (NewEntry key value) ++ post))
                      = codec.encoded (NewEntry key value)).
      { unfold len. rewrite !Nat2Z.id, drop_app_length. by rewrite take_app_length. }
      rewrite Hread.
      by destruct (Z.ltb_spec (len (codec.encoded (NewEntry key value)))
                     (len (codec.encoded (NewEntry key value)))); [lia|]. }
  destruct Hbytes as [w2 Hbytes]. exists w2. unfold data.ReadAt.
  destruct (Z.ltb_spec (recordLen key value) 0); [lia|].
  rewrite Hbytes, <- Hrec, Z.eqb_refl. cbn [negb].
  rewrite DecodeEntry_encoded by done. reflexivity.
Qed.

Lemma Get_located b w key item value :
  b_t b !! key = Some item →
  located b w item key value →
  engine_ok b w → named b →
  Config_wf (b_cfg b) →
  0 < len key <= MaxKeySize (b_cfg b) →
  len value <= MaxValueSize (b_cfg b) →
  (FileID item = data.FileID (b_curr b) → f_closed (data.d_r (b_curr b)) = false) →
  nextCallSucceeds w →
  (Get b key w).1 = Ok value.
Proof.
  intros Hitem (Hsize & pre & post & Hoff & Hfile & Hfrozen) Hok Hnamed
    (_ & Hmk & Hmv) Hk Hv Hopen Hnext.
  destruct Hok as (enc & Hw & _ & Hmk0 & Hmv0 & _).
  unfold Get. rewrite Hitem, Hsize, Hoff.
  destruct (Z.eqb_spec (FileID item) (data.FileID (b_curr b))) as [Heq|Hne].
  - destruct (ReadAt_located (b_curr b) w pre post key value) as [w2 Hread].
    + rewrite Hw. split_and!; [by apply Hopen|done|].
      unfold named, data.Name in Hnamed. by rewrite Hnamed, <- Heq.
    + by rewrite Hmk0.
    + rewrite Hmk0. lia.
    + by rewrite Hmv0.
    + rewrite Hmv0. lia.
    + rewrite Hread. cbn [NewEntry Value Checksum]. by rewrite Z.eqb_refl.
  - destruct (Hfrozen Hne) as (df & vpost & Hdf & Hro & Hview & Hmk1 & Hmv1).
    rewrite Hdf.
    destruct (ReadAt_located df w pre vpost key value) as [w2 Hread].
    + by rewrite Hro.
    + by rewrite Hmk1.
    + rewrite Hmk1. lia.
    + by rewrite Hmv1.
    + rewrite Hmv1. lia.
    + rewrite Hread. cbn [NewEntry Value Checksum]. by rewrite Z.eqb_refl.
Qed.

Lemma Put_located b w key value b' w' :
  engine_ok b w → named b →
  Put b key value w = (Ok (), b', w') →
  (∀ c, files w' !! data.Name (b_curr b') = Some c → len c < two63) →
  ∃ item, b_t b' !! key = Some item ∧ located b' w' item key value.
Proof.
  intros Hok Hnamed HPut Hbound.
  rewrite Put_admission in HPut.
  destruct (u32 (len key) >? _); [done|].
  destruct (u64 (len value) >? _); [done|].
  destruct (put b key value w) as [[rp b1] w1] eqn:Ep.
  destruct rp as [[off n]|e|]; [|done|done].
  injection HPut as <- <-.
  rewrite put_eq in Ep.
  destruct (beforeWrite b w) as [[r0 b0] w0] eqn:Eb.
  pose proof (beforeWrite_named _ _ _ _ _ Hnamed Eb) as Hnamed0.
  apply beforeWrite_engine_ok in Eb as (Hok0 & Hcfg & Hr0); [|done].
  destruct r0 as [[]|e|]; [|done|done].
  destruct (data.Write (b_curr b0) (NewEntry key value) w0) as [[rw c] w2] eqn:Ew.
  injection Ep as -> <- <-.
  apply Write_ok in Ew as (enc & Hw & He & Hc & -> & -> & -> & Hf & _).
  destruct Hok0 as (enc0 & Hw0 & Hn & _ & _ & _ & Hoff).
  rewrite Hw in Hw0. injection Hw0 as <-.
  destruct (Hoff He Hc) as (c0 & Hc0 & Ho).
  cbn [NewEntry Key Value] in *.
  assert (Hfile : files w2 !! f_name (data.d_r (b_curr b0))
                  = Some (c0 ++ codec.encoded (NewEntry key value))).
  { by rewrite Hf, Hc0, <- Hn, lookup_insert_eq. }
  specialize (Hbound _ Hfile).
  rewrite len_app, length_encoded in Hbound. cbn [NewEntry Key Value] in Hbound.
  pose proof (len_nonneg c0). pose proof (len_nonneg key).
  pose proof (len_nonneg value).
  assert (Hrl : 16 <= recordLen key value).
  { unfold recordLen, codec.keySize, codec.valueSize, codec.checksumSize. lia. }
  assert (Ho' : data.d_offset (b_curr b0) = len c0).
  { rewrite Ho. apply wrap64_id. unfold in_int64, two63 in *. lia. }
  assert (Hn' : wrap64 (recordLen key value) = recordLen key value).
  { apply wrap64_id. unfold in_int64, two63 in *. lia. }
  eexists. cbn [b_t set_t]. rewrite lookup_insert_eq. split; [done|].
  split; [done|]. exists c0, []. cbn [FileID ItemOffset]. split_and!.
  - done.
  - unfold named, data.Name in Hnamed0. cbn [b_curr set_curr data.FileID].
    unfold data.FileID, data.set_offset. cbn [data.d_id].
    unfold data.FileID in Hnamed0. by rewrite <- Hnamed0, app_nil_r.
  - intros Hne. by destruct Hne.
Qed.

(** Operations that write to the directory entry of [key]. *)
Definition touches (op : Op) (key : bytes) : Prop :=
  match op with
  | OpPut k _ | OpDelete k => k = key
  | OpDeleteAll | OpClose => True
  | _ => False
  end.

Lemma exec_directory op b w key :
  ¬ touches op key → b_t (exec op b w).1 !! key = b_t b !! key.
Proof.
  intros Hop. destruct op as [k v|k|k|k| | | |]; simpl in *; try done.
  - unfold Put. destruct (_ >? _); [done|]. destruct (_ >? _); [done|].
    destruct (put b k v w) as [[r b1] w1] eqn:Ep.
    apply put_keeps_directory in Ep as (Ht & _).
    destruct r as [[off n]|e|]; simpl; rewrite <- ?Ht; [|done..].
    by rewrite lookup_insert_ne.
  - unfold Delete.
    destruct (put b k [] w) as [[r b1] w1] eqn:Ep.
    apply put_keeps_directory in Ep as (Ht & _).
    destruct r as [[off n]|e|]; simpl; rewrite <- ?Ht; [|done..].
    by rewrite lookup_delete_ne.
Qed.

Lemma deleteKeys_cfg keys b w : b_cfg (deleteKeys b keys w).1.2 = b_cfg b.
Proof.
  revert b w. induction keys as [|k keys IH]; intros b w; simpl; [done|].
  destruct (put b k [] w) as [[r b1] w1] eqn:Ep.
  apply put_keeps_directory in Ep as (_ & Hcfg & _).
  destruct r as [[off n]|e|]; [by rewrite IH|done..].
Qed.

Lemma exec_cfg op b w : op ≠ OpClose → b_cfg (exec op b w).1 = b_cfg b.
Proof.
  intros Hop. destruct op as [k v|k|k|k| | | |]; simpl; try done.
  - unfold Put. destruct (_ >? _); [done|]. destruct (_ >? _); [done|].
    destruct (put b k v w) as [[r b1] w1] eqn:Ep.
    apply put_keeps_directory in Ep as (_ & Hcfg & _).
    by destruct r as [[off n]|e|].
  - unfold Delete.
    destruct (put b k [] w) as [[r b1] w1] eqn:Ep.
    apply put_keeps_directory in Ep as (_ & Hcfg & _).
    by destruct r as [[off n]|e|].
  - unfold DeleteAll. pose proof (deleteKeys_cfg (ForEach_keys (b_t b)) b w) as H.
    destruct (deleteKeys b _ w) as [[r b1] w1]. by destruct r.
Qed.

(** The engine and the world after a sequence of operations. *)
Definition run (ops : list Op) (b : Bitcask) (w : World) : Bitcask * World :=
  foldl (λ s op, exec op s.1 s.2) (b, w) ops.

Lemma run_cons op ops b w :
  run (op :: ops) b w = run ops (exec op b w).1 (exec op b w).2.
Proof. unfold run. simpl. by destruct (exec op b w). Qed.

Lemma run_invariants ops key item value : ∀ b w,
  Forall (λ op, ¬ touches op key) ops →
  engine_ok b w → named b →
  b_t b !! key = Some item → located b w item key value →
  engine_ok (run ops b w).1 (run ops b w).2
  ∧ named (run ops b w).1
  ∧ b_cfg (run ops b w).1 = b_cfg b
  ∧ b_t (run ops b w).1 !! key = Some item
  ∧ located (run ops b w).1 (run ops b w).2 item key value.
Proof.
  induction ops as [|op ops IH]; intros b w Hall Hok Hn Hitem Hloc; [done|].
  apply Forall_cons in Hall as [Hop Hall].
  assert (Hnc : op ≠ OpClose) by (intros ->; by apply Hop).
  rewrite run_cons.
  destruct (IH (exec op b w).1 (exec op b w).2) as (H1 & H2 & H3 & H4 & H5);
    try done.
  - by apply exec_engine_ok.
  - by apply exec_named.
  - by rewrite exec_directory.
  - by apply exec_located.
  - split_and!; try done. by rewrite H3, exec_cfg.
Qed.

(** X16. Records stay where the directory says: once an item locates the
    record of a key and a value (at its offset in the file of its data
    file, and in the view of the read-only data file when that file is
    not the active one), it locates it after every operation but [Close],
    whatever the operation returns, rollover included. *)
Theorem located_is_stable (op : Op) (b : Bitcask) (w : World)
    (item : Item) (key value : bytes) :
  op ≠ OpClose →
  located b w item key value →
  located (exec op b w).1 (exec op b w).2 item key value.
Proof. apply exec_located. Qed.

Module X16_example.

(** The engine of the rollover example, whose segment 0 holds the record
    of "a", and the write that rolls over to segment 1. *)
Definition item : Item := mkItem 0 0 21.
Definition op : Op := OpPut (B "b") (B "BBBB").

End X16_example.

Lemma located_is_stable_witness :
  located (exec X16_example.op C6_example.b C6_example.w).1
          (exec X16_example.op C6_example.b C6_example.w).2
          X16_example.item (B "a") (B "AAAA").
Proof.
  apply (located_is_stable X16_example.op C6_example.b C6_example.w
           X16_example.item (B "a") (B "AAAA")).
  - intros H; discriminate H.
  - split; [vm_compute; reflexivity|]. exists [], [].
    split; [reflexivity|]. split; [vm_compute; reflexivity|].
    intros Hne. exfalso. apply Hne. vm_compute. reflexivity.
Defined.

Example located_after_rollover :
  data.FileID (b_curr (exec X16_example.op C6_example.b C6_example.w).1) = 1
  ∧ b_t C6_example.b !! B "a" = Some X16_example.item.
Proof. vm_compute. split; reflexivity. Qed.

(** X17. What [Put] has written is what [Get] returns, later: after a
    [Put] that returned nil in a state reached from [Open], and any
    sequence of operations that do not write the key ([Put] and [Delete]
    of other keys, [Get], [Has], [Len], [Sync]; rollovers and failed
    calls included), [Get] returns the value, provided the read handle of
    the active data file is open and the read itself does not fail. *)
Theorem Put_survives_later_operations (b : Bitcask) (w : World)
    (key value : bytes) (b1 : Bitcask) (w1 : World) (ops : list Op) :
  reachable notClose b w →
  Config_wf (b_cfg b) →
  0 < len key <= MaxKeySize (b_cfg b) →
  len value <= MaxValueSize (b_cfg b) →
  Put b key value w = (Ok (), b1, w1) →
  (∀ c, files w1 !! data.Name (b_curr b1) = Some c → len c < two63) →
  Forall (λ op, ¬ touches op key) ops →
  f_closed (data.d_r (b_curr (run ops b1 w1).1)) = false →
  nextCallSucceeds (run ops b1 w1).2 →
  (Get (run ops b1 w1).1 key (run ops b1 w1).2).1 = Ok value.
Proof.
  intros Hreach Hwf Hk Hv HPut Hbound Hops Hopen Hnext.
  pose proof (reachable_engine_ok _ _ Hreach) as Hok.
  pose proof (reachable_named _ _ Hreach) as Hnamed.
  destruct (Put_located _ _ _ _ _ _ Hok Hnamed HPut Hbound) as (item & Hitem & Hloc).
  assert (Hex : exec (OpPut key value) b w = (b1, w1))
    by (simpl; by rewrite HPut).
  assert (Hnc : notClose (OpPut key value) b) by done.
  pose proof (exec_engine_ok _ _ _ Hok Hnc) as Hok1.
  pose proof (exec_named _ _ w Hnc Hnamed) as Hnamed1.
  pose proof (exec_cfg (OpPut key value) b w Hnc) as Hcfg1.
  rewrite Hex in Hok1, Hnamed1, Hcfg1. simpl in Hok1, Hnamed1, Hcfg1.
  destruct (run_invariants ops key item value b1 w1 Hops Hok1 Hnamed1 Hitem Hloc)
    as (Hok2 & Hnamed2 & Hcfg2 & Hitem2 & Hloc2).
  apply (Get_located _ _ _ item); try done.
  - by rewrite Hcfg2, Hcfg1.
  - by rewrite Hcfg2, Hcfg1.
  - by rewrite Hcfg2, Hcfg1.
Qed.

Module X17_example.

Definition ops : list Op :=
  [OpPut (B "b") (B "BBBB"); OpGet (B "b"); OpDelete (B "c")].

Definition final := run ops C6_example.b C6_example.w.

End X17_example.

Lemma Put_survives_later_operations_witness :
  (Get X17_example.final.1 (B "a") X17_example.final.2).1 = Ok (B "AAAA").
Proof.
  apply (Put_survives_later_operations C6_example.opened.1 C6_example.opened.2
           (B "a") (B "AAAA") C6_example.b C6_example.w X17_example.ops).
  - apply (reach_open notClose "/tmp/db"%string C6_example.cfg Examples.empty).
    vm_compute. reflexivity.
  - vm_compute. repeat split; try reflexivity; intros H; discriminate H.
  - vm_compute. repeat split; try reflexivity; intros H; discriminate H.
  - vm_compute. intros H; discriminate H.
  - vm_compute. reflexivity.
  - intros c Hc. vm_compute in Hc. injection Hc as <-. vm_compute. reflexivity.
  - repeat constructor.
    + intros H. vm_compute in H. discriminate H.
    + intros H. exact H.
    + intros H. vm_compute in H. discriminate H.
  - vm_compute. reflexivity.
  - vm_compute. exact I.
Defined.

(** In that run the record of "a" is read from the read-only data file of
    segment 0, the active data file being that of segment 2. *)
Example Put_survives_rollovers :
  data.FileID (b_curr X17_example.final.1) = 2
  ∧ elements (dom (b_datafiles X17_example.final.1)) = [1; 0]
  ∧ FileID <$> (b_t X17_example.final.1 !! B "a") = Some 0.
Proof. vm_compute. repeat split. Qed.

(* --------------------------------------------------------------------- *)
(** ** After [Close] *)
(* --------------------------------------------------------------------- *)

(** A data file whose view and read handle have been released. *)
Definition released (d : data.datafile) : Prop :=
  data.d_ra d = None ∧ f_closed (data.d_r d) = true.

Lemma data_Close_released d w r d' w' :
  data.Close d w = (r, d', w') → released d'.
Proof.
  unfold data.Close. destruct (data.d_w d) as [enc|].
  - destruct (data.Sync d w) as [rs ws].
    destruct rs as [[]|e|]; [|by intros [= _ <- _]..].
    destruct (os.Close _ ws) as [rc wc]. by intros [= _ <- _].
  - by intros [= _ <- _].
Qed.


Lemma closeAll_released ids : ∀ m w m' w',
  closeAll m ids w = (Ok (), m', w') →
  ∀ id df', m' !! id = Some df' →
    (id ∈ ids ∨ ∃ df, m !! id = Some df ∧ released df) →
    released df'.
Proof.
  induction ids as [|id0 ids IH]; intros m w m' w'; simpl.
  - intros [= <- _] id df' Hdf' [Hin|(df & Hdf & Hrel)].
    + by apply elem_of_nil in Hin.
    + rewrite Hdf in Hdf'. by injection Hdf' as <-.
  - destruct (m !! id0) as [f|] eqn:Hf.
    + destruct (data.Close f w) as [[rc f1] w1] eqn:Ec.
      apply data_Close_released in Ec.
      destruct rc as [[]|e|]; [|done..].
      intros H id df' Hdf' Hcase. apply (IH _ _ _ _ H id df' Hdf').
      destruct (decide (id = id0)) as [->|Hne].
      * right. exists f1. by rewrite lookup_insert_eq.
      * destruct Hcase as [Hin|(df & Hdf & Hrel)].
        -- apply elem_of_cons in Hin as [?|Hin]; [done|by left].
        -- right. exists df. by rewrite lookup_insert_ne.
    + intros H id df' Hdf' Hcase. apply (IH _ _ _ _ H id df' Hdf').
      destruct Hcase as [Hin|Hrel]; [|by right].
      apply elem_of_cons in Hin as [->|Hin]; [|by left].
      pose proof (closeAll_dom _ _ _ _ _ _ H) as Hdom.
      assert (id0 ∈ dom m') as Hin by (apply elem_of_dom; by eexists).
      rewrite Hdom in Hin. apply elem_of_dom in Hin as [? Hin]. congruence.
Qed.

Lemma Close_released b w b' w' :
  Close b w = (Ok (), b', w') →
  b_t b' = b_t b ∧ b_cfg b' = b_cfg b
  ∧ data.FileID (b_curr b') = data.FileID (b_curr b)
  ∧ data.Size (b_curr b') = data.Size (b_curr b)
  ∧ released (b_curr b')
  ∧ dom (b_datafiles b') = dom (b_datafiles b)
  ∧ (∀ id df, b_datafiles b' !! id = Some df → released df)
  ∧ (∀ enc, data.d_w (b_curr b) = Some enc →
       ∃ enc', data.d_w (b_curr b') = Some enc'
               ∧ codec.wr_closed enc' = true).
Proof.
  unfold Close. destruct (index.Save _ _ w) as [r0 w0].
  destruct r0 as [[]|e|]; [|done..].
  destruct (closeAll _ _ w0) as [[r1 m1] w1] eqn:E1.
  destruct r1 as [[]|e|]; [|done..].
  destruct (data.Close (b_curr b) w1) as [[r2 c2] w2] eqn:E2.
  intros [= -> <- _]. simpl.
  pose proof (data_Close_released _ _ _ _ _ E2) as Hrel.
  pose proof (closeAll_dom _ _ _ _ _ _ E1) as Hdom.
  pose proof (closeAll_released _ _ _ _ _ E1) as Hall.
  split_and!; try done.
  - by apply data_Close_inv in E2 as (? & _).
  - by apply data_Close_inv in E2 as (_ & ? & _).
  - intros id df Hdf. apply (Hall id df Hdf). left.
    rewrite merge_sort_Permutation. apply elem_of_elements. rewrite <- Hdom.
    apply elem_of_dom. by eexists.
  - intros enc Henc. revert E2. unfold data.Close. rewrite Henc.
    destruct (data.Sync (b_curr b) w1) as [rs ws].
    destruct rs as [[]|e|]; [|done..].
    destruct (os.Close _ ws) as [rc wc]. intros [= _ <- _]. by eexists.
Qed.


Module X18_example.

Definition closed := Close C7_example.b' C7_example.w'.

End X18_example.


(** X19. After a [Close] that returned nil in a state reached from
    [Open], the writer of the active data file is closed: as long as that
    file is not over the threshold (so that no rollover opens a new one),
    every [Put] returns an error and leaves the files as they are. *)
Theorem Put_after_Close (b : Bitcask) (w : World) (b' : Bitcask) (w' : World)
    (key value : bytes) (w2 : World) :
  reachable notClose b w →
  Close b w = (Ok (), b', w') →
  data.Size (b_curr b) <= MaxDatafileSize (b_cfg b) →
  ∃ e b2, Put b' key value w2 = (Err e, b2, w2).
Proof.
  intros Hreach HC Hsize.
  apply reachable_engine_ok in Hreach as (enc & Hw & _).
  apply Close_released in HC as (_ & Hcfg & _ & Hsz & _ & _ & _ & Hcl).
  destruct (Hcl enc Hw) as (enc' & Hw' & Hclosed).
  unfold Put. destruct (_ >? _); [by eexists _, _|].
  destruct (_ >? _); [by eexists _, _|].
  unfold put. rewrite Hsz, Hcfg.
  destruct (Z.gtb_spec (data.Size (b_curr b)) (MaxDatafileSize (b_cfg b))); [lia|].
  unfold data.Write. rewrite Hw'. unfold codec.Encode. rewrite Hclosed.
  destruct (codec.wr_err enc'); by eexists _, _.
Qed.

Lemma Put_after_Close_witness :
  ∃ e b2, Put X18_example.closed.1.2 (B "k") (B "v") X18_example.closed.2
          = (Err e, b2, X18_example.closed.2).
Proof.
  apply (Put_after_Close C7_example.b' C7_example.w' X18_example.closed.1.2
           X18_example.closed.2 (B "k") (B "v") X18_example.closed.2).
  - apply (reach_step notClose (OpPut (B "hello") (B "world")) C7_example.b C7_example.w).
    + apply (reach_open notClose "/tmp/db"%string Examples.cfg Examples.empty).
      vm_compute. reflexivity.
    + intros H; discriminate H.
  - vm_compute. reflexivity.
  - vm_compute. intros H; discriminate H.
Defined.
